(** * mapConservativeFields: the verification harness of the conservative
    mesh-to-mesh mapper

    A shallow embedding of [mapConservativeFields.C]: the analytic test
    fields ([initTestField], [initBoundaryFields]), the error norms
    ([computeError]), the remap driver ([MapConservativeVolFields]) and the
    cyclic remap test ([testCyclicRemap]).

    Modelling conventions.
    - OpenFOAM's [scalar] is read as a real number ([R]); [Foam::sin],
      [Foam::cos], [Foam::sqrt], [mag], [Foam::max] are the functions of the
      same name on [R].  Rounding is not modelled.
    - A division whose divisor is zero raises the floating point exception
      that OpenFOAM's [sigFpe] handler turns into an abort; it is the fault
      [FloatingPointException] of the result type below.
    - [FatalErrorIn(...) << ... << abort(FatalError)] is the fault
      [FatalError], carrying the function name and the message.
    - [Info<<] output, [write()] calls and the calls on the external mapper
      are recorded, in program order, in the trace of the [world]. *)

From Stdlib Require Import Reals Lra Lia List String ZArith Bool.
Import ListNotations.
Open Scope string_scope.
Open Scope R_scope.

Set Implicit Arguments.

(* ------------------------------------------------------------------ *)
(** ** Faults and the two monads *)

Inductive fault : Type :=
| FatalError (functionName message : string)
| FloatingPointException
| IndexOutOfRange.

Inductive Res (A : Type) : Type :=
| Ok (a : A)
| Err (e : fault).
Arguments Ok {A} a.
Arguments Err {A} e.

Definition bindR {A B} (c : Res A) (k : A -> Res B) : Res B :=
  match c with
  | Ok a => k a
  | Err e => Err e
  end.

Declare Scope res_scope.
Delimit Scope res_scope with res.
Notation "x <- c ;; k" := (bindR c (fun x => k))
  (at level 61, c at next level, right associativity) : res_scope.
Notation "' pat <- c ;; k" := (bindR c (fun x => match x with pat => k end))
  (at level 61, pat pattern, c at next level, right associativity) : res_scope.
Open Scope res_scope.

(** [forAll(list, i) { ... }] with a body that yields the new entry [i]. *)
Fixpoint forAllFrom {A B} (body : nat -> A -> Res B) (i : nat) (l : list A)
  : Res (list B) :=
  match l with
  | [] => Ok []
  | a :: l' =>
      b <- body i a ;;
      bs <- forAllFrom body (S i) l' ;;
      Ok (b :: bs)
  end.

Definition forAll {A B} (l : list A) (body : nat -> A -> Res B) : Res (list B) :=
  forAllFrom body 0%nat l.

(** [List<T>::operator[]]. *)
Definition at_ {A} (l : list A) (i : nat) : Res A :=
  match nth_error l i with
  | Some a => Ok a
  | None => Err IndexOutOfRange
  end.

(* ------------------------------------------------------------------ *)
(** ** Scalars and vectors *)

Abbreviation scalar := R (only parsing).
Abbreviation label := Z (only parsing).

Record vector : Type := Vector { vx : scalar; vy : scalar; vz : scalar }.

Definition vzero : vector := Vector 0 0 0.
Definition vadd (a b : vector) : vector :=
  Vector (vx a + vx b) (vy a + vy b) (vz a + vz b).
Definition vsub (a b : vector) : vector :=
  Vector (vx a - vx b) (vy a - vy b) (vz a - vz b).
Definition vscale (s : scalar) (a : vector) : vector :=
  Vector (s * vx a) (s * vy a) (s * vz a).
Definition vmagSqr (a : vector) : scalar :=
  vx a * vx a + vy a * vy a + vz a * vz a.
Definition vmag (a : vector) : scalar := sqrt (vmagSqr a).

Definition mag (s : scalar) : scalar := Rabs s.
Definition magSqr (s : scalar) : scalar := s * s.
Definition sqr (s : scalar) : scalar := s * s.

(** [a / b] on scalars. *)
Definition sdiv (a b : scalar) : Res scalar :=
  if Req_dec_T b 0 then Err FloatingPointException else Ok (a / b).

(** [Foam::cbrt]: the real cube root. *)
Definition cbrt (x : scalar) : scalar :=
  if Rlt_dec 0 x then exp (ln x / 3)
  else if Rlt_dec x 0 then - exp (ln (- x) / 3)
  else 0.

(* ------------------------------------------------------------------ *)
(** ** Meshes and fields *)

Record cell : Type := Cell { cellVolume : scalar; cellCentre : vector }.

(** An [fvMesh]: its case and time name (the place its fields are stored
    under), its cells, and for every boundary patch the centres of its
    faces. *)
Record fvMesh : Type := FvMesh {
  caseName : string;
  timeName : string;
  cells : list cell;
  patchFaceCentres : list (list vector)
}.

Definition nCells (m : fvMesh) : nat := List.length (cells m).
Definition V (m : fvMesh) : list scalar := map cellVolume (cells m).
Definition cellCentres (m : fvMesh) : list vector := map cellCentre (cells m).

Inductive readOption : Type := MUST_READ | NO_READ.
Inductive writeOption : Type := AUTO_WRITE | NO_WRITE.

Record IOobject : Type := IOobject_ {
  ioName : string;
  ioInstance : string;
  ioDb : fvMesh;
  readOpt : readOption;
  writeOpt : writeOption
}.

(** [GeometricField<Type, fvPatchField, volMesh>]. *)
Record GeometricField (T : Type) : Type := Field {
  io : IOobject;
  internalField : list T;
  boundaryField : list (list T);
  patchFieldType : string
}.
Arguments Field {T} io internalField boundaryField patchFieldType.

Definition volScalarField : Type := GeometricField scalar.
Definition volVectorField : Type := GeometricField vector.

Definition fieldName {T} (f : GeometricField T) : string := ioName (io f).
Definition fieldMesh {T} (f : GeometricField T) : fvMesh := ioDb (io f).

(** The constructor [GeometricField(io, mesh, dimensioned<Type>, patchFieldType)]:
    every cell and every boundary face holds the given value. *)
Definition newField {T} (o : IOobject) (m : fvMesh) (value : T)
  (patchType : string) : GeometricField T :=
  Field o
    (repeat value (nCells m))
    (map (fun patch => repeat value (List.length patch)) (patchFaceCentres m))
    patchType.

(** [mesh.C()]: cell centres inside, face centres on the patches. *)
Definition C (m : fvMesh) : volVectorField :=
  Field (IOobject_ "C" (timeName m) m NO_READ NO_WRITE)
    (cellCentres m) (patchFaceCentres m) "calculated".

Definition setInternal {T} (f : GeometricField T) (l : list T) : GeometricField T :=
  Field (io f) l (boundaryField f) (patchFieldType f).
Definition setBoundary {T} (f : GeometricField T) (b : list (list T)) : GeometricField T :=
  Field (io f) (internalField f) b (patchFieldType f).

(* ------------------------------------------------------------------ *)
(** ** The test functions *)

Definition testType : Type := Z.
Definition CONSTANT : testType := 0%Z.
Definition LINEAR : testType := 1%Z.
Definition SINUSOID_2D : testType := 2%Z.
Definition SINUSOID_3D : testType := 3%Z.
Definition COSINE_HILL_2D : testType := 4%Z.

Definition constScalVal : scalar := 2.0.

Definition hC : vector := Vector 0 0 0.
Definition L : scalar := 0.5 * sqrt 2.0.
Definition pi : scalar := PI.

(** The loops of [initBoundaryFields]: every face [faceI] of every patch
    [patchI] of the field is assigned [value patchI faceI]. *)
Definition forAllBoundaryFaces (field : volScalarField)
  (value : nat -> nat -> Res scalar) : Res volScalarField :=
  b <- forAll (boundaryField field) (fun patchI patch =>
         forAll patch (fun faceI _ => value patchI faceI)) ;;
  Ok (setBoundary field b).

(** [xC.boundaryField()[patchI][faceI]]. *)
Definition boundaryAt (xC : volVectorField) (patchI faceI : nat) : Res vector :=
  patch <- at_ (boundaryField xC) patchI ;;
  at_ patch faceI.

Definition initBoundaryFields_name : string :=
  "

tmp<volScalarField> initBoundaryFields
(
    const fvMesh& mesh,
    const testType type,
    autoPtr<volScalarField>& tField
)
".

Definition initBoundaryFields (mesh : fvMesh) (type : testType)
  (tField : volScalarField) : Res volScalarField :=
  let xC := C mesh in
  let field := tField in
  if (type =? CONSTANT)%Z then
    forAllBoundaryFaces field (fun patchI faceI => Ok constScalVal)
  else if (type =? LINEAR)%Z then
    forAllBoundaryFaces field (fun patchI faceI =>
      x <- boundaryAt xC patchI faceI ;;
      Ok (2.0 * vx x + 3.0 * vy x + vz x))
  else if (type =? SINUSOID_2D)%Z then
    forAllBoundaryFaces field (fun patchI faceI =>
      x <- boundaryAt xC patchI faceI ;;
      Ok (1.0 + sin (2.0 * pi * vx x) * sin (2.0 * pi * vy x)))
  else if (type =? SINUSOID_3D)%Z then
    forAllBoundaryFaces field (fun patchI faceI =>
      x <- boundaryAt xC patchI faceI ;;
      Ok (1.0 + sin (2.0 * pi * vx x) * sin (2.0 * pi * vy x)
                * sin (2.0 * pi * vz x)))
  else if (type =? COSINE_HILL_2D)%Z then
    forAllBoundaryFaces field (fun patchI faceI =>
      x <- boundaryAt xC patchI faceI ;;
      let r := vmag (vsub x hC) in
      q <- sdiv (pi * r) L ;;
      Ok (2.0 + cos q))
  else
    Err (FatalError initBoundaryFields_name
           "Unknown enumerant for initialisation.").

(** The interior loops of [initTestField]: cell [cellI] of the scalar and of
    the gradient field is assigned from the cell centre [xC[cellI]]. *)
Definition forAllCells (xC : volVectorField) (field : volScalarField)
  (gfield : volVectorField) (value : vector -> Res (scalar * vector))
  : Res (volScalarField * volVectorField) :=
  fg <- forAll (internalField field) (fun cellI _ =>
          x <- at_ (internalField xC) cellI ;;
          value x) ;;
  Ok (setInternal field (map fst fg), setInternal gfield (map snd fg)).

Definition initTestField_name : string :=
  "

tmp<volScalarField> initTestField
(
    const fvMesh& mesh,
    const testType type,
    bool populate
)
".

Definition initTestField (mesh : fvMesh) (type : testType) (populate : bool)
  : Res (volScalarField * volVectorField) :=
  let xC := C mesh in
  let tField : volScalarField :=
    newField (IOobject_ "alpha" (timeName mesh) mesh NO_READ NO_WRITE)
      mesh 0.0 "fixedValue" in
  let tgField : volVectorField :=
    newField (IOobject_ "grad(alpha)" (timeName mesh) mesh NO_READ NO_WRITE)
      mesh vzero "zeroGradient" in
  if populate then
    let field := tField in
    let gfield := tgField in
    '(field, gfield) <-
      (if (type =? CONSTANT)%Z then
         forAllCells xC field gfield (fun x =>
           Ok (constScalVal, Vector 0.0 0.0 0.0))
       else if (type =? LINEAR)%Z then
         forAllCells xC field gfield (fun x =>
           Ok (2.0 * vx x + 3.0 * vy x + vz x, Vector 2.0 3.0 1.0))
       else if (type =? SINUSOID_2D)%Z then
         forAllCells xC field gfield (fun x =>
           Ok (1.0 + sin (2.0 * pi * vx x) * sin (2.0 * pi * vy x),
               vscale (2.0 * pi)
                 (Vector
                    (cos (2.0 * pi * vx x) * sin (2.0 * pi * vy x))
                    (sin (2.0 * pi * vx x) * cos (2.0 * pi * vy x))
                    0.0)))
       else if (type =? SINUSOID_3D)%Z then
         forAllCells xC field gfield (fun x =>
           Ok (1.0 + sin (2.0 * pi * vx x) * sin (2.0 * pi * vy x)
                     * sin (2.0 * pi * vz x),
               vscale (2.0 * pi)
                 (Vector
                    (cos (2.0 * pi * vx x) * sin (2.0 * pi * vy x)
                     * sin (2.0 * pi * vz x))
                    (sin (2.0 * pi * vx x) * cos (2.0 * pi * vy x)
                     * sin (2.0 * pi * vz x))
                    (sin (2.0 * pi * vx x) * sin (2.0 * pi * vy x)
                     * cos (2.0 * pi * vz x)))))
       else if (type =? COSINE_HILL_2D)%Z then
         forAllCells xC field gfield (fun x =>
           let r := vmag (vsub x hC) in
           q <- sdiv (pi * r) L ;;
           c <- sdiv pi (r * L) ;;
           Ok (2.0 + cos q,
               vscale c
                 (Vector (- sin q * vx x) (- sin q * vy x) (- sin q * vz x))))
       else
         Err (FatalError initTestField_name
                "Unknown enumerant for initialisation.")) ;;
    field <- initBoundaryFields mesh type field ;;
    Ok (field, gfield)
  else
    Ok (tField, tgField).

(* ------------------------------------------------------------------ *)
(** ** The world: stored fields and the trace *)

Inductive anyField : Type :=
| ScalarField (f : volScalarField)
| VectorField (f : volVectorField).

Inductive value : Type :=
| NoValue
| WordValue (w : string)
| LabelValue (n : Z)
| ScalarValue (s : scalar)
| VectorValue (v : vector).

(** A [conservativeMeshToMesh] object, as its constructor receives it. *)
Record conservativeMeshToMesh : Type := MeshToMesh {
  srcMesh : fvMesh;
  tgtMesh : fvMesh;
  nThreads : label;
  forceRecalc : bool;
  writeAddr : bool
}.

Inductive event : Type :=
| InfoLine (text : string) (v : value)
| WriteField (f : anyField)
| InterpolateCall (m : conservativeMeshToMesh) (target source : anyField)
    (gradient : option anyField) (method : label).

(** The file of an [IOobject]: case, time instance, name. *)
Definition fileKey : Type := (string * string * string)%type.

Definition fileOf (o : IOobject) : fileKey :=
  (caseName (ioDb o), ioInstance o, ioName o).

Definition fileKey_eqb (a b : fileKey) : bool :=
  let '(a1, a2, a3) := a in
  let '(b1, b2, b3) := b in
  (String.eqb a1 b1 && String.eqb a2 b2 && String.eqb a3 b3)%bool.

Record world : Type := World {
  files : fileKey -> option anyField;
  trace : list event
}.

Definition M (A : Type) : Type := world -> Res (A * world).

Definition ret {A} (a : A) : M A := fun w => Ok (a, w).
Definition bindM {A B} (c : M A) (k : A -> M B) : M B :=
  fun w => match c w with
           | Ok (a, w') => k a w'
           | Err e => Err e
           end.
Definition lift {A} (c : Res A) : M A :=
  fun w => match c with
           | Ok a => Ok (a, w)
           | Err e => Err e
           end.

Declare Scope io_scope.
Delimit Scope io_scope with io.
Notation "x <- c ;; k" := (bindM c (fun x => k))
  (at level 61, c at next level, right associativity) : io_scope.
Notation "c ;; k" := (bindM c (fun _ => k))
  (at level 61, right associativity) : io_scope.

Definition emit (e : event) : M unit :=
  fun w => Ok (tt, World (files w) (trace w ++ [e])).

Definition info (text : string) (v : value) : M unit := emit (InfoLine text v).

Definition putFile (fl : fileKey -> option anyField) (o : IOobject)
  (f : anyField) : fileKey -> option anyField :=
  fun k => if fileKey_eqb k (fileOf o) then Some f else fl k.

Definition store (o : IOobject) (f : anyField) : M unit :=
  fun w => Ok (tt, World (putFile (files w) o f) (trace w)).

(** [IOobject::headerOk()]. *)
Definition headerOk (o : IOobject) : M bool :=
  fun w => Ok (match files w (fileOf o) with Some _ => true | None => false end,
               w).

Fixpoint forEach {A} (l : list A) (body : A -> M unit) : M unit :=
  match l with
  | [] => ret tt
  | a :: l' => (body a ;; forEach l' body)%io
  end.

(** [for (label i = from; i < to; i++)] with a body that does not assign [i]. *)
Fixpoint repeatM {St} (n : nat) (body : St -> M St) (s : St) : M St :=
  match n with
  | O => ret s
  | S n' => (s' <- body s ;; repeatM n' body s')%io
  end.

Definition forLabel {St} (from to : label) (body : St -> M St) (s : St) : M St :=
  repeatM (Z.to_nat (to - from)) body s.

(* ------------------------------------------------------------------ *)
(** ** The field types of the template [MapConservativeVolFields<Type>] *)

Class FieldType (T : Type) : Type := {
  typeName : string;
  zero : T;
  plus : T -> T -> T;
  minus : T -> T -> T;
  times : scalar -> T -> T;
  magT : T -> scalar;
  toValue : T -> value;
  toAny : GeometricField T -> anyField;
  ofAny : anyField -> option (GeometricField T)
}.

#[export] Instance scalarFieldType : FieldType scalar := {
  typeName := "volScalarField";
  zero := 0;
  plus := Rplus;
  minus := Rminus;
  times := Rmult;
  magT := mag;
  toValue := ScalarValue;
  toAny := ScalarField;
  ofAny := fun a => match a with ScalarField f => Some f | _ => None end
}.

#[export] Instance vectorFieldType : FieldType vector := {
  typeName := "volVectorField";
  zero := vzero;
  plus := vadd;
  minus := vsub;
  times := vscale;
  magT := vmag;
  toValue := VectorValue;
  toAny := VectorField;
  ofAny := fun a => match a with VectorField f => Some f | _ => None end
}.

(** [scalarField * Field<Type>], entry by entry. *)
Fixpoint fieldTimes {T} `{FieldType T} (v : list scalar) (f : list T) : list T :=
  match v, f with
  | a :: v', b :: f' => times a b :: fieldTimes v' f'
  | _, _ => []
  end.

(** [gSum]: [Sum = zero; forAll(f, i) Sum += f[i]]. *)
Definition gSum {T} `{FieldType T} (f : list T) : T :=
  fold_left plus f zero.

Definition write {T} `{FieldType T} (f : GeometricField T) : M unit :=
  (emit (WriteField (toAny f)) ;; store (io f) (toAny f))%io.

(** Reading constructor [GeometricField(io, mesh)]. *)
Definition readField {T} `{FieldType T} (o : IOobject) (mesh : fvMesh)
  : M (GeometricField T) :=
  fun w => match files w (fileOf o) with
           | Some a =>
               match ofAny a with
               | Some f =>
                   Ok (Field o (internalField f) (boundaryField f)
                         (patchFieldType f), w)
               | None => Err (FatalError "GeometricField::readField"
                                "wrong field class")
               end
           | None => Err (FatalError "GeometricField::readField"
                            "cannot open file")
           end.

Definition withIO {T} (o : IOobject) (f : GeometricField T) : GeometricField T :=
  Field o (internalField f) (boundaryField f) (patchFieldType f).

(** An entry of an [IOobjectList]: the object and the class in its header. *)
Record IOentry : Type := IOentry_ { headerClassName : string; entry : IOobject }.

Definition lookupClass (objects : list IOentry) (className : string)
  : list IOobject :=
  map entry (filter (fun e => String.eqb (headerClassName e) className) objects).

(* ------------------------------------------------------------------ *)
(** ** The remap driver *)

Section Driver.

Context {T : Type} `{FieldType T}.

(** [conservativeMeshToMesh::interpolate(target, source, method)], the
    mapper's in-place interpolation: the field it leaves in [target]. *)
Variable interpolateInto :
  conservativeMeshToMesh -> GeometricField T -> GeometricField T -> label ->
  GeometricField T.

Definition interpolate (m : conservativeMeshToMesh)
  (target source : GeometricField T) (method : label) : M (GeometricField T) :=
  (emit (InterpolateCall m (toAny target) (toAny source) None method) ;;
   ret (interpolateInto m target source method))%io.

(** Modelled from the spec: [conservativeMeshToMesh::interpolate(source,
    method)], the allocating overload of the mapper, is declared in
    conservativeMeshToMesh.H and is not part of this file.  The spec has
    it "construct a fresh zero field tagged do not read, and invoke the
    external mapper's interpolation to populate it from scratch". *)
Definition interpolateNew (m : conservativeMeshToMesh) (o : IOobject)
  (source : GeometricField T) (method : label) : M (GeometricField T) :=
  interpolate m (newField o (tgtMesh m) zero "calculated") source method.

Definition integral (mesh : fvMesh) (f : GeometricField T) : T :=
  gSum (fieldTimes (V mesh) (internalField f)).

(** The body of the loop of [MapConservativeVolFields], for the object
    [fieldIter]. *)
Definition mapField (meshToMeshInterp : conservativeMeshToMesh)
  (method : label) (fieldIter : IOobject) : M unit :=
  let meshSource := srcMesh meshToMeshInterp in
  let meshTarget := tgtMesh meshToMeshInterp in
  (info "    Interpolating " (WordValue (ioName fieldIter)) ;;
   fieldSource <- readField fieldIter meshSource ;;
   let intSource := gSum (fieldTimes (V meshSource) (internalField fieldSource)) in
   info "Integral source: " (toValue intSource) ;;
   let fieldTargetIOobject :=
     IOobject_ (ioName fieldIter) (timeName meshTarget) meshTarget
       MUST_READ AUTO_WRITE in
   ok <- headerOk fieldTargetIOobject ;;
   intTarget <-
     (if ok then
        fieldTarget <- readField fieldTargetIOobject meshTarget ;;
        fieldTarget <- interpolate meshToMeshInterp fieldTarget fieldSource method ;;
        let intTarget := gSum (fieldTimes (V meshTarget) (internalField fieldTarget)) in
        write fieldTarget ;;
        ret intTarget
      else
        let fieldTargetIOobject :=
          IOobject_ (ioName fieldTargetIOobject)
            (ioInstance fieldTargetIOobject) (ioDb fieldTargetIOobject)
            NO_READ (writeOpt fieldTargetIOobject) in
        tmpField <- interpolateNew meshToMeshInterp fieldTargetIOobject
                      fieldSource method ;;
        let fieldTarget := withIO fieldTargetIOobject tmpField in
        let intTarget := gSum (fieldTimes (V meshTarget) (internalField fieldTarget)) in
        write fieldTarget ;;
        ret intTarget) ;;
   info "Integral target: " (toValue intTarget) ;;
   info "mag(intError): " (ScalarValue (magT (minus intSource intTarget))))%io.

Definition MapConservativeVolFields (objects : list IOentry)
  (meshToMeshInterp : conservativeMeshToMesh) (method : label) : M unit :=
  let fieldClassName := typeName in
  let fields := lookupClass objects fieldClassName in
  forEach fields (mapField meshToMeshInterp method).

End Driver.

(* ------------------------------------------------------------------ *)
(** ** The error norms *)

(** [forAll(list, i) { ... }] with a body that updates local variables. *)
Fixpoint forAllAcc {A St} (body : nat -> A -> St -> Res St) (i : nat)
  (l : list A) (s : St) : Res St :=
  match l with
  | [] => Ok s
  | a :: l' =>
      s' <- body i a s ;;
      forAllAcc body (S i) l' s'
  end.

(** The [switch (type)] of [computeError].  It has no [default]: for a value
    outside the enumeration the variable keeps the value it had. *)
Definition switchExact (type : testType) (xC : vector) (exact : scalar)
  : Res scalar :=
  if (type =? CONSTANT)%Z then
    Ok constScalVal
  else if (type =? LINEAR)%Z then
    Ok (2.0 * vx xC + 3.0 * vy xC + vz xC)
  else if (type =? SINUSOID_2D)%Z then
    Ok (1.0 + sin (2.0 * pi * vx xC) * sin (2.0 * pi * vy xC))
  else if (type =? SINUSOID_3D)%Z then
    Ok (1.0 + sin (2.0 * pi * vx xC) * sin (2.0 * pi * vy xC)
              * sin (2.0 * pi * vz xC))
  else if (type =? COSINE_HILL_2D)%Z then
    let r := vmag (vsub xC hC) in
    q <- sdiv (pi * r) L ;;
    Ok (2.0 + cos q)
  else
    Ok exact.

(** The local variables of one loop of [computeError]: the sum of squared
    errors, the largest error, the exact value last computed, and the cells
    of [iError] written so far. *)
Record errorVars : Type := ErrorVars {
  sumError : scalar;
  maxError : scalar;
  exact : scalar;
  cellErrors : list scalar
}.

Definition sourceLoop (type : testType) (sCentres : list vector)
  (isF : list scalar) : Res errorVars :=
  forAllAcc (fun cellI isF_cellI s =>
      xC <- at_ sCentres cellI ;;
      sExact <- switchExact type xC (exact s) ;;
      Ok (ErrorVars (sumError s + magSqr (isF_cellI - sExact))
                    (Rmax (maxError s) (mag (isF_cellI - sExact)))
                    sExact
                    (cellErrors s)))
    0%nat isF (ErrorVars 0.0 0.0 0.0 []).

Definition targetLoop (type : testType) (tCentres : list vector)
  (itF : list scalar) : Res errorVars :=
  forAllAcc (fun cellI itF_cellI s =>
      xC <- at_ tCentres cellI ;;
      tExact <- switchExact type xC (exact s) ;;
      Ok (ErrorVars (sumError s + magSqr (itF_cellI - tExact))
                    (Rmax (maxError s) (mag (itF_cellI - tExact)))
                    tExact
                    (cellErrors s ++ [mag (itF_cellI - tExact)])))
    0%nat itF (ErrorVars 0.0 0.0 0.0 []).

Definition size {A} (l : list A) : scalar := INR (List.length l).

(** One block of the report that [computeError] prints. *)
Definition printNorms (title : string) (l2 linf dx : scalar) (n : nat) : M unit :=
  (info " ~~~~~~~~~~~~~~~~~ " NoValue ;;
   info title NoValue ;;
   info " ~~~~~~~~~~~~~~~~~ " NoValue ;;
   info " L2 error: " (ScalarValue l2) ;;
   info " Linf error: " (ScalarValue linf) ;;
   info " dx: " (ScalarValue dx) ;;
   info " dx2: " (ScalarValue (sqr dx)) ;;
   info " nCells: " (LabelValue (Z.of_nat n)))%io.

(** [computeError]; the cells of the local field [iError] are its result. *)
Definition computeError (fieldSource fieldTarget : volScalarField)
  (type : testType) : M (list scalar) :=
  let sCentres := cellCentres (fieldMesh fieldSource) in
  let tCentres := cellCentres (fieldMesh fieldTarget) in
  let isF := internalField fieldSource in
  let itF := internalField fieldTarget in
  (s <- lift (sourceLoop type sCentres isF) ;;
   t <- lift (targetLoop type tCentres itF) ;;
   sdx <- lift (r <- sdiv 1.0 (size isF) ;; Ok (cbrt r))%res ;;
   tdx <- lift (r <- sdiv 1.0 (size itF) ;; Ok (cbrt r))%res ;;
   sL2 <- lift (r <- sdiv (sumError s) (size isF) ;; Ok (sqrt r))%res ;;
   printNorms "      Source       " sL2 (maxError s) sdx (List.length isF) ;;
   tL2 <- lift (r <- sdiv (sumError t) (size itF) ;; Ok (sqrt r))%res ;;
   printNorms "      Target       " tL2 (maxError t) tdx (List.length itF) ;;
   ret (cellErrors t))%io.

(* ------------------------------------------------------------------ *)
(** ** The test routines *)

Section Tests.

(** [conservativeMeshToMesh::interpolate(target, source, gradSource,
    method)]: the field the mapper leaves in [target].  The source and its
    gradient are passed by const reference. *)
Variable interpolateGrad :
  conservativeMeshToMesh -> volScalarField -> volScalarField ->
  volVectorField -> label -> volScalarField.

Definition interpolateWithGrad (m : conservativeMeshToMesh)
  (target source : volScalarField) (gradSource : volVectorField)
  (method : label) : M volScalarField :=
  (emit (InterpolateCall m (ScalarField target) (ScalarField source)
           (Some (VectorField gradSource)) method) ;;
   ret (interpolateGrad m target source gradSource method))%io.

(** The body of the loop of [testCyclicRemap], on the two scalar fields. *)
Definition cycle (type : testType) (meshSource meshTarget : fvMesh)
  (meshSourceToTarget meshTargetToSource : conservativeMeshToMesh)
  (gfieldSource gfieldTarget : volVectorField) (method : label)
  (fields : volScalarField * volScalarField)
  : M (volScalarField * volScalarField) :=
  let '(fieldSource, fieldTarget) := fields in
  (fieldSource <- interpolateWithGrad meshTargetToSource
                    fieldSource fieldTarget gfieldTarget method ;;
   fieldTarget <- lift (initBoundaryFields meshTarget type fieldTarget) ;;
   fieldSource <- lift (initBoundaryFields meshSource type fieldSource) ;;
   fieldTarget <- interpolateWithGrad meshSourceToTarget
                    fieldTarget fieldSource gfieldSource method ;;
   fieldTarget <- lift (initBoundaryFields meshTarget type fieldTarget) ;;
   fieldSource <- lift (initBoundaryFields meshSource type fieldSource) ;;
   ret (fieldSource, fieldTarget))%io.

Definition testCyclicRemap (nCycles : label) (type : testType)
  (meshSource meshTarget : fvMesh) (method nThreads : label)
  (forceRecalc writeAddr : bool) : M unit :=
  (sg <- lift (initTestField meshSource type true) ;;
   let fieldSource := fst sg in
   let gfieldSource := snd sg in
   let intSource := gSum (fieldTimes (V meshSource) (internalField fieldSource)) in
   write fieldSource ;;
   write gfieldSource ;;
   tg <- lift (initTestField meshTarget type true) ;;
   let fieldTarget := fst tg in
   let gfieldTarget := snd tg in
   let meshSourceToTarget :=
     MeshToMesh meshSource meshTarget nThreads forceRecalc writeAddr in
   let meshTargetToSource :=
     MeshToMesh meshTarget meshSource nThreads forceRecalc writeAddr in
   info " Remapping for " (LabelValue nCycles) ;;
   info " cycles..." NoValue ;;
   fieldTarget <- interpolateWithGrad meshSourceToTarget
                    fieldTarget fieldSource gfieldSource method ;;
   fieldTarget <- lift (initBoundaryFields meshTarget type fieldTarget) ;;
   fieldSource <- lift (initBoundaryFields meshSource type fieldSource) ;;
   fields <- forLabel 1%Z nCycles
               (cycle type meshSource meshTarget meshSourceToTarget
                  meshTargetToSource gfieldSource gfieldTarget method)
               (fieldSource, fieldTarget) ;;
   let fieldSource := fst fields in
   let fieldTarget := snd fields in
   write fieldTarget ;;
   _ <- computeError fieldSource fieldTarget type ;;
   info " Done." NoValue ;;
   info "Integral source (before): " (ScalarValue intSource) ;;
   let intSourceAfter := gSum (fieldTimes (V meshSource) (internalField fieldSource)) in
   let intTarget := gSum (fieldTimes (V meshTarget) (internalField fieldTarget)) in
   info "Integral source (after): " (ScalarValue intSourceAfter) ;;
   info "Integral target: " (ScalarValue intTarget) ;;
   info "mag(intError): " (ScalarValue (mag (intSource - intTarget))))%io.

Definition testMappingError (type : testType)
  (meshSource meshTarget : fvMesh) (method nThreads : label)
  (forceRecalc writeAddr : bool) : M (list scalar) :=
  (sg <- lift (initTestField meshSource type true) ;;
   let fieldSource := fst sg in
   let gfieldSource := snd sg in
   tg <- lift (initTestField meshTarget type false) ;;
   let fieldTarget := fst tg in
   let meshToMeshInterp :=
     MeshToMesh meshSource meshTarget nThreads forceRecalc writeAddr in
   fieldTarget <- interpolateWithGrad meshToMeshInterp
                    fieldTarget fieldSource gfieldSource method ;;
   computeError fieldSource fieldTarget type)%io.

End Tests.

(* ------------------------------------------------------------------ *)
(** ** The time index *)

(** An [instant] of an [instantList]: a time value and the name of its
    directory. *)
Record instant : Type := Instant { instantValue : scalar; instantName : string }.

Section TimeIndex.

(** [Foam::GREAT], a constant of the library. *)
Variable GREAT : scalar.

(** The loop of [getTimeIndex] from entry [timeIndex] on, with the values
    its two local variables hold there. *)
Fixpoint getTimeIndexFrom (times : list instant) (t : scalar) (timeIndex : nat)
  (nearestIndex : Z) (nearestDiff : scalar) : Z :=
  match times with
  | [] => nearestIndex
  | time :: times' =>
      if String.eqb (instantName time) "constant" then
        getTimeIndexFrom times' t (S timeIndex) nearestIndex nearestDiff
      else
        let diff := Rabs (instantValue time - t) in
        if Rlt_dec diff nearestDiff then
          getTimeIndexFrom times' t (S timeIndex) (Z.of_nat timeIndex) diff
        else
          getTimeIndexFrom times' t (S timeIndex) nearestIndex nearestDiff
  end.

Definition getTimeIndex (times : list instant) (t : scalar) : Z :=
  getTimeIndexFrom times t 0%nat (-1)%Z GREAT.

End TimeIndex.

(* ------------------------------------------------------------------ *)
(** ** The production mapping and the entry point *)

From Stdlib Require DecimalString.

(** A [label] as [Info<<] and [FatalError<<] print it. *)
Definition printLabel (n : label) : string :=
  DecimalString.NilZero.string_of_int (Z.to_int n).

Section Application.

(** The mapper, for scalar and for vector fields and with a gradient. *)
Variable interpolateScalar :
  conservativeMeshToMesh -> volScalarField -> volScalarField -> label ->
  volScalarField.
Variable interpolateVector :
  conservativeMeshToMesh -> volVectorField -> volVectorField -> label ->
  volVectorField.
Variable interpolateGrad :
  conservativeMeshToMesh -> volScalarField -> volScalarField ->
  volVectorField -> label -> volScalarField.

(** The constructor [IOobjectList(mesh, timeName)]: the objects found in the
    time directory of the mesh. *)
Variable objectsOf :
  (fileKey -> option anyField) -> fvMesh -> string -> list IOentry.

(** The values of the enumeration of [conservativeMeshToMesh]. *)
Variables CONSERVATIVE INVERSE_DISTANCE CONSERVATIVE_FIRST_ORDER : label.

(** [polyMesh::nGeometricD()]. *)
Variable nGeometricD : fvMesh -> label.

Definition mapConservativeMesh (meshSource meshTarget : fvMesh)
  (method nThreads : label) (forceRecalc writeAddr : bool) : M unit :=
  let meshToMeshInterp :=
    MeshToMesh meshSource meshTarget nThreads forceRecalc writeAddr in
  (info "Conservatively creating and mapping fields for time "
     (WordValue (timeName meshSource)) ;;
   objects <- (fun w => Ok (objectsOf (files w) meshSource (timeName meshSource), w)) ;;
   MapConservativeVolFields interpolateScalar objects meshToMeshInterp method ;;
   MapConservativeVolFields interpolateVector objects meshToMeshInterp method)%io.

(** [main], from the two meshes on: the options [method], [nThreads],
    [forceRecalc], [writeAddr] and [testOnly] are those that the included
    files set up, and the meshes are those read from the two cases. *)
Definition main (method nThreads : label)
  (forceRecalc writeAddr testOnly : bool) (meshSource meshTarget : fvMesh)
  : M Z :=
  (info "Source mesh size: " (LabelValue (Z.of_nat (nCells meshSource))) ;;
   info "Target mesh size: " (LabelValue (Z.of_nat (nCells meshTarget))) ;;
   (if (method =? CONSERVATIVE)%Z then
      info "Using method: CONSERVATIVE" NoValue
    else if (method =? INVERSE_DISTANCE)%Z then
      info "Using method: INVERSE_DISTANCE" NoValue
    else if (method =? CONSERVATIVE_FIRST_ORDER)%Z then
      info "Using method: CONSERVATIVE_FIRST_ORDER" NoValue
    else
      lift (Err (FatalError "mapConservativeFields"
                   ("unknown interpolation scheme " ++ printLabel method)))) ;;
   (if testOnly then
      _ <- testMappingError interpolateGrad LINEAR meshSource meshTarget
             method nThreads forceRecalc writeAddr ;;
      if (nGeometricD meshSource =? 2)%Z then
        testCyclicRemap interpolateGrad 250%Z COSINE_HILL_2D meshSource
          meshTarget method nThreads forceRecalc writeAddr
      else
        ret tt
    else
      mapConservativeMesh meshSource meshTarget method nThreads forceRecalc
        writeAddr) ;;
   info "End" NoValue ;;
   ret 0%Z)%io.

End Application.

(* ------------------------------------------------------------------ *)
(** ** Reference definitions and example data *)

(** The sum of [g 0 .. g (n-1)], in index order. *)
Fixpoint sumCells (n : nat) (g : nat -> R) : R :=
  match n with
  | O => 0
  | S k => sumCells k g + g k
  end.


(** A mesh of the unit cube cut into two cells, with one patch of two faces. *)
Definition twoCells : fvMesh :=
  FvMesh "source" "0"
    [Cell 0.5 (Vector 0.25 0.5 0.5); Cell 0.5 (Vector 0.75 0.5 0.5)]
    [[Vector 0 0.5 0.5; Vector 1 0.5 0.5]].

(** The cube [-1.5, 1.5]^3 cut into three slabs; the middle cell is centred
    at the origin. *)
Definition threeCells : fvMesh :=
  FvMesh "target" "0"
    [Cell 9 (Vector (-1) 0 0); Cell 9 (Vector 0 0 0); Cell 9 (Vector 1 0 0)]
    [[Vector (-1.5) 0 0]; [Vector 1.5 0 0]].

Definition alphaOn (mesh : fvMesh) (values : list scalar)
  (boundary : list (list scalar)) : volScalarField :=
  Field (IOobject_ "alpha" (timeName mesh) mesh NO_READ NO_WRITE)
    values boundary "fixedValue".

(** The values of the enumeration [testType]. *)
Definition validType (type : testType) : Prop := (0 <= type <= 4)%Z.

(** The analytic test functions, as the specification tabulates them:
    the value [f(x)] of each kind. *)
Definition analyticValue (type : testType) (x : vector) : scalar :=
  if (type =? CONSTANT)%Z then constScalVal
  else if (type =? LINEAR)%Z then 2 * vx x + 3 * vy x + vz x
  else if (type =? SINUSOID_2D)%Z then
    1 + sin (2 * PI * vx x) * sin (2 * PI * vy x)
  else if (type =? SINUSOID_3D)%Z then
    1 + sin (2 * PI * vx x) * sin (2 * PI * vy x) * sin (2 * PI * vz x)
  else if (type =? COSINE_HILL_2D)%Z then
    2 + cos (PI * vmag (vsub x hC) / (sqrt 2 / 2))
  else 0.

(** A field that has one value per cell and per boundary face of [mesh]. *)
Definition onMesh {T} (mesh : fvMesh) (f : GeometricField T) : Prop :=
  fieldMesh f = mesh
  /\ List.length (internalField f) = nCells mesh
  /\ map (@List.length T) (boundaryField f)
     = map (@List.length vector) (patchFaceCentres mesh).

(** The largest of [0, g 0 .. g (n-1)]. *)
Fixpoint maxCells (n : nat) (g : nat -> R) : R :=
  match n with
  | O => 0
  | S k => Rmax (maxCells k g) (g k)
  end.

(** The lines of one block of the error report. *)
Definition normsLines (title : string) (l2 linf dx : scalar) (n : nat)
  : list event :=
  [InfoLine " ~~~~~~~~~~~~~~~~~ " NoValue;
   InfoLine title NoValue;
   InfoLine " ~~~~~~~~~~~~~~~~~ " NoValue;
   InfoLine " L2 error: " (ScalarValue l2);
   InfoLine " Linf error: " (ScalarValue linf);
   InfoLine " dx: " (ScalarValue dx);
   InfoLine " dx2: " (ScalarValue (dx * dx));
   InfoLine " nCells: " (LabelValue (Z.of_nat n))].

(** The monadic map: [f] on every entry, in order, up to the first fault. *)
Fixpoint mapR {X B} (f : X -> Res B) (xs : list X) : Res (list B) :=
  match xs with
  | [] => Ok []
  | x :: xs' =>
      y <- f x ;;
      ys <- mapR f xs' ;;
      Ok (y :: ys)
  end.

(** The analytic test functions, as the specification tabulates them:
    the gradient of each kind. *)
Definition analyticGradient (type : testType) (x : vector) : vector :=
  if (type =? CONSTANT)%Z then Vector 0 0 0
  else if (type =? LINEAR)%Z then Vector 2 3 1
  else if (type =? SINUSOID_2D)%Z then
    vscale (2 * PI)
      (Vector (cos (2 * PI * vx x) * sin (2 * PI * vy x))
              (sin (2 * PI * vx x) * cos (2 * PI * vy x))
              0)
  else if (type =? SINUSOID_3D)%Z then
    vscale (2 * PI)
      (Vector
         (cos (2 * PI * vx x) * sin (2 * PI * vy x) * sin (2 * PI * vz x))
         (sin (2 * PI * vx x) * cos (2 * PI * vy x) * sin (2 * PI * vz x))
         (sin (2 * PI * vx x) * sin (2 * PI * vy x) * cos (2 * PI * vz x)))
  else if (type =? COSINE_HILL_2D)%Z then
    let r := vmag (vsub x hC) in
    vscale (PI / (r * (sqrt 2 / 2)))
      (Vector (- sin (PI * r / (sqrt 2 / 2)) * vx x)
              (- sin (PI * r / (sqrt 2 / 2)) * vy x)
              (- sin (PI * r / (sqrt 2 / 2)) * vz x))
  else vzero.

(** The scalar test field with the analytic value at every cell centre and
    at every boundary face centre. *)
Definition analyticField (mesh : fvMesh) (type : testType) : volScalarField :=
  Field (IOobject_ "alpha" (timeName mesh) mesh NO_READ NO_WRITE)
    (map (analyticValue type) (cellCentres mesh))
    (map (map (analyticValue type)) (patchFaceCentres mesh))
    "fixedValue".

(** The gradient test field with the analytic gradient at every cell centre
    and zero on every boundary face. *)
Definition analyticGradField (mesh : fvMesh) (type : testType) : volVectorField :=
  Field (IOobject_ "grad(alpha)" (timeName mesh) mesh NO_READ NO_WRITE)
    (map (analyticGradient type) (cellCentres mesh))
    (map (fun patch => repeat vzero (List.length patch)) (patchFaceCentres mesh))
    "zeroGradient".

(** No cell of the mesh is centred at the hill centre, when the kind is the
    cosine hill. *)
Definition regular (mesh : fvMesh) (type : testType) : Prop :=
  type = COSINE_HILL_2D ->
  Forall (fun x => vmag (vsub x hC) <> 0) (cellCentres mesh).

(** The quantities of the error report, as the specification words them:
    the error of cell [i], the root of the mean squared error, the largest
    absolute error, and the effective spacing. *)
Definition cellError (type : testType) (mesh : fvMesh) (F : list scalar)
  (i : nat) : scalar :=
  nth i F 0 - analyticValue type (nth i (cellCentres mesh) vzero).

Definition l2Error (type : testType) (mesh : fvMesh) (F : list scalar) : scalar :=
  sqrt (sumCells (List.length F) (fun i => cellError type mesh F i
                                           * cellError type mesh F i)
        / INR (List.length F)).

Definition linfError (type : testType) (mesh : fvMesh) (F : list scalar) : scalar :=
  maxCells (List.length F) (fun i => Rabs (cellError type mesh F i)).

Definition effectiveSpacing (n : nat) : scalar := cbrt (1 / INR n).

Definition perCellAbsError (type : testType) (mesh : fvMesh) (F : list scalar)
  : list scalar :=
  map (fun i => Rabs (cellError type mesh F i)) (seq 0 (List.length F)).

Definition emptyWorld : world := World (fun _ => None) [].

(** A sample mapper for concrete runs: it writes the first cell value of the
    source into every cell of the target, and leaves the rest of the target
    as it is. *)
Definition firstCellMapper (m : conservativeMeshToMesh)
  (target source : volScalarField) (method : label) : volScalarField :=
  setInternal target
    (map (fun _ => nth 0 (internalField source) 0) (internalField target)).

Definition firstCellMapperGrad (m : conservativeMeshToMesh)
  (target source : volScalarField) (gradSource : volVectorField)
  (method : label) : volScalarField :=
  firstCellMapper m target source method.

(** Two worlds for concrete runs of the driver: the source case holds the
    field "alpha"; the target case holds nothing, or holds "alpha" too. *)
Definition sourceOnly : world :=
  World (fun k =>
           if fileKey_eqb k ("source", "0", "alpha")
           then Some (ScalarField (alphaOn twoCells [3; 5] [[7; 7]]))
           else None)
        [].

Definition sourceAndTarget : world :=
  World (fun k =>
           if fileKey_eqb k ("source", "0", "alpha")
           then Some (ScalarField (alphaOn twoCells [3; 5] [[7; 7]]))
           else if fileKey_eqb k ("target", "0", "alpha")
           then Some (ScalarField (alphaOn threeCells [1; 1; 1] [[0]; [0]]))
           else None)
        [].

(** The field [f] with the analytic value on every boundary face of [mesh]:
    what [initBoundaryFields] leaves. *)
Definition reassert (mesh : fvMesh) (type : testType) (f : volScalarField)
  : volScalarField :=
  setBoundary f (map (map (analyticValue type)) (patchFaceCentres mesh)).

Section CyclicReference.

Variable interpolateGrad :
  conservativeMeshToMesh -> volScalarField -> volScalarField ->
  volVectorField -> label -> volScalarField.

Variables (type : testType) (meshSource meshTarget : fvMesh).
Variables (sourceToTarget targetToSource : conservativeMeshToMesh).
Variables (gfieldSource gfieldTarget : volVectorField) (method : label).

(** The source and target fields after one pass of the loop of
    [testCyclicRemap], and the two calls on the mapper it makes. *)
Definition cycleFields (fields : volScalarField * volScalarField)
  : volScalarField * volScalarField :=
  let '(fieldSource, fieldTarget) := fields in
  let fieldSource1 :=
    interpolateGrad targetToSource fieldSource fieldTarget gfieldTarget method in
  let fieldTarget1 := reassert meshTarget type fieldTarget in
  let fieldSource2 := reassert meshSource type fieldSource1 in
  let fieldTarget2 :=
    interpolateGrad sourceToTarget fieldTarget1 fieldSource2 gfieldSource method in
  (reassert meshSource type fieldSource2, reassert meshTarget type fieldTarget2).

Definition cycleCalls (fields : volScalarField * volScalarField) : list event :=
  let '(fieldSource, fieldTarget) := fields in
  let fieldSource1 :=
    interpolateGrad targetToSource fieldSource fieldTarget gfieldTarget method in
  [InterpolateCall targetToSource (ScalarField fieldSource)
     (ScalarField fieldTarget) (Some (VectorField gfieldTarget)) method;
   InterpolateCall sourceToTarget
     (ScalarField (reassert meshTarget type fieldTarget))
     (ScalarField (reassert meshSource type fieldSource1))
     (Some (VectorField gfieldSource)) method].

Fixpoint cyclesFields (n : nat) (fields : volScalarField * volScalarField)
  : volScalarField * volScalarField :=
  match n with
  | O => fields
  | S n' => cyclesFields n' (cycleFields fields)
  end.

Fixpoint cyclesCalls (n : nat) (fields : volScalarField * volScalarField)
  : list event :=
  match n with
  | O => []
  | S n' => (cycleCalls fields ++ cyclesCalls n' (cycleFields fields))%list
  end.

(** An event that, if it is a call on the mapper, is a forward call with
    the source gradient field or a backward call with the target gradient
    field. *)
Definition usesGradients (e : event) : Prop :=
  match e with
  | InterpolateCall m _ _ g _ =>
      (m = sourceToTarget /\ g = Some (VectorField gfieldSource))
      \/ (m = targetToSource /\ g = Some (VectorField gfieldTarget))
  | _ => True
  end.

End CyclicReference.

Definition isCall (e : event) : bool :=
  match e with
  | InterpolateCall _ _ _ _ _ => true
  | _ => false
  end.

(** What [testCyclicRemap] prints and writes once the cycling is over: the
    final target field, the error report of the final fields, and the
    integrals with the conservation drift. *)
Definition cyclicEpilogue (type : testType) (meshSource meshTarget : fvMesh)
  (initialSource finalSource finalTarget : volScalarField) : list event :=
  ([WriteField (ScalarField finalTarget)]
   ++ normsLines "      Source       "
        (l2Error type meshSource (internalField finalSource))
        (linfError type meshSource (internalField finalSource))
        (effectiveSpacing (nCells meshSource)) (nCells meshSource)
   ++ normsLines "      Target       "
        (l2Error type meshTarget (internalField finalTarget))
        (linfError type meshTarget (internalField finalTarget))
        (effectiveSpacing (nCells meshTarget)) (nCells meshTarget)
   ++ [InfoLine " Done." NoValue;
       InfoLine "Integral source (before): "
         (ScalarValue (integral meshSource initialSource));
       InfoLine "Integral source (after): "
         (ScalarValue (integral meshSource finalSource));
       InfoLine "Integral target: "
         (ScalarValue (integral meshTarget finalTarget));
       InfoLine "mag(intError): "
         (ScalarValue (Rabs (integral meshSource initialSource
                             - integral meshTarget finalTarget)))])%list.

(** The distance of an instant to the time [t], and the instants that
    [getTimeIndex] considers. *)
Definition timeDiff (time : instant) (t : scalar) : scalar :=
  Rabs (instantValue time - t).

Definition isTime (time : instant) : Prop := instantName time <> "constant".

(** What holds of the two local variables of [getTimeIndex] once the
    entries [seen] have been visited. *)
Definition nearestSoFar (GREAT : scalar) (t : scalar) (seen : list instant)
  (nearestIndex : Z) (nearestDiff : scalar) : Prop :=
  (nearestIndex = (-1)%Z /\ nearestDiff = GREAT
   /\ forall x, In x seen -> isTime x -> GREAT <= timeDiff x t)
  \/ (exists i time,
        nearestIndex = Z.of_nat i
        /\ nth_error seen i = Some time
        /\ isTime time
        /\ nearestDiff = timeDiff time t
        /\ nearestDiff < GREAT
        /\ forall j x, nth_error seen j = Some x -> isTime x ->
             nearestDiff <= timeDiff x t
             /\ ((j < i)%nat -> nearestDiff < timeDiff x t)).

Definition sampleTimes : list instant :=
  [Instant 0 "constant"; Instant 0 "0"; Instant 0.5 "0.5"; Instant 1 "1"].

(** The norms of a list of values measured against zero. *)
Definition rootMeanSquare (F : list scalar) : scalar :=
  sqrt (sumCells (List.length F) (fun i => nth i F 0 * nth i F 0)
        / INR (List.length F)).

Definition largestMagnitude (F : list scalar) : scalar :=
  maxCells (List.length F) (fun i => Rabs (nth i F 0)).

Definition isWrite (e : event) : bool :=
  match e with
  | WriteField _ => true
  | _ => false
  end.

(** Sample collaborators for concrete runs of the application: a mapper of
    vector fields that leaves the target as it is, a time directory that
    holds one tensor field, and the enumeration of the methods numbered from
    0. *)
Definition keepTargetMapper (m : conservativeMeshToMesh)
  (target source : volVectorField) (method : label) : volVectorField := target.

Definition tensorOnly (fl : fileKey -> option anyField) (mesh : fvMesh)
  (time : string) : list IOentry :=
  [IOentry_ "volTensorField" (IOobject_ "sigma" time mesh MUST_READ NO_WRITE)].

(* ================================================================== *)
(** * Properties *)

(** ** Basic facts *)

Lemma dec_0 : 0.0 = 0. Proof. lra. Qed.
Lemma dec_1 : 1.0 = 1. Proof. lra. Qed.
Lemma dec_2 : 2.0 = 2. Proof. lra. Qed.
Lemma dec_3 : 3.0 = 3. Proof. lra. Qed.

(** Writes the literals [0.0], [1.0], [2.0], [3.0] of the source as integers. *)
Ltac decimals := rewrite ?dec_0, ?dec_1, ?dec_2, ?dec_3.

Lemma L_neq_0 : L <> 0.
Proof.
  unfold L. assert (0 < sqrt 2.0) by (apply sqrt_lt_R0; lra). lra.
Qed.

Lemma L_eq : L = sqrt 2 / 2.
Proof. unfold L. replace 2.0 with 2 by lra. lra. Qed.

Lemma sdiv_ok (a b : scalar) : b <> 0 -> sdiv a b = Ok (a / b).
Proof. intros Hb. unfold sdiv. destruct (Req_dec_T b 0); [contradiction|reflexivity]. Qed.

Lemma sdiv_zero (a : scalar) : sdiv a 0 = Err FloatingPointException.
Proof. unfold sdiv. destruct (Req_dec_T 0 0); [reflexivity|congruence]. Qed.

Lemma sdiv_Ok_inv (a b r : scalar) : sdiv a b = Ok r -> b <> 0 /\ r = a / b.
Proof.
  unfold sdiv. destruct (Req_dec_T b 0); [discriminate|].
  intros E; injection E as <-. auto.
Qed.

Lemma validType_cases (type : testType) :
  validType type ->
  type = CONSTANT \/ type = LINEAR \/ type = SINUSOID_2D
  \/ type = SINUSOID_3D \/ type = COSINE_HILL_2D.
Proof.
  unfold validType, CONSTANT, LINEAR, SINUSOID_2D, SINUSOID_3D, COSINE_HILL_2D.
  lia.
Qed.

Ltac each_type H :=
  destruct (validType_cases H) as [->|[->|[->|[->| ->]]]].

(** On the values of the enumeration the [switch] of [computeError] yields
    the tabulated analytic value, whatever the variable held before. *)
Lemma switchExact_valid (type : testType) (x : vector) (e : scalar) :
  validType type -> switchExact type x e = Ok (analyticValue type x).
Proof.
  intros Hv. each_type Hv; unfold switchExact, analyticValue; simpl;
    unfold constScalVal, pi; decimals; try reflexivity.
  rewrite sdiv_ok by apply L_neq_0. simpl. rewrite L_eq. reflexivity.
Qed.

(** ** Index loops are monadic maps *)

Lemma skipn_cons_nth {X} (full : list X) (k : nat) (x : X) (xs : list X) :
  skipn k full = x :: xs -> nth_error full k = Some x /\ skipn (S k) full = xs.
Proof.
  revert k; induction full as [|a full IH]; intros [|k] E; simpl in *;
    try discriminate.
  - injection E as -> ->. auto.
  - destruct (IH k E) as [E1 E2]. split; [exact E1|exact E2].
Qed.

Lemma forAllFrom_ext {A B} (body body' : nat -> A -> Res B) (l : list A) :
  (forall i a, body i a = body' i a) ->
  forall k, forAllFrom body k l = forAllFrom body' k l.
Proof.
  intros E. induction l as [|a l IH]; intros k; simpl; [reflexivity|].
  rewrite E. destruct (body' k a); simpl; [|reflexivity].
  now rewrite IH.
Qed.

(** A loop over the indices of [l] that reads entry [i] of another list and
    applies [f] to it is the monadic map of [f], when the two lists have the
    same length. *)
Lemma forAllFrom_lookup {A X B} (f : X -> Res B) (full : list X) (l : list A) :
  forall k xs,
    skipn k full = xs ->
    List.length l = List.length xs ->
    forAllFrom (fun i _ => x <- at_ full i ;; f x) k l = mapR f xs.
Proof.
  induction l as [|a l IH]; intros k [|x xs] Hs Hl; simpl in *;
    try discriminate; [reflexivity|].
  destruct (skipn_cons_nth _ _ Hs) as [Hn Hs'].
  unfold at_ at 1. rewrite Hn. simpl.
  destruct (f x); simpl; [|reflexivity].
  rewrite (IH (S k) xs Hs') by lia. reflexivity.
Qed.

Lemma mapR_total {X B} (f : X -> Res B) (g : X -> B) (xs : list X) :
  (forall x, In x xs -> f x = Ok (g x)) -> mapR f xs = Ok (map g xs).
Proof.
  induction xs as [|x xs IH]; intros E; simpl; [reflexivity|].
  rewrite (E x) by (left; reflexivity). simpl.
  rewrite IH by (intros; apply E; right; assumption). reflexivity.
Qed.

Lemma mapR_Ok_inv {X B} (f : X -> Res B) (xs : list X) (ys : list B) :
  mapR f xs = Ok ys -> Forall2 (fun x y => f x = Ok y) xs ys.
Proof.
  revert ys; induction xs as [|x xs IH]; intros ys E; simpl in E.
  - injection E as <-. constructor.
  - destruct (f x) as [y|] eqn:Ex; simpl in E; [|discriminate].
    destruct (mapR f xs) as [ys'|] eqn:Exs; simpl in E; [|discriminate].
    injection E as <-. constructor; [exact Ex|]. apply IH. reflexivity.
Qed.

(** If every entry either succeeds or raises [e], and one raises [e], the
    map raises [e]. *)
Lemma mapR_fault {X B} (f : X -> Res B) (e : fault) (xs : list X) :
  (forall x, In x xs -> f x = Err e \/ exists y, f x = Ok y) ->
  (exists x, In x xs /\ f x = Err e) ->
  mapR f xs = Err e.
Proof.
  induction xs as [|x xs IH]; intros Hall [x0 [Hin He]]; simpl in *;
    [contradiction|].
  destruct (Hall x (or_introl eq_refl)) as [Ex|[y Ex]]; rewrite Ex; simpl;
    [reflexivity|].
  rewrite IH; [reflexivity| |].
  - intros z Hz. apply Hall. right; exact Hz.
  - destruct Hin as [->|Hin]; [congruence|]. exists x0. auto.
Qed.

(** The two nested loops over the patches and faces of a field whose
    boundary has the shape of [patches]. *)
Lemma forAllFrom_patches {B} (f : vector -> Res B) (full : list (list vector))
  (fb : list (list scalar)) :
  forall k patches,
    skipn k full = patches ->
    map (@List.length scalar) fb = map (@List.length vector) patches ->
    forAllFrom (fun patchI patch =>
        forAllFrom (fun faceI _ =>
            x <- (patch' <- at_ full patchI ;; at_ patch' faceI) ;; f x)
          0%nat patch)
      k fb
    = mapR (mapR f) patches.
Proof.
  induction fb as [|p fb IH]; intros k [|q patches] Hs Hl; simpl in *;
    try discriminate; [reflexivity|].
  injection Hl as Hl1 Hl2.
  destruct (skipn_cons_nth _ _ Hs) as [Hn Hs'].
  rewrite (@forAllFrom_ext _ _ _ (fun faceI _ => x <- at_ q faceI ;; f x)).
  2:{ intros i a. unfold at_ at 1. rewrite Hn. reflexivity. }
  rewrite (@forAllFrom_lookup _ _ _ f q p 0%nat q) by (auto using skipn_O).
  destruct (mapR f q); simpl; [|reflexivity].
  rewrite (IH (S k) patches Hs' Hl2). reflexivity.
Qed.

(** ** The boundary loops *)

Lemma forAllFrom_const {A B} (c : B) (l : list A) :
  forall k, forAllFrom (fun _ _ => Ok c) k l = Ok (map (fun _ => c) l).
Proof.
  induction l as [|a l IH]; intros k; simpl; [reflexivity|].
  now rewrite IH.
Qed.

Lemma map_const_shape {A B C0} (c : C0) (l : list (list A)) (l' : list (list B)) :
  map (@List.length A) l = map (@List.length B) l' ->
  map (map (fun _ => c)) l = map (map (fun _ => c)) l'.
Proof.
  revert l'; induction l as [|p l IH]; intros [|q l'] E; simpl in *;
    try discriminate; [reflexivity|].
  injection E as E1 E2. f_equal; [|auto].
  clear - E1. revert q E1; induction p as [|a p IHp]; intros [|b q] E1;
    simpl in *; try discriminate; [reflexivity|].
  f_equal. apply IHp. lia.
Qed.

Lemma forAllBoundaryFaces_const (field : volScalarField) (c : scalar)
  (patches : list (list vector)) :
  map (@List.length scalar) (boundaryField field)
  = map (@List.length vector) patches ->
  forAllBoundaryFaces field (fun _ _ => Ok c)
  = Ok (setBoundary field (map (map (fun _ => c)) patches)).
Proof.
  intros Hs. unfold forAllBoundaryFaces, forAll.
  assert (E : forall (fb : list (list scalar)) k,
             forAllFrom (fun (_ : nat) (patch : list scalar) =>
                 forAllFrom (fun (_ : nat) (_ : scalar) => Ok c) 0%nat patch) k fb
             = Ok (map (map (fun _ => c)) fb)).
  { induction fb as [|p fb IH]; intros k; simpl; [reflexivity|].
    rewrite forAllFrom_const. simpl. now rewrite IH. }
  rewrite E. simpl. now rewrite (map_const_shape c _ _ Hs).
Qed.

Lemma forAllBoundaryFaces_lookup (mesh : fvMesh) (field : volScalarField)
  (F : vector -> Res scalar) (g : vector -> scalar) :
  map (@List.length scalar) (boundaryField field)
  = map (@List.length vector) (patchFaceCentres mesh) ->
  (forall x, F x = Ok (g x)) ->
  forAllBoundaryFaces field
    (fun patchI faceI => x <- boundaryAt (C mesh) patchI faceI ;; F x)
  = Ok (setBoundary field (map (map g) (patchFaceCentres mesh))).
Proof.
  intros Hs HF. unfold forAllBoundaryFaces, forAll, boundaryAt. simpl.
  rewrite (@forAllFrom_patches _ F (patchFaceCentres mesh)
             (boundaryField field) 0%nat (patchFaceCentres mesh))
    by (auto using skipn_O).
  rewrite (@mapR_total _ _ (mapR F) (map g)); [reflexivity|].
  intros p _. apply mapR_total. intros x _. apply HF.
Qed.

(** On a value of the enumeration, and a field with the boundary shape of
    the mesh, [initBoundaryFields] completes: every face of every patch holds
    the analytic value at its face centre; the interior is untouched. *)
Lemma initBoundaryFields_valid (mesh : fvMesh) (type : testType)
  (field : volScalarField) :
  validType type ->
  map (@List.length scalar) (boundaryField field)
  = map (@List.length vector) (patchFaceCentres mesh) ->
  initBoundaryFields mesh type field
  = Ok (setBoundary field
          (map (map (analyticValue type)) (patchFaceCentres mesh))).
Proof.
  intros Hv Hs. each_type Hv; unfold initBoundaryFields; simpl.
  - rewrite (forAllBoundaryFaces_const _ constScalVal _ Hs). reflexivity.
  - rewrite (@forAllBoundaryFaces_lookup mesh field _ (analyticValue LINEAR) Hs);
      [reflexivity|].
    intros x. unfold analyticValue; simpl. decimals. reflexivity.
  - rewrite (@forAllBoundaryFaces_lookup mesh field _ (analyticValue SINUSOID_2D) Hs);
      [reflexivity|].
    intros x. unfold analyticValue, pi; simpl. decimals. reflexivity.
  - rewrite (@forAllBoundaryFaces_lookup mesh field _ (analyticValue SINUSOID_3D) Hs);
      [reflexivity|].
    intros x. unfold analyticValue, pi; simpl. decimals. reflexivity.
  - rewrite (@forAllBoundaryFaces_lookup mesh field _ (analyticValue COSINE_HILL_2D) Hs);
      [reflexivity|].
    intros x. unfold analyticValue, pi; simpl.
    rewrite sdiv_ok by apply L_neq_0. simpl. rewrite L_eq. decimals.
    reflexivity.
Qed.

Lemma unknown_type_tests (type : testType) :
  ~ validType type ->
  (type =? CONSTANT)%Z = false /\ (type =? LINEAR)%Z = false
  /\ (type =? SINUSOID_2D)%Z = false /\ (type =? SINUSOID_3D)%Z = false
  /\ (type =? COSINE_HILL_2D)%Z = false.
Proof.
  unfold validType, CONSTANT, LINEAR, SINUSOID_2D, SINUSOID_3D, COSINE_HILL_2D.
  intros Hn. repeat split; apply Z.eqb_neq; lia.
Qed.

Lemma initBoundaryFields_unknown (mesh : fvMesh) (type : testType)
  (field : volScalarField) :
  ~ validType type ->
  initBoundaryFields mesh type field
  = Err (FatalError initBoundaryFields_name
           "Unknown enumerant for initialisation.").
Proof.
  intros Hn. destruct (unknown_type_tests Hn) as (E0 & E1 & E2 & E3 & E4).
  unfold initBoundaryFields. rewrite E0, E1, E2, E3, E4. reflexivity.
Qed.

(** ** The interior loops *)

Lemma forAllCells_mapR (xC : volVectorField) (field : volScalarField)
  (gfield : volVectorField) (value : vector -> Res (scalar * vector)) :
  List.length (internalField field) = List.length (internalField xC) ->
  forAllCells xC field gfield value
  = (fg <- mapR value (internalField xC) ;;
     Ok (setInternal field (map fst fg), setInternal gfield (map snd fg))).
Proof.
  intros Hl. unfold forAllCells, forAll.
  rewrite (@forAllFrom_lookup _ _ _ value (internalField xC)
             (internalField field) 0%nat (internalField xC))
    by (auto using skipn_O).
  reflexivity.
Qed.

Lemma newField_shape {T} (o : IOobject) (mesh : fvMesh) (v : T) (p : string) :
  map (@List.length T) (boundaryField (newField o mesh v p))
  = map (@List.length vector) (patchFaceCentres mesh).
Proof.
  unfold newField; simpl. rewrite map_map. apply map_ext.
  intros a. apply repeat_length.
Qed.

Lemma newField_cells {T} (o : IOobject) (mesh : fvMesh) (v : T) (p : string) :
  List.length (internalField (newField o mesh v p))
  = List.length (internalField (C mesh)).
Proof.
  unfold newField, C, cellCentres, nCells; simpl.
  now rewrite repeat_length, length_map.
Qed.

(** What the populated branch of [initTestField] does once the interior
    loop has produced the pairs [value x = (v x, g x)]. *)
Lemma populate_total (mesh : fvMesh) (type : testType)
  (value : vector -> Res (scalar * vector)) :
  validType type ->
  (forall x, In x (cellCentres mesh) ->
     value x = Ok (analyticValue type x, analyticGradient type x)) ->
  (fg <- forAllCells (C mesh)
           (newField (IOobject_ "alpha" (timeName mesh) mesh NO_READ NO_WRITE)
              mesh 0.0 "fixedValue")
           (newField (IOobject_ "grad(alpha)" (timeName mesh) mesh NO_READ NO_WRITE)
              mesh vzero "zeroGradient")
           value ;;
   (let '(field, gfield) := fg in
    field <- initBoundaryFields mesh type field ;;
    Ok (field, gfield)))
  = Ok (analyticField mesh type, analyticGradField mesh type).
Proof.
  intros Hv Hval.
  rewrite forAllCells_mapR by apply newField_cells.
  change (internalField (C mesh)) with (cellCentres mesh).
  rewrite (@mapR_total _ _ value
             (fun x => (analyticValue type x, analyticGradient type x)))
    by exact Hval.
  simpl. rewrite !map_map. simpl.
  rewrite initBoundaryFields_valid; [reflexivity|exact Hv|].
  simpl. rewrite map_map. apply map_ext. intros a. apply repeat_length.
Qed.

Lemma initTestField_regular (mesh : fvMesh) (type : testType) :
  validType type -> regular mesh type ->
  initTestField mesh type true
  = Ok (analyticField mesh type, analyticGradField mesh type).
Proof.
  intros Hv Hr. pose proof Hv as Hv'.
  each_type Hv'; unfold initTestField; simpl;
    (rewrite populate_total; [reflexivity|exact Hv|]); intros x Hx;
    unfold analyticValue, analyticGradient, pi; simpl; decimals;
    try reflexivity.
  assert (Hx0 : vmag (vsub x hC) <> 0).
  { specialize (Hr eq_refl). rewrite Forall_forall in Hr. auto. }
  rewrite sdiv_ok by apply L_neq_0.
  rewrite sdiv_ok by (apply Rmult_integral_contrapositive_currified;
                      [exact Hx0|apply L_neq_0]).
  simpl. rewrite L_eq. reflexivity.
Qed.

Lemma initTestField_unknown (mesh : fvMesh) (type : testType) :
  ~ validType type ->
  initTestField mesh type true
  = Err (FatalError initTestField_name "Unknown enumerant for initialisation.").
Proof.
  intros Hn. destruct (unknown_type_tests Hn) as (E0 & E1 & E2 & E3 & E4).
  unfold initTestField. rewrite E0, E1, E2, E3, E4. reflexivity.
Qed.

(** A cell centred at the hill centre: the division by [r*L] raises the
    floating point exception, whatever the other cells are. *)
Lemma initTestField_singular (mesh : fvMesh) (x : vector) :
  In x (cellCentres mesh) -> vmag (vsub x hC) = 0 ->
  initTestField mesh COSINE_HILL_2D true = Err FloatingPointException.
Proof.
  intros Hin Hx. unfold initTestField; simpl.
  rewrite forAllCells_mapR by apply newField_cells.
  change (internalField (C mesh)) with (cellCentres mesh).
  erewrite mapR_fault; [reflexivity| |].
  - intros y _. rewrite sdiv_ok by apply L_neq_0. simpl.
    destruct (Req_dec_T (vmag (vsub y hC) * L) 0) as [E|E].
    + left. rewrite E, sdiv_zero. reflexivity.
    + right. rewrite sdiv_ok by exact E. simpl. eauto.
  - exists x. split; [exact Hin|].
    rewrite sdiv_ok by apply L_neq_0. simpl.
    rewrite Hx, Rmult_0_l, sdiv_zero. reflexivity.
Qed.

Lemma validType_dec (type : testType) : {validType type} + {~ validType type}.
Proof.
  unfold validType.
  destruct (Z_le_dec 0 type); destruct (Z_le_dec type 4);
    [left|right|right|right]; lia.
Qed.

Lemma regular_dec (mesh : fvMesh) (type : testType) :
  regular mesh type
  \/ (type = COSINE_HILL_2D
      /\ exists x, In x (cellCentres mesh) /\ vmag (vsub x hC) = 0).
Proof.
  destruct (Z.eq_dec type COSINE_HILL_2D) as [E|E];
    [|left; intros E'; contradiction].
  destruct (Forall_Exists_dec (fun x => vmag (vsub x hC) <> 0)
              (fun x => match Req_dec_T (vmag (vsub x hC)) 0 with
                        | left e => right (fun n => n e)
                        | right n => left n
                        end)
              (cellCentres mesh)) as [F|X].
  - left. intros _. exact F.
  - right. split; [exact E|]. apply Exists_exists in X.
    destruct X as [x [Hin Hx]]. exists x. split; [exact Hin|].
    destruct (Req_dec_T (vmag (vsub x hC)) 0); [assumption|contradiction].
Qed.

(** When the populated construction returns, the kind is a value of the
    enumeration, no cell sits on the singular point, and the fields are the
    analytic ones. *)
Lemma initTestField_Ok_inv (mesh : fvMesh) (type : testType)
  (f : volScalarField) (g : volVectorField) :
  initTestField mesh type true = Ok (f, g) ->
  validType type /\ regular mesh type
  /\ f = analyticField mesh type /\ g = analyticGradField mesh type.
Proof.
  intros E. destruct (validType_dec type) as [Hv|Hn].
  2:{ rewrite (initTestField_unknown mesh Hn) in E. discriminate. }
  destruct (regular_dec mesh type) as [Hr|[-> [x [Hin Hx]]]].
  - rewrite (initTestField_regular Hv Hr) in E. injection E as <- <-. auto.
  - rewrite (initTestField_singular mesh x Hin Hx) in E. discriminate.
Qed.

(** ** The conservation integral *)

Lemma sumCells_ext (n : nat) (g h : nat -> R) :
  (forall i, (i < n)%nat -> g i = h i) -> sumCells n g = sumCells n h.
Proof.
  induction n as [|n IH]; intros E; simpl; [reflexivity|].
  rewrite IH by (intros; apply E; lia).
  rewrite (E n) by lia. reflexivity.
Qed.

Lemma fold_left_Rplus_sumCells (l : list R) (a : R) :
  fold_left Rplus l a = a + sumCells (List.length l) (fun i => nth i l 0).
Proof.
  induction l as [|x l IH] using rev_ind; simpl; [lra|].
  rewrite fold_left_app, length_app, Nat.add_comm. simpl.
  rewrite IH, app_nth2, Nat.sub_diag by lia. simpl.
  rewrite (@sumCells_ext (List.length l) (fun i => nth i (l ++ [x]) 0)
             (fun i => nth i l 0)).
  - lra.
  - intros i Hi. now rewrite app_nth1.
Qed.

Lemma length_fieldTimes (v f : list scalar) :
  List.length v = List.length f ->
  List.length (fieldTimes v f) = List.length v.
Proof.
  revert f; induction v as [|a v IH]; intros [|b f] E; simpl in *;
    try discriminate; auto.
Qed.

Lemma nth_fieldTimes (v f : list scalar) (i : nat) :
  List.length v = List.length f ->
  nth i (fieldTimes v f) 0 = nth i v 0 * nth i f 0.
Proof.
  revert f i; induction v as [|a v IH]; intros [|b f] i E; simpl in *;
    try discriminate.
  - destruct i; lra.
  - destruct i; [reflexivity|]. apply IH. lia.
Qed.

(** C1.  On a scalar field that has one value per cell of its mesh, the
    integral the harness computes, [gSum(mesh.V() * field.internalField())],
    is the sum over the cells [i] of [cellVolume[i] * field[i]], and it does
    not depend on the boundary values of the field: replacing them leaves
    the integral unchanged. *)
Theorem integral_is_volume_weighted_sum (mesh : fvMesh) (field : volScalarField) :
  List.length (internalField field) = nCells mesh ->
  integral mesh field
  = sumCells (nCells mesh)
      (fun i => cellVolume (nth i (cells mesh) (Cell 0 vzero))
                * nth i (internalField field) 0)
  /\ forall boundary : list (list scalar),
       integral mesh (setBoundary field boundary) = integral mesh field.
Proof.
  intros E. split; [|reflexivity].
  assert (EV : List.length (V mesh) = List.length (internalField field))
    by (unfold V; rewrite length_map; symmetry; exact E).
  unfold integral, gSum. cbn [plus zero scalarFieldType].
  rewrite fold_left_Rplus_sumCells, length_fieldTimes by exact EV.
  unfold V at 1. rewrite length_map. fold (nCells mesh).
  rewrite Rplus_0_l. apply sumCells_ext. intros i _.
  rewrite nth_fieldTimes by exact EV. f_equal.
  unfold V. change 0 with (cellVolume (Cell 0 vzero)) at 1.
  apply map_nth.
Qed.

Lemma integral_is_volume_weighted_sum_witness :
  integral twoCells (alphaOn twoCells [3; 5] [[7; 7]])
  = sumCells 2 (fun i => cellVolume (nth i (cells twoCells) (Cell 0 vzero))
                         * nth i [3; 5] 0)
  /\ forall boundary : list (list scalar),
       integral twoCells (setBoundary (alphaOn twoCells [3; 5] [[7; 7]]) boundary)
       = integral twoCells (alphaOn twoCells [3; 5] [[7; 7]]).
Proof.
  apply (@integral_is_volume_weighted_sum twoCells
           (alphaOn twoCells [3; 5] [[7; 7]])).
  reflexivity.
Defined.

(** ** The cube root *)

Lemma cbrt_cube (x : R) : cbrt x * cbrt x * cbrt x = x.
Proof.
  unfold cbrt. destruct (Rlt_dec 0 x) as [Hp|Hnp].
  - rewrite <- !exp_plus. replace (ln x / 3 + ln x / 3 + ln x / 3) with (ln x) by field.
    now apply exp_ln.
  - destruct (Rlt_dec x 0) as [Hn|Hnn]; [|lra].
    replace (- exp (ln (- x) / 3) * - exp (ln (- x) / 3) * - exp (ln (- x) / 3))
      with (- (exp (ln (- x) / 3) * exp (ln (- x) / 3) * exp (ln (- x) / 3)))
      by ring.
    rewrite <- !exp_plus.
    replace (ln (- x) / 3 + ln (- x) / 3 + ln (- x) / 3) with (ln (- x)) by field.
    rewrite exp_ln by lra. ring.
Qed.

Lemma cbrt_pos_cube (y : R) : 0 < y -> cbrt (y * y * y) = y.
Proof.
  intros Hy. assert (Hy3 : 0 < y * y * y)
    by (apply Rmult_lt_0_compat; [apply Rmult_lt_0_compat|]; assumption).
  unfold cbrt. destruct (Rlt_dec 0 (y * y * y)); [|contradiction].
  rewrite !ln_mult by (try apply Rmult_lt_0_compat; assumption).
  replace ((ln y + ln y + ln y) / 3) with (ln y) by field.
  now apply exp_ln.
Qed.

Lemma effectiveSpacing_1000 : cbrt (1 / INR 1000) = 0.1.
Proof.
  rewrite INR_IZR_INZ. change (Z.of_nat 1000) with 1000%Z.
  replace (1 / 1000) with (0.1 * 0.1 * 0.1) by lra.
  apply cbrt_pos_cube. lra.
Qed.

(** ** The loops of the error analysis *)

Lemma forAllAcc_app {A St} (body : nat -> A -> St -> Res St) (l1 l2 : list A) :
  forall k s,
    forAllAcc body k (l1 ++ l2) s
    = (s' <- forAllAcc body k l1 s ;;
       forAllAcc body (k + List.length l1) l2 s').
Proof.
  induction l1 as [|a l1 IH]; intros k s; simpl.
  - now rewrite Nat.add_0_r.
  - destruct (body k a s); simpl; [|reflexivity].
    rewrite IH. now rewrite Nat.add_succ_r.
Qed.

Lemma at_in_range {A} (l : list A) (i : nat) (d : A) :
  (i < List.length l)%nat -> at_ l i = Ok (nth i l d).
Proof.
  intros Hi. unfold at_. now rewrite (nth_error_nth' l d Hi).
Qed.

Lemma maxCells_ext (n : nat) (g h : nat -> R) :
  (forall i, (i < n)%nat -> g i = h i) -> maxCells n g = maxCells n h.
Proof.
  induction n as [|n IH]; intros E; simpl; [reflexivity|].
  rewrite IH by (intros; apply E; lia).
  rewrite (E n) by lia. reflexivity.
Qed.

Lemma cellError_app_l (type : testType) (mesh : fvMesh) (F : list scalar)
  (a : scalar) (i : nat) :
  (i < List.length F)%nat ->
  cellError type mesh (F ++ [a]) i = cellError type mesh F i.
Proof. intros Hi. unfold cellError. now rewrite app_nth1. Qed.

Lemma cellError_app_r (type : testType) (mesh : fvMesh) (F : list scalar)
  (a : scalar) :
  cellError type mesh (F ++ [a]) (List.length F)
  = a - analyticValue type (nth (List.length F) (cellCentres mesh) vzero).
Proof.
  unfold cellError. now rewrite app_nth2, Nat.sub_diag by lia.
Qed.

Lemma sumError_snoc (type : testType) (mesh : fvMesh) (F : list scalar) (a : scalar) :
  sumCells (List.length (F ++ [a]))
    (fun i => cellError type mesh (F ++ [a]) i * cellError type mesh (F ++ [a]) i)
  = sumCells (List.length F)
      (fun i => cellError type mesh F i * cellError type mesh F i)
    + magSqr (a - analyticValue type (nth (List.length F) (cellCentres mesh) vzero)).
Proof.
  rewrite length_app, Nat.add_1_r. simpl. rewrite cellError_app_r.
  unfold magSqr. f_equal. apply sumCells_ext. intros i Hi.
  now rewrite cellError_app_l.
Qed.

Lemma linfError_snoc (type : testType) (mesh : fvMesh) (F : list scalar) (a : scalar) :
  linfError type mesh (F ++ [a])
  = Rmax (linfError type mesh F)
      (mag (a - analyticValue type (nth (List.length F) (cellCentres mesh) vzero))).
Proof.
  unfold linfError. rewrite length_app, Nat.add_1_r. simpl.
  rewrite cellError_app_r. unfold mag. f_equal. apply maxCells_ext.
  intros i Hi. now rewrite cellError_app_l.
Qed.

Lemma perCellAbsError_snoc (type : testType) (mesh : fvMesh) (F : list scalar)
  (a : scalar) :
  perCellAbsError type mesh (F ++ [a])
  = (perCellAbsError type mesh F
     ++ [mag (a - analyticValue type (nth (List.length F) (cellCentres mesh) vzero))])%list.
Proof.
  unfold perCellAbsError. rewrite length_app, Nat.add_1_r, seq_S, map_app.
  simpl. rewrite cellError_app_r. unfold mag.
  apply (f_equal (fun l => (l ++ _)%list)).
  apply map_ext_in. intros i Hi. apply in_seq in Hi.
  rewrite cellError_app_l by lia. reflexivity.
Qed.

Lemma length_cellCentres (mesh : fvMesh) :
  List.length (cellCentres mesh) = nCells mesh.
Proof. unfold cellCentres, nCells. apply length_map. Qed.

(** The source loop on a value of the enumeration: the sum of the squared
    cell errors and the largest absolute cell error. *)
Lemma sourceLoop_valid (type : testType) (mesh : fvMesh) (F : list scalar) :
  validType type ->
  (List.length F <= nCells mesh)%nat ->
  exists ex,
    sourceLoop type (cellCentres mesh) F
    = Ok (ErrorVars
            (sumCells (List.length F)
               (fun i => cellError type mesh F i * cellError type mesh F i))
            (linfError type mesh F) ex []).
Proof.
  intros Hv. induction F as [|a F IH] using rev_ind; intros Hl.
  - exists 0.0. unfold sourceLoop, linfError. simpl. decimals. reflexivity.
  - rewrite length_app in Hl. simpl in Hl.
    destruct IH as [ex IH]; [lia|]. unfold sourceLoop in *.
    rewrite forAllAcc_app, IH. simpl.
    rewrite (at_in_range _ vzero) by (rewrite length_cellCentres; lia).
    simpl. rewrite (switchExact_valid _ _ Hv). simpl.
    eexists. rewrite sumError_snoc, linfError_snoc. reflexivity.
Qed.

Lemma targetLoop_valid (type : testType) (mesh : fvMesh) (F : list scalar) :
  validType type ->
  (List.length F <= nCells mesh)%nat ->
  exists ex,
    targetLoop type (cellCentres mesh) F
    = Ok (ErrorVars
            (sumCells (List.length F)
               (fun i => cellError type mesh F i * cellError type mesh F i))
            (linfError type mesh F) ex (perCellAbsError type mesh F)).
Proof.
  intros Hv. induction F as [|a F IH] using rev_ind; intros Hl.
  - exists 0.0. unfold targetLoop, linfError. simpl. decimals. reflexivity.
  - rewrite length_app in Hl. simpl in Hl.
    destruct IH as [ex IH]; [lia|]. unfold targetLoop in *.
    rewrite forAllAcc_app, IH. simpl.
    rewrite (at_in_range _ vzero) by (rewrite length_cellCentres; lia).
    simpl. rewrite (switchExact_valid _ _ Hv). simpl.
    eexists. rewrite sumError_snoc, linfError_snoc, perCellAbsError_snoc.
    reflexivity.
Qed.

(** ** The error report *)

Lemma size_neq_0 {A} (l : list A) : l <> [] -> size l <> 0.
Proof.
  intros Hl. unfold size. apply not_0_INR. destruct l; [congruence|discriminate].
Qed.

Lemma computeError_valid (fieldSource fieldTarget : volScalarField)
  (type : testType) (w : world) :
  validType type ->
  internalField fieldSource <> [] ->
  internalField fieldTarget <> [] ->
  (List.length (internalField fieldSource) <= nCells (fieldMesh fieldSource))%nat ->
  (List.length (internalField fieldTarget) <= nCells (fieldMesh fieldTarget))%nat ->
  computeError fieldSource fieldTarget type w
  = Ok (perCellAbsError type (fieldMesh fieldTarget) (internalField fieldTarget),
        World (files w)
          (trace w
           ++ normsLines "      Source       "
                (l2Error type (fieldMesh fieldSource) (internalField fieldSource))
                (linfError type (fieldMesh fieldSource) (internalField fieldSource))
                (effectiveSpacing (List.length (internalField fieldSource)))
                (List.length (internalField fieldSource))
           ++ normsLines "      Target       "
                (l2Error type (fieldMesh fieldTarget) (internalField fieldTarget))
                (linfError type (fieldMesh fieldTarget) (internalField fieldTarget))
                (effectiveSpacing (List.length (internalField fieldTarget)))
                (List.length (internalField fieldTarget)))%list).
Proof.
  intros Hv Hs Ht Hls Hlt.
  destruct (sourceLoop_valid (fieldMesh fieldSource) (internalField fieldSource) Hv Hls)
    as [exs Es].
  destruct (targetLoop_valid (fieldMesh fieldTarget) (internalField fieldTarget) Hv Hlt)
    as [ext Et].
  unfold computeError, bindM, lift. rewrite Es, Et.
  rewrite !(sdiv_ok _ (size_neq_0 Hs)), !(sdiv_ok _ (size_neq_0 Ht)).
  cbn [bindR]. unfold printNorms, bindM, info, emit, ret. cbn [files trace].
  cbn [sumError maxError cellErrors].
  rewrite <- !app_assoc. cbn [app].
  unfold l2Error, effectiveSpacing, normsLines, size, sqr. decimals.
  reflexivity.
Qed.

(** C6.  For fields with at least one cell, on a value of the enumeration,
    the error analysis completes and prints, for the source and for the
    target field, the L2 error [sqrt(sum of squared cell errors / nCells)],
    the Linf error (the largest absolute cell error) and the spacing
    [cbrt(1 / nCells)]; its per-cell error field holds the absolute cell
    errors of the target.  With 1000 cells the spacing is 0.1. *)
Theorem computeError_reports_norms (fieldSource fieldTarget : volScalarField)
  (type : testType) (w : world) :
  validType type ->
  internalField fieldSource <> [] ->
  internalField fieldTarget <> [] ->
  (List.length (internalField fieldSource) <= nCells (fieldMesh fieldSource))%nat ->
  (List.length (internalField fieldTarget) <= nCells (fieldMesh fieldTarget))%nat ->
  computeError fieldSource fieldTarget type w
  = Ok (perCellAbsError type (fieldMesh fieldTarget) (internalField fieldTarget),
        World (files w)
          (trace w
           ++ normsLines "      Source       "
                (l2Error type (fieldMesh fieldSource) (internalField fieldSource))
                (linfError type (fieldMesh fieldSource) (internalField fieldSource))
                (effectiveSpacing (List.length (internalField fieldSource)))
                (List.length (internalField fieldSource))
           ++ normsLines "      Target       "
                (l2Error type (fieldMesh fieldTarget) (internalField fieldTarget))
                (linfError type (fieldMesh fieldTarget) (internalField fieldTarget))
                (effectiveSpacing (List.length (internalField fieldTarget)))
                (List.length (internalField fieldTarget)))%list)
  /\ effectiveSpacing 1000 = 0.1.
Proof.
  intros Hv Hs Ht Hls Hlt. split.
  - now apply computeError_valid.
  - apply effectiveSpacing_1000.
Qed.

Lemma computeError_reports_norms_witness :
  exists result,
    computeError (alphaOn twoCells [3; 5] [[7; 7]])
      (alphaOn twoCells [3; 5] [[7; 7]]) LINEAR emptyWorld = Ok result.
Proof.
  eexists.
  apply (@computeError_reports_norms (alphaOn twoCells [3; 5] [[7; 7]])
           (alphaOn twoCells [3; 5] [[7; 7]]) LINEAR emptyWorld).
  - unfold validType, LINEAR. lia.
  - discriminate.
  - discriminate.
  - unfold nCells. simpl. lia.
  - unfold nCells. simpl. lia.
Defined.

(** The Linf error bounds every absolute cell error, and one cell attains
    it. *)
Lemma maxCells_upper (n : nat) (g : nat -> R) (i : nat) :
  (i < n)%nat -> g i <= maxCells n g.
Proof.
  induction n as [|n IH]; intros Hi; [lia|]. simpl.
  destruct (Nat.eq_dec i n) as [->|Hne].
  - apply Rmax_r.
  - eapply Rle_trans; [apply IH; lia|apply Rmax_l].
Qed.

Lemma maxCells_attained (n : nat) (g : nat -> R) :
  n <> 0%nat -> (forall i, 0 <= g i) ->
  exists i, (i < n)%nat /\ maxCells n g = g i.
Proof.
  intros Hn Hg. induction n as [|n IH]; [congruence|]. simpl.
  destruct (Rle_dec (maxCells n g) (g n)) as [Hle|Hgt].
  - exists n. split; [lia|]. now apply Rmax_right.
  - destruct n as [|n'].
    + exfalso. apply Hgt. simpl. apply Hg.
    + destruct IH as [i [Hi Ei]]; [congruence|].
      exists i. split; [lia|]. rewrite Rmax_left by lra. exact Ei.
Qed.

Lemma linfError_is_maximum (type : testType) (mesh : fvMesh) (F : list scalar) :
  F <> [] ->
  (forall i, (i < List.length F)%nat ->
     Rabs (cellError type mesh F i) <= linfError type mesh F)
  /\ exists i, (i < List.length F)%nat
              /\ linfError type mesh F = Rabs (cellError type mesh F i).
Proof.
  intros HF. split.
  - intros i Hi. unfold linfError.
    apply (maxCells_upper (fun i => Rabs (cellError type mesh F i)) Hi).
  - apply maxCells_attained.
    + destruct F; [congruence|discriminate].
    + intros i. apply Rabs_pos.
Qed.

(** ** Self-consistency of builder and analyzer *)

Lemma cellError_analytic (type : testType) (mesh : fvMesh) (i : nat) :
  (i < nCells mesh)%nat ->
  cellError type mesh (map (analyticValue type) (cellCentres mesh)) i = 0.
Proof.
  intros Hi. unfold cellError.
  rewrite (nth_indep _ 0 (analyticValue type vzero))
    by (rewrite length_map, length_cellCentres; exact Hi).
  rewrite map_nth. lra.
Qed.

Lemma sumCells_zero (n : nat) (g : nat -> R) :
  (forall i, (i < n)%nat -> g i = 0) -> sumCells n g = 0.
Proof.
  induction n as [|n IH]; intros E; simpl; [reflexivity|].
  rewrite IH, E by (intros; try apply E; lia). lra.
Qed.

Lemma maxCells_zero (n : nat) (g : nat -> R) :
  (forall i, (i < n)%nat -> g i = 0) -> maxCells n g = 0.
Proof.
  induction n as [|n IH]; intros E; simpl; [reflexivity|].
  rewrite IH, E by (intros; try apply E; lia). apply Rmax_left. lra.
Qed.

Lemma analytic_norms (type : testType) (mesh : fvMesh) :
  l2Error type mesh (map (analyticValue type) (cellCentres mesh)) = 0
  /\ linfError type mesh (map (analyticValue type) (cellCentres mesh)) = 0
  /\ perCellAbsError type mesh (map (analyticValue type) (cellCentres mesh))
     = repeat 0 (nCells mesh).
Proof.
  unfold l2Error, linfError, perCellAbsError.
  rewrite length_map, length_cellCentres. repeat split.
  - rewrite sumCells_zero.
    + unfold Rdiv. rewrite Rmult_0_l. apply sqrt_0.
    + intros i Hi. rewrite cellError_analytic by exact Hi. lra.
  - apply maxCells_zero. intros i Hi.
    rewrite cellError_analytic by exact Hi. apply Rabs_R0.
  - rewrite (@map_ext_in _ _ _ (fun _ => 0)).
    + generalize 0%nat at 1. induction (nCells mesh) as [|n IH]; intros k; simpl;
        [reflexivity|]. now rewrite IH.
    + intros i Hi. apply in_seq in Hi.
      rewrite cellError_analytic by lia. apply Rabs_R0.
Qed.

(** C5.  Fields freshly built with [populate = true] on meshes with at least
    one cell, analysed against the kind they were built with: the analysis
    completes, the L2 and the Linf error of the source and of the target are
    exactly 0, and so is every entry of the per-cell error field. *)
Theorem fresh_field_has_zero_error (meshSource meshTarget : fvMesh)
  (type : testType) (fieldSource fieldTarget : volScalarField)
  (gfieldSource gfieldTarget : volVectorField) (w : world) :
  initTestField meshSource type true = Ok (fieldSource, gfieldSource) ->
  initTestField meshTarget type true = Ok (fieldTarget, gfieldTarget) ->
  nCells meshSource <> 0%nat ->
  nCells meshTarget <> 0%nat ->
  computeError fieldSource fieldTarget type w
  = Ok (repeat 0 (nCells meshTarget),
        World (files w)
          (trace w
           ++ normsLines "      Source       " 0 0
                (effectiveSpacing (nCells meshSource)) (nCells meshSource)
           ++ normsLines "      Target       " 0 0
                (effectiveSpacing (nCells meshTarget)) (nCells meshTarget))%list).
Proof.
  intros Es Et Hns Hnt.
  destruct (initTestField_Ok_inv _ _ Es) as (Hv & _ & -> & _).
  destruct (initTestField_Ok_inv _ _ Et) as (_ & _ & -> & _).
  rewrite computeError_valid; try exact Hv.
  - unfold analyticField, fieldMesh; cbn [io ioDb internalField].
    destruct (analytic_norms type meshSource) as (-> & -> & _).
    destruct (analytic_norms type meshTarget) as (-> & -> & ->).
    rewrite !length_map, !length_cellCentres. reflexivity.
  - unfold analyticField; cbn [internalField]. intros E.
    apply (f_equal (@List.length R)) in E.
    rewrite length_map, length_cellCentres in E. simpl in E. contradiction.
  - unfold analyticField; cbn [internalField]. intros E.
    apply (f_equal (@List.length R)) in E.
    rewrite length_map, length_cellCentres in E. simpl in E. contradiction.
  - unfold analyticField, fieldMesh; cbn [io ioDb internalField].
    rewrite length_map, length_cellCentres. lia.
  - unfold analyticField, fieldMesh; cbn [io ioDb internalField].
    rewrite length_map, length_cellCentres. lia.
Qed.

Lemma fresh_field_has_zero_error_witness :
  computeError (analyticField twoCells LINEAR) (analyticField twoCells LINEAR)
    LINEAR emptyWorld
  = Ok (repeat 0 (nCells twoCells),
        World (files emptyWorld)
          (trace emptyWorld
           ++ normsLines "      Source       " 0 0
                (effectiveSpacing (nCells twoCells)) (nCells twoCells)
           ++ normsLines "      Target       " 0 0
                (effectiveSpacing (nCells twoCells)) (nCells twoCells))%list).
Proof.
  assert (Hv : validType LINEAR) by (unfold validType, LINEAR; lia).
  assert (Hr : regular twoCells LINEAR) by (intros E; discriminate E).
  apply (@fresh_field_has_zero_error twoCells twoCells LINEAR
           (analyticField twoCells LINEAR) (analyticField twoCells LINEAR)
           (analyticGradField twoCells LINEAR) (analyticGradField twoCells LINEAR)
           emptyWorld).
  - exact (initTestField_regular Hv Hr).
  - exact (initTestField_regular Hv Hr).
  - discriminate.
  - discriminate.
Defined.

(** ** The singular point of the cosine hill *)

(** C2.  The mesh [threeCells] has a cell centred at the hill centre.  There
    the gradient of the cosine hill is computed as [(pi/(r*L)) * (...)] with
    [r = 0]: nothing guards the division, and building the test fields ends
    in the floating point exception instead of a gradient. *)
Theorem cosine_hill_gradient_divides_by_zero_radius :
  In hC (cellCentres threeCells)
  /\ initTestField threeCells COSINE_HILL_2D true = Err FloatingPointException.
Proof.
  assert (Hin : In hC (cellCentres threeCells))
    by (simpl; right; left; reflexivity).
  split; [exact Hin|].
  apply (initTestField_singular threeCells hC Hin).
  unfold vmag, vmagSqr, vsub, hC; simpl.
  replace ((0 - 0) * (0 - 0) + (0 - 0) * (0 - 0) + (0 - 0) * (0 - 0)) with 0 by ring.
  apply sqrt_0.
Qed.

(** ** Values outside the enumeration *)

Lemma switchExact_completes (type : testType) (x : vector) (e : scalar) :
  exists v, switchExact type x e = Ok v.
Proof.
  unfold switchExact.
  repeat match goal with
         | |- context [(?a =? ?b)%Z] => destruct (a =? b)%Z
         end; try (eexists; reflexivity).
  rewrite sdiv_ok by apply L_neq_0. simpl. eexists; reflexivity.
Qed.

Lemma errorLoop_completes (type : testType) (centres : list vector)
  (record : bool) (F : list scalar) :
  forall k s,
    (k + List.length F <= List.length centres)%nat ->
    exists s',
      forAllAcc (fun cellI F_cellI s =>
          xC <- at_ centres cellI ;;
          e <- switchExact type xC (exact s) ;;
          Ok (ErrorVars (sumError s + magSqr (F_cellI - e))
                        (Rmax (maxError s) (mag (F_cellI - e)))
                        e
                        (if record then cellErrors s ++ [mag (F_cellI - e)]
                         else cellErrors s)))
        k F s = Ok s'.
Proof.
  induction F as [|a F IH]; intros k s Hl; simpl in *.
  - eexists; reflexivity.
  - rewrite (at_in_range _ vzero) by lia. simpl.
    destruct (switchExact_completes type (nth k centres vzero) (exact s))
      as [v ->]. simpl.
    apply IH. lia.
Qed.

(** The error analysis has no failure path for the kind: on fields with at
    least one cell it completes for every value of [type]. *)
Lemma computeError_completes (fieldSource fieldTarget : volScalarField)
  (type : testType) (w : world) :
  internalField fieldSource <> [] ->
  internalField fieldTarget <> [] ->
  (List.length (internalField fieldSource) <= nCells (fieldMesh fieldSource))%nat ->
  (List.length (internalField fieldTarget) <= nCells (fieldMesh fieldTarget))%nat ->
  exists result, computeError fieldSource fieldTarget type w = Ok result.
Proof.
  intros Hs Ht Hls Hlt.
  destruct (@errorLoop_completes type (cellCentres (fieldMesh fieldSource)) false
              (internalField fieldSource) 0%nat (ErrorVars 0.0 0.0 0.0 []))
    as [s Es]; [rewrite length_cellCentres; simpl; lia|].
  destruct (@errorLoop_completes type (cellCentres (fieldMesh fieldTarget)) true
              (internalField fieldTarget) 0%nat (ErrorVars 0.0 0.0 0.0 []))
    as [t Et]; [rewrite length_cellCentres; simpl; lia|].
  unfold computeError, bindM, lift, sourceLoop, targetLoop.
  cbv beta iota in Es, Et. rewrite Es, Et.
  rewrite !(sdiv_ok _ (size_neq_0 Hs)), !(sdiv_ok _ (size_neq_0 Ht)).
  cbn [bindR]. unfold printNorms, bindM, info, emit, ret.
  eexists; reflexivity.
Qed.

(** C3, as stated, fails: 7 is not a value of the enumeration, yet the error
    analysis, which dispatches on the kind, completes normally for it; and
    the two routines that do stop, stop with one fixed diagnostic, the same
    for 7 and for 8, so that it does not name the invalid value. *)
Lemma unknown_kind_counterexample :
  ~ validType 7%Z
  /\ (exists result,
        computeError (alphaOn twoCells [3; 5] [[7; 7]])
          (alphaOn twoCells [3; 5] [[7; 7]]) 7%Z emptyWorld = Ok result)
  /\ initBoundaryFields twoCells 7%Z (alphaOn twoCells [3; 5] [[7; 7]])
     = initBoundaryFields twoCells 8%Z (alphaOn twoCells [3; 5] [[7; 7]])
  /\ initTestField twoCells 7%Z true = initTestField twoCells 8%Z true.
Proof.
  split; [unfold validType; lia|].
  split; [|split; reflexivity].
  apply computeError_completes.
  - discriminate.
  - discriminate.
  - unfold nCells. simpl. lia.
  - unfold nCells. simpl. lia.
Qed.

(** C3, amended.  For a value outside the enumeration, the boundary
    initialisation and the populated field initialisation stop at once with
    a fatal error whose diagnostic names the routine and reads "Unknown
    enumerant for initialisation."; the diagnostic is that fixed text, which
    does not hold the value, and no field is returned.  The initialisation
    with [populate = false] does not dispatch on the kind: it returns the
    zero scalar field and the zero gradient field, the same for every
    value. *)
Theorem unknown_kind_is_fatal_in_initialisation (type : testType)
  (mesh : fvMesh) (field : volScalarField) :
  ~ validType type ->
  initBoundaryFields mesh type field
  = Err (FatalError initBoundaryFields_name
           "Unknown enumerant for initialisation.")
  /\ initTestField mesh type true
     = Err (FatalError initTestField_name
              "Unknown enumerant for initialisation.")
  /\ initTestField mesh type false
     = Ok (Field (IOobject_ "alpha" (timeName mesh) mesh NO_READ NO_WRITE)
             (repeat 0 (nCells mesh))
             (map (fun patch => repeat 0 (List.length patch))
                (patchFaceCentres mesh))
             "fixedValue",
           Field (IOobject_ "grad(alpha)" (timeName mesh) mesh NO_READ NO_WRITE)
             (repeat vzero (nCells mesh))
             (map (fun patch => repeat vzero (List.length patch))
                (patchFaceCentres mesh))
             "zeroGradient").
Proof.
  intros Hn. split; [|split].
  - now apply initBoundaryFields_unknown.
  - now apply initTestField_unknown.
  - unfold initTestField, newField. decimals. reflexivity.
Qed.

Lemma unknown_kind_is_fatal_in_initialisation_witness :
  initBoundaryFields twoCells 7%Z (alphaOn twoCells [3; 5] [[7; 7]])
  = Err (FatalError initBoundaryFields_name
           "Unknown enumerant for initialisation.")
  /\ initTestField twoCells 7%Z true
     = Err (FatalError initTestField_name
              "Unknown enumerant for initialisation.")
  /\ initTestField twoCells 7%Z false
     = Ok (Field (IOobject_ "alpha" (timeName twoCells) twoCells NO_READ NO_WRITE)
             (repeat 0 (nCells twoCells))
             (map (fun patch => repeat 0 (List.length patch))
                (patchFaceCentres twoCells))
             "fixedValue",
           Field (IOobject_ "grad(alpha)" (timeName twoCells) twoCells
                    NO_READ NO_WRITE)
             (repeat vzero (nCells twoCells))
             (map (fun patch => repeat vzero (List.length patch))
                (patchFaceCentres twoCells))
             "zeroGradient").
Proof.
  apply (@unknown_kind_is_fatal_in_initialisation 7%Z twoCells
           (alphaOn twoCells [3; 5] [[7; 7]])).
  unfold validType. lia.
Defined.

(** ** Allocation and population of the test fields *)

Lemma analyticField_onMesh (mesh : fvMesh) (type : testType) :
  onMesh mesh (analyticField mesh type).
Proof.
  unfold onMesh, analyticField, fieldMesh; simpl. repeat split.
  - now rewrite length_map, length_cellCentres.
  - rewrite map_map. apply map_ext. intros a. apply length_map.
Qed.

Lemma analyticGradField_onMesh (mesh : fvMesh) (type : testType) :
  onMesh mesh (analyticGradField mesh type).
Proof.
  unfold onMesh, analyticGradField, fieldMesh; simpl. repeat split.
  - now rewrite length_map, length_cellCentres.
  - rewrite map_map. apply map_ext. intros a. apply repeat_length.
Qed.

Lemma newField_onMesh {T} (name : string) (mesh : fvMesh) (v : T) (p : string) :
  onMesh mesh (newField (IOobject_ name (timeName mesh) mesh NO_READ NO_WRITE)
                 mesh v p).
Proof.
  unfold onMesh, fieldMesh; simpl. repeat split.
  - apply repeat_length.
  - rewrite map_map. apply map_ext. intros a. apply repeat_length.
Qed.

(** C8.  With [populate = false] the builder returns, for every value of
    [type] and without evaluating anything, the scalar field "alpha" and the
    gradient field "grad(alpha)" filled with zero in every cell and on every
    boundary face.  Whatever [populate] is, the fields it returns have one
    value per cell and per boundary face of the mesh, the scalar with
    "fixedValue" and the gradient with "zeroGradient" patch fields. *)
Theorem initTestField_allocates_both_fields (mesh : fvMesh) (type : testType) :
  initTestField mesh type false
  = Ok (Field (IOobject_ "alpha" (timeName mesh) mesh NO_READ NO_WRITE)
          (repeat 0 (nCells mesh))
          (map (fun patch => repeat 0 (List.length patch)) (patchFaceCentres mesh))
          "fixedValue",
        Field (IOobject_ "grad(alpha)" (timeName mesh) mesh NO_READ NO_WRITE)
          (repeat vzero (nCells mesh))
          (map (fun patch => repeat vzero (List.length patch))
             (patchFaceCentres mesh))
          "zeroGradient")
  /\ forall (populate : bool) (f : volScalarField) (g : volVectorField),
       initTestField mesh type populate = Ok (f, g) ->
       patchFieldType f = "fixedValue" /\ patchFieldType g = "zeroGradient"
       /\ onMesh mesh f /\ onMesh mesh g.
Proof.
  split.
  - unfold initTestField, newField. decimals. reflexivity.
  - intros [|] f g E.
    + destruct (initTestField_Ok_inv _ _ E) as (_ & _ & -> & ->).
      repeat split; try apply analyticField_onMesh;
        apply analyticGradField_onMesh.
    + unfold initTestField in E. injection E as <- <-.
      repeat split; apply newField_onMesh.
Qed.

Lemma initTestField_allocates_both_fields_witness :
  patchFieldType (analyticField twoCells LINEAR) = "fixedValue"
  /\ patchFieldType (analyticGradField twoCells LINEAR) = "zeroGradient"
  /\ onMesh twoCells (analyticField twoCells LINEAR)
  /\ onMesh twoCells (analyticGradField twoCells LINEAR).
Proof.
  assert (Hv : validType LINEAR) by (unfold validType, LINEAR; lia).
  assert (Hr : regular twoCells LINEAR) by (intros E; discriminate E).
  apply (proj2 (initTestField_allocates_both_fields twoCells LINEAR) true).
  exact (initTestField_regular Hv Hr).
Defined.

(** C9.  With [populate = true], on a value of the enumeration and a mesh
    without a cell at the singular point, the builder returns: the scalar
    field holds on every face of every patch the analytic value at the face
    centre; the gradient field holds the analytic gradient in the cells, and
    its boundary is as allocated, zero on every face. *)
Theorem populate_writes_scalar_boundary_only (mesh : fvMesh) (type : testType) :
  validType type ->
  regular mesh type ->
  exists (f : volScalarField) (g : volVectorField),
    initTestField mesh type true = Ok (f, g)
    /\ boundaryField f
       = map (map (analyticValue type)) (patchFaceCentres mesh)
    /\ internalField g = map (analyticGradient type) (cellCentres mesh)
    /\ boundaryField g
       = boundaryField
           (newField (IOobject_ "grad(alpha)" (timeName mesh) mesh NO_READ NO_WRITE)
              mesh vzero "zeroGradient")
    /\ boundaryField g
       = map (fun patch => repeat vzero (List.length patch))
           (patchFaceCentres mesh).
Proof.
  intros Hv Hr.
  exists (analyticField mesh type), (analyticGradField mesh type).
  split; [exact (initTestField_regular Hv Hr)|].
  repeat split; reflexivity.
Qed.

Lemma populate_writes_scalar_boundary_only_witness :
  exists (f : volScalarField) (g : volVectorField),
    initTestField twoCells SINUSOID_2D true = Ok (f, g)
    /\ boundaryField f
       = map (map (analyticValue SINUSOID_2D)) (patchFaceCentres twoCells)
    /\ internalField g
       = map (analyticGradient SINUSOID_2D) (cellCentres twoCells)
    /\ boundaryField g
       = boundaryField
           (newField (IOobject_ "grad(alpha)" (timeName twoCells) twoCells
                        NO_READ NO_WRITE)
              twoCells vzero "zeroGradient")
    /\ boundaryField g
       = map (fun patch => repeat vzero (List.length patch))
           (patchFaceCentres twoCells).
Proof.
  apply (@populate_writes_scalar_boundary_only twoCells SINUSOID_2D).
  - unfold validType, SINUSOID_2D. lia.
  - intros E. discriminate E.
Defined.

(** ** The two branches of the remap driver *)

Section DriverProperties.

Context {T : Type} `{FieldType T}.

Variable interpolateInto :
  conservativeMeshToMesh -> GeometricField T -> GeometricField T -> label ->
  GeometricField T.

(** C7.  The driver, on an object whose source field can be read, takes one
    of two branches on the header of the target object.  If the target has a
    stored field, it is loaded and handed to the in-place interpolation.
    Otherwise the target object is tagged [NO_READ], a zero field is built
    under it and handed to the interpolation.  In both branches the source
    integral is printed before the interpolation, the interpolated target is
    written and stored, and the target integral and the magnitude of the
    difference are printed. *)
Theorem mapField_takes_one_of_two_branches
  (m : conservativeMeshToMesh) (method : label) (fieldIter : IOobject)
  (w : world) (a : anyField) (stored : GeometricField T) :
  files w (fileOf fieldIter) = Some a ->
  ofAny a = Some stored ->
  let src := withIO fieldIter stored in
  let tgtIO :=
    IOobject_ (ioName fieldIter) (timeName (tgtMesh m)) (tgtMesh m)
      MUST_READ AUTO_WRITE in
  let report (given result : GeometricField T) :=
    [InfoLine "    Interpolating " (WordValue (ioName fieldIter));
     InfoLine "Integral source: " (toValue (integral (srcMesh m) src));
     InterpolateCall m (toAny given) (toAny src) None method;
     WriteField (toAny result);
     InfoLine "Integral target: " (toValue (integral (tgtMesh m) result));
     InfoLine "mag(intError): "
       (ScalarValue (magT (minus (integral (srcMesh m) src)
                                 (integral (tgtMesh m) result))))] in
  (forall (b : anyField) (loaded : GeometricField T),
      files w (fileOf tgtIO) = Some b ->
      ofAny b = Some loaded ->
      let given := withIO tgtIO loaded in
      let result := interpolateInto m given src method in
      mapField interpolateInto m method fieldIter w
      = Ok (tt, World (putFile (files w) (io result) (toAny result))
                      (trace w ++ report given result)))
  /\ (files w (fileOf tgtIO) = None ->
      let tgtIO' :=
        IOobject_ (ioName fieldIter) (timeName (tgtMesh m)) (tgtMesh m)
          NO_READ AUTO_WRITE in
      let given := newField tgtIO' (tgtMesh m) zero "calculated" in
      let result := withIO tgtIO' (interpolateInto m given src method) in
      readOpt (io given) = NO_READ
      /\ internalField given = repeat zero (nCells (tgtMesh m))
      /\ mapField interpolateInto m method fieldIter w
         = Ok (tt, World (putFile (files w) tgtIO' (toAny result))
                         (trace w ++ report given result))).
Proof.
  intros Hsrc Hof src tgtIO report. split.
  - intros b loaded Htgt Hofb given result.
    unfold mapField, interpolate, write, info.
    unfold bindM, emit, readField, headerOk, store, ret.
    subst tgtIO.
    repeat (cbn [files trace]; rewrite ?Hsrc, ?Hof, ?Htgt, ?Hofb).
    rewrite <- !app_assoc. reflexivity.
  - intros Htgt tgtIO' given result. split; [reflexivity|].
    split; [reflexivity|].
    unfold mapField, interpolateNew, interpolate, write, info.
    unfold bindM, emit, readField, headerOk, store, ret.
    subst tgtIO.
    repeat (cbn [files trace]; rewrite ?Hsrc, ?Hof, ?Htgt).
    rewrite <- !app_assoc. reflexivity.
Qed.

(** The driver runs that body on every object of the class of [T], in the
    order of the list, and skips the others. *)
Lemma MapConservativeVolFields_cons (e : IOentry) (objects : list IOentry)
  (m : conservativeMeshToMesh) (method : label) :
  MapConservativeVolFields interpolateInto (e :: objects) m method
  = if String.eqb (headerClassName e) typeName
    then bindM (mapField interpolateInto m method (entry e))
           (fun _ => MapConservativeVolFields interpolateInto objects m method)
    else MapConservativeVolFields interpolateInto objects m method.
Proof.
  unfold MapConservativeVolFields, lookupClass. simpl.
  destruct (String.eqb (headerClassName e) typeName); reflexivity.
Qed.

End DriverProperties.

Lemma mapField_takes_one_of_two_branches_witness :
  (exists w', mapField firstCellMapper (MeshToMesh twoCells threeCells 1 false false)
                0%Z (IOobject_ "alpha" "0" twoCells MUST_READ NO_WRITE)
                sourceAndTarget = Ok (tt, w'))
  /\ (exists w', mapField firstCellMapper (MeshToMesh twoCells threeCells 1 false false)
                   0%Z (IOobject_ "alpha" "0" twoCells MUST_READ NO_WRITE)
                   sourceOnly = Ok (tt, w')).
Proof.
  split.
  - eexists.
    apply (proj1 (@mapField_takes_one_of_two_branches scalar scalarFieldType
                    firstCellMapper (MeshToMesh twoCells threeCells 1 false false)
                    0%Z (IOobject_ "alpha" "0" twoCells MUST_READ NO_WRITE)
                    sourceAndTarget
                    (ScalarField (alphaOn twoCells [3; 5] [[7; 7]]))
                    (alphaOn twoCells [3; 5] [[7; 7]])
                    eq_refl eq_refl)
             (ScalarField (alphaOn threeCells [1; 1; 1] [[0]; [0]]))
             (alphaOn threeCells [1; 1; 1] [[0]; [0]])
             eq_refl eq_refl).
  - eexists.
    apply (proj2 (@mapField_takes_one_of_two_branches scalar scalarFieldType
                    firstCellMapper (MeshToMesh twoCells threeCells 1 false false)
                    0%Z (IOobject_ "alpha" "0" twoCells MUST_READ NO_WRITE)
                    sourceOnly
                    (ScalarField (alphaOn twoCells [3; 5] [[7; 7]]))
                    (alphaOn twoCells [3; 5] [[7; 7]])
                    eq_refl eq_refl)
             eq_refl).
Defined.

(** ** The cyclic remap test *)

Lemma onMesh_shape {T} (mesh : fvMesh) (f : GeometricField T) :
  onMesh mesh f ->
  map (@List.length T) (boundaryField f)
  = map (@List.length vector) (patchFaceCentres mesh).
Proof. intros (_ & _ & E). exact E. Qed.

Lemma onMesh_reassert (mesh : fvMesh) (type : testType) (f : volScalarField) :
  onMesh mesh f -> onMesh mesh (reassert mesh type f).
Proof.
  intros (E1 & E2 & _). unfold onMesh, reassert, fieldMesh in *; simpl.
  repeat split; try assumption.
  rewrite map_map. apply map_ext. intros a. apply length_map.
Qed.

Lemma firstCellMapperGrad_keeps_shape (m : conservativeMeshToMesh)
  (target source : volScalarField) (grad : volVectorField) (method : label)
  (mesh : fvMesh) :
  onMesh mesh target ->
  onMesh mesh (firstCellMapperGrad m target source grad method).
Proof.
  intros (E1 & E2 & E3).
  unfold onMesh, firstCellMapperGrad, firstCellMapper, fieldMesh in *; simpl.
  repeat split; try assumption. now rewrite length_map.
Qed.

Section CyclicProperties.

Variable interpolateGrad :
  conservativeMeshToMesh -> volScalarField -> volScalarField ->
  volVectorField -> label -> volScalarField.

(** The mapper interpolates in place: the target stays a field of its
    mesh. *)
Hypothesis interpolate_keeps_shape :
  forall m target source grad method mesh,
    onMesh mesh target ->
    onMesh mesh (interpolateGrad m target source grad method).

Variables (type : testType) (meshSource meshTarget : fvMesh).
Variables (method nThreads : label) (forceRecalc writeAddr : bool).
Variables (gfieldSource gfieldTarget : volVectorField).

Hypothesis type_valid : validType type.

Let sourceToTarget : conservativeMeshToMesh :=
  MeshToMesh meshSource meshTarget nThreads forceRecalc writeAddr.
Let targetToSource : conservativeMeshToMesh :=
  MeshToMesh meshTarget meshSource nThreads forceRecalc writeAddr.

Lemma cycleFields_onMesh (fS fT : volScalarField) :
  onMesh meshSource fS -> onMesh meshTarget fT ->
  onMesh meshSource
    (fst (cycleFields interpolateGrad type meshSource meshTarget
            sourceToTarget targetToSource gfieldSource gfieldTarget method
            (fS, fT)))
  /\ onMesh meshTarget
       (snd (cycleFields interpolateGrad type meshSource meshTarget
               sourceToTarget targetToSource gfieldSource gfieldTarget method
               (fS, fT))).
Proof.
  intros HS HT. unfold cycleFields; simpl. split.
  - repeat apply onMesh_reassert. now apply interpolate_keeps_shape.
  - apply onMesh_reassert, interpolate_keeps_shape, onMesh_reassert, HT.
Qed.

(** One pass of the loop completes, with the fields and the two calls of
    the reference. *)
Lemma cycle_run (fS fT : volScalarField) (w : world) :
  onMesh meshSource fS -> onMesh meshTarget fT ->
  cycle interpolateGrad type meshSource meshTarget sourceToTarget
    targetToSource gfieldSource gfieldTarget method (fS, fT) w
  = Ok (cycleFields interpolateGrad type meshSource meshTarget
          sourceToTarget targetToSource gfieldSource gfieldTarget method
          (fS, fT),
        World (files w)
          (trace w
           ++ cycleCalls interpolateGrad type meshSource meshTarget
                sourceToTarget targetToSource gfieldSource gfieldTarget method
                (fS, fT))).
Proof.
  intros HS HT.
  pose proof (interpolate_keeps_shape targetToSource fT gfieldTarget method HS)
    as HS1.
  pose proof (onMesh_reassert type HT) as HT1.
  pose proof (onMesh_reassert type HS1) as HS2.
  pose proof (interpolate_keeps_shape sourceToTarget
                (reassert meshSource type
                   (interpolateGrad targetToSource fS fT gfieldTarget method))
                gfieldSource method HT1) as HT2.
  unfold cycle, interpolateWithGrad. unfold bindM, lift, emit, ret.
  rewrite (initBoundaryFields_valid meshTarget fT type_valid (onMesh_shape HT)).
  rewrite (initBoundaryFields_valid meshSource _ type_valid (onMesh_shape HS1)).
  fold (reassert meshTarget type fT).
  fold (reassert meshSource type
          (interpolateGrad targetToSource fS fT gfieldTarget method)).
  rewrite (initBoundaryFields_valid meshTarget _ type_valid (onMesh_shape HT2)).
  rewrite (initBoundaryFields_valid meshSource _ type_valid (onMesh_shape HS2)).
  cbn [files trace]. rewrite <- !app_assoc. reflexivity.
Qed.

Lemma cycles_run (n : nat) :
  forall (fS fT : volScalarField) (w : world),
    onMesh meshSource fS -> onMesh meshTarget fT ->
    repeatM n
      (cycle interpolateGrad type meshSource meshTarget sourceToTarget
         targetToSource gfieldSource gfieldTarget method) (fS, fT) w
    = Ok (cyclesFields interpolateGrad type meshSource meshTarget
            sourceToTarget targetToSource gfieldSource gfieldTarget method
            n (fS, fT),
          World (files w)
            (trace w
             ++ cyclesCalls interpolateGrad type meshSource meshTarget
                  sourceToTarget targetToSource gfieldSource gfieldTarget
                  method n (fS, fT))).
Proof.
  induction n as [|n IH]; intros fS fT w HS HT.
  - simpl. unfold ret. rewrite app_nil_r. now destruct w.
  - cbn [repeatM cyclesFields cyclesCalls]. unfold bindM at 1.
    rewrite (cycle_run w HS HT).
    destruct (cycleFields_onMesh HS HT) as [HS' HT'].
    destruct (cycleFields interpolateGrad type meshSource meshTarget
                sourceToTarget targetToSource gfieldSource gfieldTarget method
                (fS, fT)) as [fS' fT'] eqn:E.
    simpl in HS', HT'. rewrite (IH fS' fT' _ HS' HT').
    cbn [files trace]. now rewrite <- app_assoc.
Qed.

Lemma cyclesFields_onMesh (n : nat) :
  forall fS fT : volScalarField,
    onMesh meshSource fS -> onMesh meshTarget fT ->
    onMesh meshSource
      (fst (cyclesFields interpolateGrad type meshSource meshTarget
              sourceToTarget targetToSource gfieldSource gfieldTarget method
              n (fS, fT)))
    /\ onMesh meshTarget
         (snd (cyclesFields interpolateGrad type meshSource meshTarget
                 sourceToTarget targetToSource gfieldSource gfieldTarget method
                 n (fS, fT))).
Proof.
  induction n as [|n IH]; intros fS fT HS HT; [simpl; auto|].
  cbn [cyclesFields].
  destruct (cycleFields_onMesh HS HT) as [HS' HT'].
  destruct (cycleFields interpolateGrad type meshSource meshTarget
              sourceToTarget targetToSource gfieldSource gfieldTarget method
              (fS, fT)) as [fS' fT'].
  apply IH; assumption.
Qed.

End CyclicProperties.

Lemma onMesh_cells_nonempty (mesh : fvMesh) (f : volScalarField) :
  onMesh mesh f -> nCells mesh <> 0%nat -> internalField f <> [].
Proof.
  intros (_ & E & _) Hn Hnil. rewrite Hnil in E. simpl in E. congruence.
Qed.

(** The whole run of [testCyclicRemap], on a value of the enumeration and
    meshes with at least one cell and no cell at the singular point. *)
Lemma testCyclicRemap_run
  (interpolateGrad : conservativeMeshToMesh -> volScalarField ->
                     volScalarField -> volVectorField -> label -> volScalarField)
  (nCycles : label) (type : testType) (meshSource meshTarget : fvMesh)
  (method nThreads : label) (forceRecalc writeAddr : bool) (w : world) :
  (forall m target source grad method mesh,
      onMesh mesh target ->
      onMesh mesh (interpolateGrad m target source grad method)) ->
  validType type ->
  regular meshSource type -> regular meshTarget type ->
  nCells meshSource <> 0%nat -> nCells meshTarget <> 0%nat ->
  let sourceToTarget :=
    MeshToMesh meshSource meshTarget nThreads forceRecalc writeAddr in
  let targetToSource :=
    MeshToMesh meshTarget meshSource nThreads forceRecalc writeAddr in
  let fS0 := analyticField meshSource type in
  let gS := analyticGradField meshSource type in
  let fT0 := analyticField meshTarget type in
  let gT := analyticGradField meshTarget type in
  let start :=
    (reassert meshSource type fS0,
     reassert meshTarget type (interpolateGrad sourceToTarget fT0 fS0 gS method)) in
  let n := Z.to_nat (nCycles - 1) in
  let final :=
    cyclesFields interpolateGrad type meshSource meshTarget sourceToTarget
      targetToSource gS gT method n start in
  testCyclicRemap interpolateGrad nCycles type meshSource meshTarget method
    nThreads forceRecalc writeAddr w
  = Ok (tt,
        World
          (putFile
             (putFile (putFile (files w) (io fS0) (ScalarField fS0))
                (io gS) (VectorField gS))
             (io (snd final)) (ScalarField (snd final)))
          (trace w
           ++ [WriteField (ScalarField fS0);
               WriteField (VectorField gS);
               InfoLine " Remapping for " (LabelValue nCycles);
               InfoLine " cycles..." NoValue;
               InterpolateCall sourceToTarget (ScalarField fT0)
                 (ScalarField fS0) (Some (VectorField gS)) method]
           ++ cyclesCalls interpolateGrad type meshSource meshTarget
                sourceToTarget targetToSource gS gT method n start
           ++ cyclicEpilogue type meshSource meshTarget fS0
                (fst final) (snd final))%list).
Proof.
  intros Hshape Hv HrS HrT HnS HnT sourceToTarget targetToSource fS0 gS fT0 gT
    start n final.
  assert (HS0 : onMesh meshSource fS0) by apply analyticField_onMesh.
  assert (HT0 : onMesh meshTarget fT0) by apply analyticField_onMesh.
  assert (HT1 : onMesh meshTarget
                  (interpolateGrad sourceToTarget fT0 fS0 gS method))
    by (apply Hshape; exact HT0).
  assert (HSs : onMesh meshSource (fst start))
    by (apply onMesh_reassert; exact HS0).
  assert (HTs : onMesh meshTarget (snd start))
    by (apply onMesh_reassert; exact HT1).
  assert (HN : onMesh meshSource (fst final) /\ onMesh meshTarget (snd final))
    by exact (@cyclesFields_onMesh interpolateGrad Hshape type meshSource
                meshTarget method nThreads forceRecalc writeAddr gS gT n
                (fst start) (snd start) HSs HTs).
  destruct HN as [HSN HTN].
  unfold testCyclicRemap.
  unfold bindM at 1. unfold lift at 1.
  rewrite (initTestField_regular Hv HrS). cbn [fst snd].
  fold fS0 gS.
  unfold write, info, interpolateWithGrad, forLabel.
  unfold bindM, lift, emit, store, ret.
  rewrite (initTestField_regular Hv HrT). cbn [fst snd files trace].
  fold fT0 gT sourceToTarget targetToSource.
  rewrite (initBoundaryFields_valid meshTarget _ Hv (onMesh_shape HT1)).
  rewrite (initBoundaryFields_valid meshSource fS0 Hv (onMesh_shape HS0)).
  fold (reassert meshSource type fS0).
  fold (reassert meshTarget type (interpolateGrad sourceToTarget fT0 fS0 gS method)).
  fold start. fold n.
  rewrite (@cycles_run interpolateGrad Hshape type meshSource meshTarget
             method nThreads forceRecalc writeAddr gS gT Hv n
             (fst start) (snd start) _ HSs HTs).
  change (fst start, snd start) with start. fold sourceToTarget targetToSource.
  fold final. cbn [fst snd files trace].
  destruct HSN as (EmS & ElS & HbS). destruct HTN as (EmT & ElT & HbT).
  rewrite computeError_valid;
    [ | exact Hv
      | exact (onMesh_cells_nonempty (conj EmS (conj ElS HbS)) HnS)
      | exact (onMesh_cells_nonempty (conj EmT (conj ElT HbT)) HnT)
      | rewrite EmS, ElS; apply Nat.le_refl
      | rewrite EmT, ElT; apply Nat.le_refl ].
  cbn [files trace].
  rewrite EmS, EmT, ElS, ElT.
  unfold cyclicEpilogue, integral, gSum, mag.
  rewrite <- !app_assoc. reflexivity.
Qed.

Section CyclicTrace.

Variable interpolateGrad :
  conservativeMeshToMesh -> volScalarField -> volScalarField ->
  volVectorField -> label -> volScalarField.

Variables (type : testType) (meshSource meshTarget : fvMesh).
Variables (sourceToTarget targetToSource : conservativeMeshToMesh).
Variables (gS gT : volVectorField) (method : label).

(** The calls of the cycling end with a forward call, and the target field
    holds what that call produced, with the boundary re-asserted. *)
Lemma cyclesCalls_last (n : nat) :
  forall (fields : volScalarField * volScalarField)
         (t s : volScalarField) (before : list event),
    snd fields
    = reassert meshTarget type (interpolateGrad sourceToTarget t s gS method) ->
    exists (before' : list event) (t' s' : volScalarField),
      (before
       ++ [InterpolateCall sourceToTarget (ScalarField t) (ScalarField s)
             (Some (VectorField gS)) method]
       ++ cyclesCalls interpolateGrad type meshSource meshTarget sourceToTarget
            targetToSource gS gT method n fields)%list
      = (before'
         ++ [InterpolateCall sourceToTarget (ScalarField t') (ScalarField s')
               (Some (VectorField gS)) method])%list
      /\ snd (cyclesFields interpolateGrad type meshSource meshTarget
                sourceToTarget targetToSource gS gT method n fields)
         = reassert meshTarget type
             (interpolateGrad sourceToTarget t' s' gS method).
Proof.
  induction n as [|n IH]; intros [fS fT] t s before E.
  - exists before, t, s. simpl. split; [reflexivity|exact E].
  - cbn [cyclesCalls cyclesFields].
    destruct (IH (cycleFields interpolateGrad type meshSource meshTarget
                    sourceToTarget targetToSource gS gT method (fS, fT))
                (reassert meshTarget type fT)
                (reassert meshSource type
                   (interpolateGrad targetToSource fS fT gT method))
                (before
                 ++ [InterpolateCall sourceToTarget (ScalarField t)
                       (ScalarField s) (Some (VectorField gS)) method;
                     InterpolateCall targetToSource (ScalarField fS)
                       (ScalarField fT) (Some (VectorField gT)) method])%list
                eq_refl)
      as (before' & t' & s' & E1 & E2).
    exists before', t', s'. split; [|exact E2].
    rewrite <- E1. unfold cycleCalls. rewrite <- !app_assoc. reflexivity.
Qed.

Lemma cyclesCalls_use_gradients (n : nat) :
  forall fields : volScalarField * volScalarField,
    Forall (usesGradients sourceToTarget targetToSource gS gT)
      (cyclesCalls interpolateGrad type meshSource meshTarget sourceToTarget
         targetToSource gS gT method n fields).
Proof.
  induction n as [|n IH]; intros [fS fT]; cbn [cyclesCalls]; [constructor|].
  apply Forall_app. split; [|apply IH].
  unfold cycleCalls.
  constructor; [right; split; reflexivity|].
  constructor; [left; split; reflexivity|].
  constructor.
Qed.

Lemma cyclesCalls_count (n : nat) :
  forall fields : volScalarField * volScalarField,
    List.length
      (filter isCall
         (cyclesCalls interpolateGrad type meshSource meshTarget sourceToTarget
            targetToSource gS gT method n fields))
    = (2 * n)%nat.
Proof.
  induction n as [|n IH]; intros [fS fT]; cbn [cyclesCalls]; [reflexivity|].
  rewrite filter_app, length_app, IH. unfold cycleCalls. simpl. lia.
Qed.

End CyclicTrace.

Lemma epilogue_has_no_call (type : testType) (meshSource meshTarget : fvMesh)
  (f0 fS fT : volScalarField) :
  filter isCall (cyclicEpilogue type meshSource meshTarget f0 fS fT) = [].
Proof. reflexivity. Qed.

Lemma no_call_uses_gradients (m1 m2 : conservativeMeshToMesh)
  (g1 g2 : volVectorField) (l : list event) :
  filter isCall l = [] -> Forall (usesGradients m1 m2 g1 g2) l.
Proof.
  induction l as [|e l IH]; intros E; [constructor|].
  simpl in E. destruct e; simpl in *; try discriminate;
    constructor; simpl; auto.
Qed.

(** C4.  When the two populated test fields can be built on meshes with at
    least one cell, the cyclic remap test completes.  Its trace ends with:
    the last forward call on the mapper; the write of the final target
    field, whose cells hold what that call produced; the error report of the
    final fields; and the integrals, the last line being the magnitude of
    the difference between the integral of the source field as built and
    the integral of the final target field.  The final target field is in
    the stored files. *)
Theorem cyclic_remap_reports_drift
  (interpolateGrad : conservativeMeshToMesh -> volScalarField ->
                     volScalarField -> volVectorField -> label -> volScalarField)
  (nCycles : label) (type : testType) (meshSource meshTarget : fvMesh)
  (method nThreads : label) (forceRecalc writeAddr : bool) (w : world)
  (fS0 fT0 : volScalarField) (gS0 gT0 : volVectorField) :
  (forall m target source grad method mesh,
      onMesh mesh target ->
      onMesh mesh (interpolateGrad m target source grad method)) ->
  initTestField meshSource type true = Ok (fS0, gS0) ->
  initTestField meshTarget type true = Ok (fT0, gT0) ->
  nCells meshSource <> 0%nat -> nCells meshTarget <> 0%nat ->
  let sourceToTarget :=
    MeshToMesh meshSource meshTarget nThreads forceRecalc writeAddr in
  exists (before : list event) (lastTarget lastSource : volScalarField)
         (finalSource finalTarget : volScalarField) (w' : world),
    testCyclicRemap interpolateGrad nCycles type meshSource meshTarget method
      nThreads forceRecalc writeAddr w = Ok (tt, w')
    /\ trace w'
       = (trace w ++ before
          ++ [InterpolateCall sourceToTarget (ScalarField lastTarget)
                (ScalarField lastSource) (Some (VectorField gS0)) method]
          ++ cyclicEpilogue type meshSource meshTarget fS0
               finalSource finalTarget)%list
    /\ internalField finalTarget
       = internalField
           (interpolateGrad sourceToTarget lastTarget lastSource gS0 method)
    /\ files w' (fileOf (io finalTarget)) = Some (ScalarField finalTarget).
Proof.
  intros Hshape Es Et HnS HnT sourceToTarget.
  destruct (initTestField_Ok_inv _ _ Es) as (Hv & HrS & -> & ->).
  destruct (initTestField_Ok_inv _ _ Et) as (_ & HrT & -> & ->).
  pose proof (@testCyclicRemap_run interpolateGrad nCycles type meshSource
                meshTarget method nThreads forceRecalc writeAddr w
                Hshape Hv HrS HrT HnS HnT) as Run.
  cbv zeta in Run. fold sourceToTarget in Run.
  set (targetToSource :=
         MeshToMesh meshTarget meshSource nThreads forceRecalc writeAddr) in *.
  set (fS0 := analyticField meshSource type) in *.
  set (gS := analyticGradField meshSource type) in *.
  set (fT0 := analyticField meshTarget type) in *.
  set (gT := analyticGradField meshTarget type) in *.
  set (start := (reassert meshSource type fS0,
                 reassert meshTarget type
                   (interpolateGrad sourceToTarget fT0 fS0 gS method))) in *.
  set (n := Z.to_nat (nCycles - 1)) in *.
  destruct (@cyclesCalls_last interpolateGrad type meshSource meshTarget
              sourceToTarget targetToSource gS gT method n start fT0 fS0
              [WriteField (ScalarField fS0); WriteField (VectorField gS);
               InfoLine " Remapping for " (LabelValue nCycles);
               InfoLine " cycles..." NoValue]
              eq_refl)
    as (before & t' & s' & E1 & E2).
  set (final := cyclesFields interpolateGrad type meshSource meshTarget
                  sourceToTarget targetToSource gS gT method n start) in *.
  exists before, t', s', (fst final), (snd final).
  eexists. split; [exact Run|]. cbn [trace files]. repeat split.
  - rewrite (app_assoc before). rewrite <- E1.
    rewrite <- !app_assoc. reflexivity.
  - rewrite E2. reflexivity.
  - unfold putFile at 1. 
    assert (Hk : forall k, fileKey_eqb k k = true).
    { intros [[k1 k2] k3]. simpl. now rewrite !String.eqb_refl. }
    now rewrite Hk.
Qed.

Lemma cyclic_remap_reports_drift_witness :
  exists w',
    testCyclicRemap firstCellMapperGrad 3%Z LINEAR twoCells threeCells 0%Z 1%Z
      false false emptyWorld = Ok (tt, w').
Proof.
  assert (Hv : validType LINEAR) by (unfold validType, LINEAR; lia).
  assert (HrS : regular twoCells LINEAR) by (intros E; discriminate E).
  assert (HrT : regular threeCells LINEAR) by (intros E; discriminate E).
  destruct (@cyclic_remap_reports_drift firstCellMapperGrad 3%Z LINEAR
              twoCells threeCells 0%Z 1%Z false false emptyWorld
              (analyticField twoCells LINEAR) (analyticField threeCells LINEAR)
              (analyticGradField twoCells LINEAR)
              (analyticGradField threeCells LINEAR)
              firstCellMapperGrad_keeps_shape
              (initTestField_regular Hv HrS) (initTestField_regular Hv HrT))
    as (before & lastT & lastS & fS & fT & w' & Run & _).
  - discriminate.
  - discriminate.
  - exists w'. exact Run.
Defined.

(** C10.  When the two populated test fields can be built on meshes with at
    least one cell, the cyclic remap test completes, and every call on the
    mapper in its trace is either a forward call with the source gradient
    field as [initTestField] built it, or a backward call with the target
    gradient field as [initTestField] built it; there are [1 + 2 (N - 1)]
    such calls for [N >= 1] cycles.  The cells of the two gradient fields
    hold the analytic gradient at the cell centres. *)
Theorem cyclic_remap_reuses_initial_gradients
  (interpolateGrad : conservativeMeshToMesh -> volScalarField ->
                     volScalarField -> volVectorField -> label -> volScalarField)
  (nCycles : label) (type : testType) (meshSource meshTarget : fvMesh)
  (method nThreads : label) (forceRecalc writeAddr : bool) (w : world)
  (fS0 fT0 : volScalarField) (gS0 gT0 : volVectorField) :
  (forall m target source grad method mesh,
      onMesh mesh target ->
      onMesh mesh (interpolateGrad m target source grad method)) ->
  initTestField meshSource type true = Ok (fS0, gS0) ->
  initTestField meshTarget type true = Ok (fT0, gT0) ->
  nCells meshSource <> 0%nat -> nCells meshTarget <> 0%nat ->
  let sourceToTarget :=
    MeshToMesh meshSource meshTarget nThreads forceRecalc writeAddr in
  let targetToSource :=
    MeshToMesh meshTarget meshSource nThreads forceRecalc writeAddr in
  exists (events : list event) (w' : world),
    testCyclicRemap interpolateGrad nCycles type meshSource meshTarget method
      nThreads forceRecalc writeAddr w = Ok (tt, w')
    /\ trace w' = (trace w ++ events)%list
    /\ Forall (usesGradients sourceToTarget targetToSource gS0 gT0) events
    /\ List.length (filter isCall events)
       = (1 + 2 * Z.to_nat (nCycles - 1))%nat
    /\ internalField gS0 = map (analyticGradient type) (cellCentres meshSource)
    /\ internalField gT0 = map (analyticGradient type) (cellCentres meshTarget).
Proof.
  intros Hshape Es Et HnS HnT sourceToTarget targetToSource.
  destruct (initTestField_Ok_inv _ _ Es) as (Hv & HrS & -> & ->).
  destruct (initTestField_Ok_inv _ _ Et) as (_ & HrT & -> & ->).
  pose proof (@testCyclicRemap_run interpolateGrad nCycles type meshSource
                meshTarget method nThreads forceRecalc writeAddr w
                Hshape Hv HrS HrT HnS HnT) as Run.
  cbv zeta in Run. fold sourceToTarget targetToSource in Run.
  eexists. eexists. split; [exact Run|]. cbn [trace].
  split; [reflexivity|]. repeat split.
  - apply Forall_app. split.
    + repeat (constructor; [simpl; auto|]). constructor.
    + apply Forall_app. split.
      * apply cyclesCalls_use_gradients.
      * apply no_call_uses_gradients, epilogue_has_no_call.
  - rewrite !filter_app, !length_app, cyclesCalls_count, epilogue_has_no_call.
    simpl. lia.
Qed.

Lemma cyclic_remap_reuses_initial_gradients_witness :
  exists (events : list event) (w' : world),
    testCyclicRemap firstCellMapperGrad 3%Z LINEAR twoCells threeCells 0%Z 1%Z
      false false emptyWorld = Ok (tt, w')
    /\ trace w' = (trace emptyWorld ++ events)%list
    /\ Forall (usesGradients
                 (MeshToMesh twoCells threeCells 1%Z false false)
                 (MeshToMesh threeCells twoCells 1%Z false false)
                 (analyticGradField twoCells LINEAR)
                 (analyticGradField threeCells LINEAR)) events
    /\ List.length (filter isCall events) = 5%nat.
Proof.
  assert (Hv : validType LINEAR) by (unfold validType, LINEAR; lia).
  assert (HrS : regular twoCells LINEAR) by (intros E; discriminate E).
  assert (HrT : regular threeCells LINEAR) by (intros E; discriminate E).
  destruct (@cyclic_remap_reuses_initial_gradients firstCellMapperGrad 3%Z
              LINEAR twoCells threeCells 0%Z 1%Z false false emptyWorld
              (analyticField twoCells LINEAR) (analyticField threeCells LINEAR)
              (analyticGradField twoCells LINEAR)
              (analyticGradField threeCells LINEAR)
              firstCellMapperGrad_keeps_shape
              (initTestField_regular Hv HrS) (initTestField_regular Hv HrT))
    as (events & w' & Run & Etr & Hall & Hcount & _).
  - discriminate.
  - discriminate.
  - exists events, w'. repeat split; assumption.
Defined.

(* ================================================================== *)
(** * Further properties of the code *)

(** ** The time index *)

Lemma nearestSoFar_step (GREAT t : R) (seen : list instant) (time : instant)
  (idx : Z) (d : R) :
  nearestSoFar GREAT t seen idx d ->
  nearestSoFar GREAT t (seen ++ [time])
    (if String.eqb (instantName time) "constant" then idx
     else if Rlt_dec (timeDiff time t) d then Z.of_nat (List.length seen)
          else idx)
    (if String.eqb (instantName time) "constant" then d
     else if Rlt_dec (timeDiff time t) d then timeDiff time t else d).
Proof.
  intros Inv.
  assert (Hsnoc : forall j x, nth_error (seen ++ [time]) j = Some x ->
            ((j < List.length seen)%nat /\ nth_error seen j = Some x)
            \/ (j = List.length seen /\ x = time)).
  { intros j x E. destruct (Nat.lt_ge_cases j (List.length seen)) as [Hj|Hj].
    - left. split; [exact Hj|]. now rewrite nth_error_app1 in E.
    - right. rewrite nth_error_app2 in E by exact Hj.
      destruct (j - List.length seen)%nat as [|k] eqn:Ek; simpl in E.
      + injection E as <-. split; [lia|reflexivity].
      + destruct k; discriminate E. }
  destruct (String.eqb_spec (instantName time) "constant") as [Hc|Hc].
  - destruct Inv as [(-> & -> & Hall)|(i & tm & -> & Hi & Ht & -> & Hlt & Hmin)].
    + left. repeat split. intros x Hin Hx. apply in_app_or in Hin.
      destruct Hin as [Hin|[<-|[]]]; [now apply Hall|contradiction].
    + right. exists i, tm. repeat split; try assumption.
      * rewrite nth_error_app1; [exact Hi|]. apply nth_error_Some. congruence.
      * destruct (Hsnoc j x H) as [[_ E]|[_ ->]]; [|contradiction].
        now apply (Hmin j x).
      * destruct (Hsnoc j x H) as [[_ E]|[_ ->]]; [|contradiction].
        now apply (Hmin j x).
  - destruct (Rlt_dec (timeDiff time t) d) as [Hlt|Hge].
    + right. exists (List.length seen), time.
      assert (Hd : d <= GREAT)
        by (destruct Inv as [(_ & -> & _)|(_ & _ & _ & _ & _ & _ & Hl & _)]; lra).
      assert (Hold : forall j x, nth_error seen j = Some x -> isTime x ->
                d <= timeDiff x t).
      { intros j x E Hx.
        destruct Inv as [(_ & -> & Hall)|(i & tm & _ & _ & _ & _ & _ & Hmin)].
        - apply Hall; [eapply nth_error_In; exact E|exact Hx].
        - now apply (Hmin j x). }
      repeat split; try assumption; try lra.
      * now rewrite nth_error_app2, Nat.sub_diag by lia.
      * destruct (Hsnoc j x H) as [[_ E]|[_ ->]]; [|lra].
        specialize (Hold j x E H0). lra.
      * intros Hj. destruct (Hsnoc j x H) as [[_ E]|[-> _]]; [|lia].
        specialize (Hold j x E H0). lra.
    + destruct Inv as [(-> & -> & Hall)|(i & tm & -> & Hi & Ht & -> & Hlt & Hmin)].
      * left. repeat split. intros x Hin Hx. apply in_app_or in Hin.
        destruct Hin as [Hin|[<-|[]]]; [now apply Hall|lra].
      * right. exists i, tm. repeat split; try assumption.
        -- rewrite nth_error_app1; [exact Hi|]. apply nth_error_Some. congruence.
        -- destruct (Hsnoc j x H) as [[_ E]|[_ ->]]; [|lra].
           now apply (Hmin j x).
        -- intros Hj. destruct (Hsnoc j x H) as [[_ E]|[-> _]].
           ++ now apply (Hmin j x).
           ++ assert (i < List.length seen)%nat
                by (apply nth_error_Some; congruence). lia.
Qed.

Lemma getTimeIndexFrom_nearest (GREAT t : R) (times : list instant) :
  forall seen idx d,
    nearestSoFar GREAT t seen idx d ->
    exists d',
      nearestSoFar GREAT t (seen ++ times)
        (getTimeIndexFrom times t (List.length seen) idx d) d'.
Proof.
  induction times as [|time times IH]; intros seen idx d Inv.
  - exists d. simpl. now rewrite app_nil_r.
  - pose proof (nearestSoFar_step time Inv) as Step.
    replace (seen ++ time :: times)%list with ((seen ++ [time]) ++ times)%list
      by (now rewrite <- app_assoc).
    simpl.
    replace (S (List.length seen)) with (List.length (seen ++ [time]))
      by (rewrite length_app; simpl; lia).
    destruct (String.eqb (instantName time) "constant").
    + apply (IH _ _ _ Step).
    + unfold timeDiff in Step.
      destruct (Rlt_dec (Rabs (instantValue time - t)) d); apply (IH _ _ _ Step).
Qed.

Lemma getTimeIndex_inv (GREAT t : R) (times : list instant) :
  exists d, nearestSoFar GREAT t times (getTimeIndex GREAT times t) d.
Proof.
  apply (@getTimeIndexFrom_nearest GREAT t times [] (-1)%Z GREAT).
  left. repeat split. intros x [].
Qed.

(** X1.  When [getTimeIndex] returns an index [i >= 0], entry [i] is a time
    directory (not "constant"), its distance to [t] is below [GREAT], no
    other time directory is nearer, and the earlier ones are strictly
    farther: of equally near entries the first is returned. *)
Theorem getTimeIndex_returns_first_nearest (GREAT t : R)
  (times : list instant) (i : nat) :
  getTimeIndex GREAT times t = Z.of_nat i ->
  exists time,
    nth_error times i = Some time
    /\ instantName time <> "constant"
    /\ Rabs (instantValue time - t) < GREAT
    /\ forall j x, nth_error times j = Some x -> instantName x <> "constant" ->
         Rabs (instantValue time - t) <= Rabs (instantValue x - t)
         /\ ((j < i)%nat ->
             Rabs (instantValue time - t) < Rabs (instantValue x - t)).
Proof.
  intros E. destruct (getTimeIndex_inv GREAT t times) as [d Inv].
  rewrite E in Inv.
  destruct Inv as [(Hneg & _)|(i' & tm & Hi & Hn & Ht & -> & Hlt & Hmin)]; [lia|].
  apply Nat2Z.inj in Hi. subst i'. exists tm. repeat split; try assumption.
  - now apply (Hmin j x).
  - now apply (Hmin j x).
Qed.

(** X2.  [getTimeIndex] returns -1 exactly when every entry is "constant" or
    at a distance of [GREAT] or more from [t]; in particular on the empty
    list. *)
Theorem getTimeIndex_fails_iff_no_time (GREAT t : R) (times : list instant) :
  getTimeIndex GREAT times t = (-1)%Z
  <-> forall x, In x times ->
        instantName x = "constant" \/ GREAT <= Rabs (instantValue x - t).
Proof.
  destruct (getTimeIndex_inv GREAT t times) as [d Inv]. split.
  - intros E. rewrite E in Inv.
    destruct Inv as [(_ & _ & Hall)|(i & _ & Hi & _)]; [|lia].
    intros x Hin.
    destruct (String.eqb_spec (instantName x) "constant") as [Hc|Hc];
      [left; exact Hc|right; now apply Hall].
  - intros Hall.
    destruct Inv as [(E & _)|(i & tm & _ & Hi & Ht & -> & Hlt & _)]; [exact E|].
    destruct (Hall tm (nth_error_In _ _ Hi)) as [Hc|Hfar];
      [contradiction|unfold timeDiff in Hlt; lra].
Qed.

Lemma getTimeIndex_returns_first_nearest_witness :
  exists time,
    nth_error sampleTimes 2 = Some time
    /\ instantName time <> "constant"
    /\ Rabs (instantValue time - 0.6) < 1000
    /\ forall j x, nth_error sampleTimes j = Some x ->
         instantName x <> "constant" ->
         Rabs (instantValue time - 0.6) <= Rabs (instantValue x - 0.6)
         /\ ((j < 2)%nat ->
             Rabs (instantValue time - 0.6) < Rabs (instantValue x - 0.6)).
Proof.
  apply (@getTimeIndex_returns_first_nearest 1000 0.6 sampleTimes 2).
  assert (E0 : Rabs (0 - 0.6) = 0.6)
    by (unfold Rabs; destruct (Rcase_abs (0 - 0.6)); lra).
  assert (E1 : Rabs (0.5 - 0.6) = 0.1)
    by (unfold Rabs; destruct (Rcase_abs (0.5 - 0.6)); lra).
  assert (E2 : Rabs (1 - 0.6) = 0.4)
    by (unfold Rabs; destruct (Rcase_abs (1 - 0.6)); lra).
  unfold getTimeIndex, sampleTimes.
  cbn [getTimeIndexFrom instantName instantValue String.eqb Ascii.eqb Bool.eqb].
  rewrite E0, E1, E2.
  destruct (Rlt_dec 0.6 1000); [|lra].
  destruct (Rlt_dec 0.1 0.6); [|lra].
  destruct (Rlt_dec 0.4 0.1); [lra|].
  reflexivity.
Defined.

(** ** Re-asserting the boundary *)

(** X3.  On a value of the enumeration and a field with the boundary shape
    of the mesh, [initBoundaryFields] completes; it leaves the cells, the
    object and the patch type of the field as they are; the boundary it
    leaves is that of a freshly built test field, whatever the boundary held
    before; and applying it again changes nothing. *)
Theorem initBoundaryFields_overwrites_boundary_only (mesh : fvMesh)
  (type : testType) (field : volScalarField) :
  validType type ->
  map (@List.length R) (boundaryField field)
  = map (@List.length vector) (patchFaceCentres mesh) ->
  exists field',
    initBoundaryFields mesh type field = Ok field'
    /\ internalField field' = internalField field
    /\ io field' = io field
    /\ patchFieldType field' = patchFieldType field
    /\ boundaryField field' = boundaryField (analyticField mesh type)
    /\ initBoundaryFields mesh type field' = Ok field'.
Proof.
  intros Hv Hs. eexists. split; [apply (initBoundaryFields_valid _ _ Hv Hs)|].
  repeat split.
  rewrite initBoundaryFields_valid; [reflexivity|exact Hv|].
  simpl. rewrite map_map. apply map_ext. intros a. apply length_map.
Qed.

Lemma initBoundaryFields_overwrites_boundary_only_witness :
  exists field',
    initBoundaryFields twoCells LINEAR (alphaOn twoCells [3; 5] [[7; 7]])
    = Ok field'
    /\ internalField field' = [3; 5]
    /\ io field' = io (alphaOn twoCells [3; 5] [[7; 7]])
    /\ patchFieldType field' = "fixedValue"
    /\ boundaryField field' = boundaryField (analyticField twoCells LINEAR)
    /\ initBoundaryFields twoCells LINEAR field' = Ok field'.
Proof.
  apply (@initBoundaryFields_overwrites_boundary_only twoCells LINEAR
           (alphaOn twoCells [3; 5] [[7; 7]])).
  - unfold validType, LINEAR. lia.
  - reflexivity.
Defined.

(** ** Edge cases of the error analysis *)

Lemma analyticValue_unknown (type : testType) (x : vector) :
  ~ validType type -> analyticValue type x = 0.
Proof.
  intros Hn. destruct (unknown_type_tests Hn) as (E0 & E1 & E2 & E3 & E4).
  unfold analyticValue. now rewrite E0, E1, E2, E3, E4.
Qed.

Lemma switchExact_unknown (type : testType) (x : vector) (e : R) :
  ~ validType type -> switchExact type x e = Ok e.
Proof.
  intros Hn. destruct (unknown_type_tests Hn) as (E0 & E1 & E2 & E3 & E4).
  unfold switchExact. now rewrite E0, E1, E2, E3, E4.
Qed.

Lemma sourceLoop_unknown (type : testType) (mesh : fvMesh) (F : list R) :
  ~ validType type ->
  (List.length F <= nCells mesh)%nat ->
  sourceLoop type (cellCentres mesh) F
  = Ok (ErrorVars
          (sumCells (List.length F)
             (fun i => cellError type mesh F i * cellError type mesh F i))
          (linfError type mesh F) 0.0 []).
Proof.
  intros Hn. induction F as [|a F IH] using rev_ind; intros Hl.
  - unfold sourceLoop, linfError. simpl. decimals. reflexivity.
  - rewrite length_app in Hl. simpl in Hl.
    specialize (IH ltac:(lia)). unfold sourceLoop in *.
    rewrite forAllAcc_app, IH. simpl.
    rewrite (at_in_range _ vzero) by (rewrite length_cellCentres; lia).
    simpl. rewrite (switchExact_unknown _ _ Hn). simpl.
    rewrite sumError_snoc, linfError_snoc.
    rewrite (analyticValue_unknown _ Hn). decimals. reflexivity.
Qed.

Lemma targetLoop_unknown (type : testType) (mesh : fvMesh) (F : list R) :
  ~ validType type ->
  (List.length F <= nCells mesh)%nat ->
  targetLoop type (cellCentres mesh) F
  = Ok (ErrorVars
          (sumCells (List.length F)
             (fun i => cellError type mesh F i * cellError type mesh F i))
          (linfError type mesh F) 0.0 (perCellAbsError type mesh F)).
Proof.
  intros Hn. induction F as [|a F IH] using rev_ind; intros Hl.
  - unfold targetLoop, linfError. simpl. decimals. reflexivity.
  - rewrite length_app in Hl. simpl in Hl.
    specialize (IH ltac:(lia)). unfold targetLoop in *.
    rewrite forAllAcc_app, IH. simpl.
    rewrite (at_in_range _ vzero) by (rewrite length_cellCentres; lia).
    simpl. rewrite (switchExact_unknown _ _ Hn). simpl.
    rewrite sumError_snoc, linfError_snoc, perCellAbsError_snoc.
    rewrite (analyticValue_unknown _ Hn). decimals. reflexivity.
Qed.

Lemma cellError_unknown (type : testType) (mesh : fvMesh) (F : list R) (i : nat) :
  ~ validType type -> cellError type mesh F i = nth i F 0.
Proof.
  intros Hn. unfold cellError. rewrite (analyticValue_unknown _ Hn). lra.
Qed.

Lemma printNorms_run (title : string) (l2 linf dx : R) (n : nat) (w : world) :
  printNorms title l2 linf dx n w
  = Ok (tt, World (files w) (trace w ++ normsLines title l2 linf dx n)).
Proof.
  unfold printNorms, bindM, info, emit, ret. cbn [files trace].
  rewrite <- !app_assoc. reflexivity.
Qed.

(** The error analysis, once its two loops have completed. *)
Lemma computeError_from_loops (fieldSource fieldTarget : volScalarField)
  (type : testType) (w : world) (s t : errorVars) :
  sourceLoop type (cellCentres (fieldMesh fieldSource))
    (internalField fieldSource) = Ok s ->
  targetLoop type (cellCentres (fieldMesh fieldTarget))
    (internalField fieldTarget) = Ok t ->
  internalField fieldSource <> [] ->
  internalField fieldTarget <> [] ->
  computeError fieldSource fieldTarget type w
  = Ok (cellErrors t,
        World (files w)
          (trace w
           ++ normsLines "      Source       "
                (sqrt (sumError s / INR (List.length (internalField fieldSource))))
                (maxError s)
                (effectiveSpacing (List.length (internalField fieldSource)))
                (List.length (internalField fieldSource))
           ++ normsLines "      Target       "
                (sqrt (sumError t / INR (List.length (internalField fieldTarget))))
                (maxError t)
                (effectiveSpacing (List.length (internalField fieldTarget)))
                (List.length (internalField fieldTarget)))%list).
Proof.
  intros Es Et Hs Ht.
  unfold computeError. unfold bindM at 1. unfold lift at 1. rewrite Es.
  unfold bindM at 1. unfold lift at 1. rewrite Et.
  unfold bindM at 1. unfold lift at 1. rewrite (sdiv_ok _ (size_neq_0 Hs)).
  cbn [bindR].
  unfold bindM at 1. unfold lift at 1. rewrite (sdiv_ok _ (size_neq_0 Ht)).
  cbn [bindR].
  unfold bindM at 1. unfold lift at 1. rewrite (sdiv_ok _ (size_neq_0 Hs)).
  cbn [bindR].
  unfold bindM at 1. rewrite printNorms_run.
  unfold bindM at 1. unfold lift at 1. rewrite (sdiv_ok _ (size_neq_0 Ht)).
  cbn [bindR].
  unfold bindM at 1. rewrite printNorms_run.
  unfold ret. cbn [files trace]. rewrite <- app_assoc.
  unfold effectiveSpacing, size. decimals. reflexivity.
Qed.

(** X4.  For a value outside the enumeration the error analysis does not
    stop: the exact value stays at its initial 0.0 in every cell, so that the
    report holds the root mean square and the largest magnitude of the field
    values themselves, and the per-cell error field their magnitudes. *)
Theorem computeError_unknown_kind_measures_against_zero
  (fieldSource fieldTarget : volScalarField) (type : testType) (w : world) :
  ~ validType type ->
  internalField fieldSource <> [] ->
  internalField fieldTarget <> [] ->
  (List.length (internalField fieldSource) <= nCells (fieldMesh fieldSource))%nat ->
  (List.length (internalField fieldTarget) <= nCells (fieldMesh fieldTarget))%nat ->
  computeError fieldSource fieldTarget type w
  = Ok (map Rabs (internalField fieldTarget),
        World (files w)
          (trace w
           ++ normsLines "      Source       "
                (rootMeanSquare (internalField fieldSource))
                (largestMagnitude (internalField fieldSource))
                (effectiveSpacing (List.length (internalField fieldSource)))
                (List.length (internalField fieldSource))
           ++ normsLines "      Target       "
                (rootMeanSquare (internalField fieldTarget))
                (largestMagnitude (internalField fieldTarget))
                (effectiveSpacing (List.length (internalField fieldTarget)))
                (List.length (internalField fieldTarget)))%list).
Proof.
  intros Hn Hs Ht Hls Hlt.
  assert (Erms : forall mesh F,
            sumCells (List.length F)
              (fun i => cellError type mesh F i * cellError type mesh F i)
            = sumCells (List.length F) (fun i => nth i F 0 * nth i F 0)).
  { intros mesh F. apply sumCells_ext. intros i _.
    now rewrite (cellError_unknown mesh F i Hn). }
  assert (Emax : forall mesh F, linfError type mesh F = largestMagnitude F).
  { intros mesh F. apply maxCells_ext. intros i _.
    now rewrite (cellError_unknown mesh F i Hn). }
  assert (Ecells : forall mesh F, perCellAbsError type mesh F = map Rabs F).
  { intros mesh F. unfold perCellAbsError.
    rewrite (@map_ext _ _ _ (fun i => Rabs (nth i F 0)))
      by (intros i; now rewrite (cellError_unknown mesh F i Hn)).
    clear. induction F as [|a F IH] using rev_ind; [reflexivity|].
    rewrite length_app, Nat.add_1_r, seq_S, !map_app. simpl.
    rewrite app_nth2, Nat.sub_diag by lia. simpl. f_equal.
    rewrite <- IH. apply map_ext_in. intros i Hi. apply in_seq in Hi.
    now rewrite app_nth1 by lia. }
  rewrite (@computeError_from_loops fieldSource fieldTarget type w _ _
             (sourceLoop_unknown _ _ Hn Hls) (targetLoop_unknown _ _ Hn Hlt)
             Hs Ht).
  cbn [sumError maxError cellErrors].
  rewrite !Erms, !Emax, Ecells. reflexivity.
Qed.

Lemma computeError_unknown_kind_measures_against_zero_witness :
  exists result,
    computeError (alphaOn twoCells [3; 5] [[7; 7]])
      (alphaOn twoCells [3; 5] [[7; 7]]) 7%Z emptyWorld = Ok result
    /\ fst result = map Rabs [3; 5].
Proof.
  eexists. split.
  - apply (@computeError_unknown_kind_measures_against_zero
             (alphaOn twoCells [3; 5] [[7; 7]])
             (alphaOn twoCells [3; 5] [[7; 7]]) 7%Z emptyWorld).
    + unfold validType. lia.
    + discriminate.
    + discriminate.
    + unfold nCells. simpl. lia.
    + unfold nCells. simpl. lia.
  - reflexivity.
Defined.

(** ** Bounds of the error norms *)

Lemma maxCells_nonneg (n : nat) (g : nat -> R) : 0 <= maxCells n g.
Proof.
  induction n as [|n IH]; simpl; [lra|].
  eapply Rle_trans; [exact IH|apply Rmax_l].
Qed.

Lemma effectiveSpacing_bounds (n : nat) :
  n <> 0%nat -> 0 < effectiveSpacing n <= 1.
Proof.
  intros Hn. unfold effectiveSpacing, cbrt.
  assert (H1 : 1 <= INR n).
  { change 1 with (INR 1). apply le_INR. lia. }
  assert (Hpos : 0 < 1 / INR n) by (apply Rdiv_lt_0_compat; lra).
  destruct (Rlt_dec 0 (1 / INR n)); [|contradiction].
  split; [apply exp_pos|].
  assert (Hln : ln (1 / INR n) <= 0).
  { rewrite <- ln_1. destruct (Req_dec (INR n) 1) as [E|E].
    - rewrite E. replace (1 / 1) with 1 by lra. lra.
    - left. apply ln_increasing; [exact Hpos|].
      apply Rmult_lt_reg_r with (INR n); [lra|].
      unfold Rdiv. rewrite Rmult_assoc, Rinv_l by lra. lra. }
  destruct (Req_dec (ln (1 / INR n) / 3) 0) as [E|E].
  - rewrite E, exp_0. lra.
  - assert (Hlt : exp (ln (1 / INR n) / 3) < exp 0)
      by (apply exp_increasing; lra).
    rewrite exp_0 in Hlt. lra.
Qed.

(** The spacing of the report is 1 for a field of one cell and for no
    other. *)
Lemma effectiveSpacing_one (n : nat) :
  n <> 0%nat -> (effectiveSpacing n = 1 <-> n = 1%nat).
Proof.
  intros Hn. unfold effectiveSpacing, cbrt.
  assert (H1 : 1 <= INR n).
  { change 1 with (INR 1). apply le_INR. lia. }
  assert (Hpos : 0 < 1 / INR n) by (apply Rdiv_lt_0_compat; lra).
  destruct (Rlt_dec 0 (1 / INR n)); [|contradiction].
  split.
  - intros E.
    assert (E0 : exp (ln (1 / INR n) / 3) = exp 0) by (rewrite exp_0; exact E).
    apply exp_inv in E0.
    assert (Eln : ln (1 / INR n) = ln 1) by (rewrite ln_1; lra).
    apply ln_inv in Eln; [|exact Hpos|lra].
    assert (En : INR n = INR 1).
    { simpl. apply Rmult_eq_reg_l with (1 / INR n); [|lra].
      rewrite Eln at 2. unfold Rdiv. rewrite Rmult_1_l, Rinv_l by lra. lra. }
    now apply INR_eq in En.
  - intros ->. simpl. replace (1 / 1) with 1 by lra.
    rewrite ln_1. replace (0 / 3) with 0 by lra. apply exp_0.
Qed.

(** X6.  In the report of the error analysis, on a value of the enumeration
    and fields with at least one cell: the L2 errors and the Linf errors are
    not negative; the spacing printed lies in (0, 1], and it is 1 for a
    field of one cell only; the per-cell error field has one entry per cell
    of the target, no entry is negative or exceeds the Linf error of the
    target, and the Linf error of the target is one of the entries. *)
Theorem computeError_norms_are_bounded
  (fieldSource fieldTarget : volScalarField) (type : testType) (w : world) :
  validType type ->
  internalField fieldSource <> [] ->
  internalField fieldTarget <> [] ->
  (List.length (internalField fieldSource) <= nCells (fieldMesh fieldSource))%nat ->
  (List.length (internalField fieldTarget) <= nCells (fieldMesh fieldTarget))%nat ->
  exists (iError : list R) (sL2 sLinf sdx tL2 tLinf tdx : R),
    computeError fieldSource fieldTarget type w
    = Ok (iError,
          World (files w)
            (trace w
             ++ normsLines "      Source       " sL2 sLinf sdx
                  (List.length (internalField fieldSource))
             ++ normsLines "      Target       " tL2 tLinf tdx
                  (List.length (internalField fieldTarget)))%list)
    /\ 0 <= sL2 /\ 0 <= sLinf /\ 0 <= tL2 /\ 0 <= tLinf
    /\ 0 < sdx <= 1 /\ 0 < tdx <= 1
    /\ (sdx = 1 <-> List.length (internalField fieldSource) = 1%nat)
    /\ (tdx = 1 <-> List.length (internalField fieldTarget) = 1%nat)
    /\ List.length iError = List.length (internalField fieldTarget)
    /\ Forall (fun e => 0 <= e <= tLinf) iError
    /\ In tLinf iError.
Proof.
  intros Hv Hs Ht Hls Hlt.
  assert (HnS : List.length (internalField fieldSource) <> 0%nat)
    by (destruct (internalField fieldSource); [congruence|discriminate]).
  assert (HnT : List.length (internalField fieldTarget) <> 0%nat)
    by (destruct (internalField fieldTarget); [congruence|discriminate]).
  do 7 eexists. split;
    [apply (@computeError_valid fieldSource fieldTarget type w Hv Hs Ht Hls Hlt)|].
  split; [apply sqrt_pos|]. split; [apply maxCells_nonneg|].
  split; [apply sqrt_pos|]. split; [apply maxCells_nonneg|].
  split; [apply effectiveSpacing_bounds; exact HnS|].
  split; [apply effectiveSpacing_bounds; exact HnT|].
  split; [apply effectiveSpacing_one; exact HnS|].
  split; [apply effectiveSpacing_one; exact HnT|].
  split; [unfold perCellAbsError; now rewrite length_map, length_seq|].
  split.
  - unfold perCellAbsError. apply Forall_forall. intros e He.
    apply in_map_iff in He. destruct He as [i [<- Hi]]. apply in_seq in Hi.
    split; [apply Rabs_pos|].
    apply (maxCells_upper
             (fun i => Rabs (cellError type (fieldMesh fieldTarget)
                               (internalField fieldTarget) i))).
    lia.
  - destruct (proj2 (@linfError_is_maximum type (fieldMesh fieldTarget)
                       (internalField fieldTarget) Ht)) as (i & Hi & Ei).
    rewrite Ei. unfold perCellAbsError. apply in_map_iff.
    exists i. split; [reflexivity|]. apply in_seq. lia.
Qed.

Lemma computeError_norms_are_bounded_witness :
  exists (iError : list R) (sL2 sLinf sdx tL2 tLinf tdx : R),
    computeError (alphaOn twoCells [3; 5] [[7; 7]])
      (alphaOn threeCells [1; 1; 1] [[0]; [0]]) SINUSOID_3D emptyWorld
    = Ok (iError,
          World (files emptyWorld)
            (trace emptyWorld
             ++ normsLines "      Source       " sL2 sLinf sdx 2
             ++ normsLines "      Target       " tL2 tLinf tdx 3)%list)
    /\ 0 <= sL2 /\ 0 <= sLinf /\ 0 <= tL2 /\ 0 <= tLinf
    /\ 0 < sdx <= 1 /\ 0 < tdx <= 1
    /\ (sdx = 1 <-> 2%nat = 1%nat)
    /\ (tdx = 1 <-> 3%nat = 1%nat)
    /\ List.length iError = 3%nat
    /\ Forall (fun e => 0 <= e <= tLinf) iError
    /\ In tLinf iError.
Proof.
  apply (@computeError_norms_are_bounded (alphaOn twoCells [3; 5] [[7; 7]])
           (alphaOn threeCells [1; 1; 1] [[0]; [0]]) SINUSOID_3D emptyWorld).
  - unfold validType, SINUSOID_3D. lia.
  - discriminate.
  - discriminate.
  - unfold nCells. simpl. lia.
  - unfold nCells. simpl. lia.
Defined.

(** ** The mapping test *)

(** The run of the mapping test. *)
Lemma testMappingError_run
  (interpolateGrad : conservativeMeshToMesh -> volScalarField ->
                     volScalarField -> volVectorField -> label -> volScalarField)
  (type : testType) (meshSource meshTarget : fvMesh)
  (method nThreads : label) (forceRecalc writeAddr : bool) (w : world) :
  (forall m target source grad method mesh,
      onMesh mesh target ->
      onMesh mesh (interpolateGrad m target source grad method)) ->
  validType type -> regular meshSource type ->
  nCells meshSource <> 0%nat -> nCells meshTarget <> 0%nat ->
  let meshToMeshInterp :=
    MeshToMesh meshSource meshTarget nThreads forceRecalc writeAddr in
  let zeroTarget : volScalarField :=
    newField (IOobject_ "alpha" (timeName meshTarget) meshTarget NO_READ NO_WRITE)
      meshTarget 0 "fixedValue" in
  let mapped :=
    interpolateGrad meshToMeshInterp zeroTarget (analyticField meshSource type)
      (analyticGradField meshSource type) method in
  testMappingError interpolateGrad type meshSource meshTarget method nThreads
    forceRecalc writeAddr w
  = Ok (perCellAbsError type meshTarget (internalField mapped),
        World (files w)
          (trace w
           ++ [InterpolateCall meshToMeshInterp (ScalarField zeroTarget)
                 (ScalarField (analyticField meshSource type))
                 (Some (VectorField (analyticGradField meshSource type)))
                 method]
           ++ normsLines "      Source       " 0 0
                (effectiveSpacing (nCells meshSource)) (nCells meshSource)
           ++ normsLines "      Target       "
                (l2Error type meshTarget (internalField mapped))
                (linfError type meshTarget (internalField mapped))
                (effectiveSpacing (nCells meshTarget)) (nCells meshTarget))%list).
Proof.
  intros Hshape Hv HrS HnS HnT meshToMeshInterp zeroTarget mapped.
  assert (HZ : onMesh meshTarget zeroTarget) by apply newField_onMesh.
  assert (HM : onMesh meshTarget mapped) by (apply Hshape; exact HZ).
  pose proof (analyticField_onMesh meshSource type) as HS.
  unfold testMappingError.
  unfold bindM at 1. unfold lift at 1. rewrite (initTestField_regular Hv HrS).
  unfold bindM at 1. unfold lift at 1. unfold initTestField.
  cbn [fst snd]. rewrite dec_0.
  fold zeroTarget meshToMeshInterp.
  unfold bindM at 1. unfold interpolateWithGrad, bindM, emit, ret.
  cbn [files trace]. fold mapped.
  destruct HM as (EmT & ElT & HbT). destruct HS as (EmS & ElS & HbS).
  rewrite computeError_valid;
    [ | exact Hv
      | exact (onMesh_cells_nonempty (conj EmS (conj ElS HbS)) HnS)
      | exact (onMesh_cells_nonempty (conj EmT (conj ElT HbT)) HnT)
      | rewrite EmS, ElS; apply Nat.le_refl
      | rewrite EmT, ElT; apply Nat.le_refl ].
  cbn [files trace]. rewrite EmS, EmT, ElS, ElT.
  unfold analyticField at 1 2 3. cbn [internalField].
  destruct (analytic_norms type meshSource) as (-> & -> & _).
  rewrite <- !app_assoc. reflexivity.
Qed.

(** X7.  For a mapper that returns a field of the shape of its target, on
    a value of the enumeration, a source mesh without a cell at the singular
    point of that kind, and two meshes with at least one cell,
    [testMappingError] completes.  It calls the mapper once, with the zero
    target field, the analytic source field and its gradient; the trace holds
    no write of a field and the stored fields are as before (what the
    constructor of the mapper does is library code and no part of this
    statement); the source block of its report shows the errors 0, the
    target block the errors of the cell values the mapper returned, and the
    result holds their per-cell magnitudes. *)
Theorem testMappingError_maps_into_zero_field
  (interpolateGrad : conservativeMeshToMesh -> volScalarField ->
                     volScalarField -> volVectorField -> label -> volScalarField)
  (type : testType) (meshSource meshTarget : fvMesh)
  (method nThreads : label) (forceRecalc writeAddr : bool) (w : world) :
  (forall m target source grad method mesh,
      onMesh mesh target ->
      onMesh mesh (interpolateGrad m target source grad method)) ->
  validType type -> regular meshSource type ->
  nCells meshSource <> 0%nat -> nCells meshTarget <> 0%nat ->
  let meshToMeshInterp :=
    MeshToMesh meshSource meshTarget nThreads forceRecalc writeAddr in
  let zeroTarget : volScalarField :=
    newField (IOobject_ "alpha" (timeName meshTarget) meshTarget NO_READ NO_WRITE)
      meshTarget 0 "fixedValue" in
  let mapped :=
    interpolateGrad meshToMeshInterp zeroTarget (analyticField meshSource type)
      (analyticGradField meshSource type) method in
  testMappingError interpolateGrad type meshSource meshTarget method nThreads
    forceRecalc writeAddr w
  = Ok (perCellAbsError type meshTarget (internalField mapped),
        World (files w)
          (trace w
           ++ [InterpolateCall meshToMeshInterp (ScalarField zeroTarget)
                 (ScalarField (analyticField meshSource type))
                 (Some (VectorField (analyticGradField meshSource type)))
                 method]
           ++ normsLines "      Source       " 0 0
                (effectiveSpacing (nCells meshSource)) (nCells meshSource)
           ++ normsLines "      Target       "
                (l2Error type meshTarget (internalField mapped))
                (linfError type meshTarget (internalField mapped))
                (effectiveSpacing (nCells meshTarget)) (nCells meshTarget))%list).
Proof.
  intros Hshape Hv HrS HnS HnT.
  exact (@testMappingError_run interpolateGrad type meshSource meshTarget
           method nThreads forceRecalc writeAddr w Hshape Hv HrS HnS HnT).
Qed.

Lemma testMappingError_maps_into_zero_field_witness :
  exists result,
    testMappingError firstCellMapperGrad LINEAR twoCells threeCells 0%Z 1%Z
      false false emptyWorld = Ok result
    /\ files (snd result) = files emptyWorld.
Proof.
  eexists. split.
  - apply (@testMappingError_maps_into_zero_field firstCellMapperGrad LINEAR
             twoCells threeCells 0%Z 1%Z false false emptyWorld
             firstCellMapperGrad_keeps_shape).
    + unfold validType, LINEAR. lia.
    + intros E. discriminate E.
    + discriminate.
    + discriminate.
  - reflexivity.
Defined.

(** X8.  For a value outside the enumeration neither test routine
    completes: [testMappingError] and [testCyclicRemap] end with the fatal
    error of [initTestField], "Unknown enumerant for initialisation.", for
    every mapper, pair of meshes, method, number of cycles and world. *)
Theorem test_routines_reject_unknown_kind
  (interpolateGrad : conservativeMeshToMesh -> volScalarField ->
                     volScalarField -> volVectorField -> label -> volScalarField)
  (nCycles : label) (type : testType) (meshSource meshTarget : fvMesh)
  (method nThreads : label) (forceRecalc writeAddr : bool) (w : world) :
  ~ validType type ->
  testMappingError interpolateGrad type meshSource meshTarget method nThreads
    forceRecalc writeAddr w
  = Err (FatalError initTestField_name "Unknown enumerant for initialisation.")
  /\ testCyclicRemap interpolateGrad nCycles type meshSource meshTarget method
       nThreads forceRecalc writeAddr w
     = Err (FatalError initTestField_name
              "Unknown enumerant for initialisation.").
Proof.
  intros Hn. split.
  - unfold testMappingError. unfold bindM at 1. unfold lift at 1.
    now rewrite (initTestField_unknown meshSource Hn).
  - unfold testCyclicRemap. unfold bindM at 1. unfold lift at 1.
    now rewrite (initTestField_unknown meshSource Hn).
Qed.

Lemma test_routines_reject_unknown_kind_witness :
  testMappingError firstCellMapperGrad 7%Z twoCells threeCells 0%Z 1%Z
    false false emptyWorld
  = Err (FatalError initTestField_name "Unknown enumerant for initialisation.")
  /\ testCyclicRemap firstCellMapperGrad 250%Z 7%Z twoCells threeCells 0%Z 1%Z
       false false emptyWorld
     = Err (FatalError initTestField_name
              "Unknown enumerant for initialisation.").
Proof.
  apply (@test_routines_reject_unknown_kind firstCellMapperGrad 250%Z 7%Z
           twoCells threeCells 0%Z 1%Z false false emptyWorld).
  unfold validType. lia.
Defined.

(** ** What the cyclic test writes, and its shortest runs *)

(** The calls of the cycling end with a forward call on a target field of
    the target mesh, and the target field holds what that call produced, with
    the boundary re-asserted; no field is written on the way. *)
Lemma cyclesCalls_end
  (interpolateGrad : conservativeMeshToMesh -> volScalarField ->
                     volScalarField -> volVectorField -> label -> volScalarField)
  (type : testType) (meshSource meshTarget : fvMesh)
  (sourceToTarget targetToSource : conservativeMeshToMesh)
  (gS gT : volVectorField) (method : label) :
  (forall m target source grad method mesh,
      onMesh mesh target ->
      onMesh mesh (interpolateGrad m target source grad method)) ->
  forall (n : nat) (fields : volScalarField * volScalarField)
         (t s : volScalarField) (before : list event),
    onMesh meshTarget t ->
    snd fields
    = reassert meshTarget type (interpolateGrad sourceToTarget t s gS method) ->
    filter isWrite before = [] ->
    exists (before' : list event) (t' s' : volScalarField),
      (before
       ++ [InterpolateCall sourceToTarget (ScalarField t) (ScalarField s)
             (Some (VectorField gS)) method]
       ++ cyclesCalls interpolateGrad type meshSource meshTarget sourceToTarget
            targetToSource gS gT method n fields)%list
      = (before'
         ++ [InterpolateCall sourceToTarget (ScalarField t') (ScalarField s')
               (Some (VectorField gS)) method])%list
      /\ snd (cyclesFields interpolateGrad type meshSource meshTarget
                sourceToTarget targetToSource gS gT method n fields)
         = reassert meshTarget type
             (interpolateGrad sourceToTarget t' s' gS method)
      /\ onMesh meshTarget t'
      /\ filter isWrite before' = [].
Proof.
  intros Hshape. induction n as [|n IH]; intros [fS fT] t s before Ht E Hb.
  - exists before, t, s. split; [reflexivity|].
    split; [exact E|]. split; [exact Ht|exact Hb].
  - cbn [cyclesCalls cyclesFields].
    assert (HfT : onMesh meshTarget fT).
    { simpl in E. rewrite E. apply onMesh_reassert, Hshape, Ht. }
    destruct (IH (cycleFields interpolateGrad type meshSource meshTarget
                    sourceToTarget targetToSource gS gT method (fS, fT))
                (reassert meshTarget type fT)
                (reassert meshSource type
                   (interpolateGrad targetToSource fS fT gT method))
                (before
                 ++ [InterpolateCall sourceToTarget (ScalarField t)
                       (ScalarField s) (Some (VectorField gS)) method;
                     InterpolateCall targetToSource (ScalarField fS)
                       (ScalarField fT) (Some (VectorField gT)) method])%list
                (onMesh_reassert type HfT) eq_refl)
      as (before' & t' & s' & E1 & E2 & Ht' & Hb').
    { rewrite filter_app, Hb. reflexivity. }
    exists before', t', s'.
    split; [|split; [exact E2|split; [exact Ht'|exact Hb']]].
    rewrite <- E1. unfold cycleCalls. rewrite <- !app_assoc. reflexivity.
Qed.

(** X9.  A completed cyclic test writes exactly three fields.  The first two
    writes, made before any call on the mapper, are of the source field and
    of the source gradient field as [initTestField] returned them.  The
    third write comes right after the last call on the mapper, which is a
    forward remap, and is of the target field that call returned, with its
    boundary populated by [initBoundaryFields].  Nothing is written in
    between or afterwards (neither the remapped source field nor the target
    gradient field), no call on the mapper follows the third write, and the
    stored files are those three fields put over the files of before. *)
Theorem testCyclicRemap_writes_three_fields
  (interpolateGrad : conservativeMeshToMesh -> volScalarField ->
                     volScalarField -> volVectorField -> label -> volScalarField)
  (nCycles : label) (type : testType) (meshSource meshTarget : fvMesh)
  (method nThreads : label) (forceRecalc writeAddr : bool) (w : world)
  (fS0 fT0 : volScalarField) (gS0 gT0 : volVectorField) :
  (forall m target source grad method mesh,
      onMesh mesh target ->
      onMesh mesh (interpolateGrad m target source grad method)) ->
  initTestField meshSource type true = Ok (fS0, gS0) ->
  initTestField meshTarget type true = Ok (fT0, gT0) ->
  nCells meshSource <> 0%nat -> nCells meshTarget <> 0%nat ->
  let sourceToTarget :=
    MeshToMesh meshSource meshTarget nThreads forceRecalc writeAddr in
  exists (before after : list event)
         (lastTarget lastSource finalTarget : volScalarField) (w' : world),
    testCyclicRemap interpolateGrad nCycles type meshSource meshTarget method
      nThreads forceRecalc writeAddr w = Ok (tt, w')
    /\ initBoundaryFields meshTarget type
         (interpolateGrad sourceToTarget lastTarget lastSource gS0 method)
       = Ok finalTarget
    /\ trace w'
       = (trace w
          ++ [WriteField (ScalarField fS0); WriteField (VectorField gS0)]
          ++ before
          ++ [InterpolateCall sourceToTarget (ScalarField lastTarget)
                (ScalarField lastSource) (Some (VectorField gS0)) method;
              WriteField (ScalarField finalTarget)]
          ++ after)%list
    /\ filter isWrite before = [] /\ filter isWrite after = []
    /\ filter isCall after = []
    /\ files w'
       = putFile (putFile (putFile (files w) (io fS0) (ScalarField fS0))
                    (io gS0) (VectorField gS0))
           (io finalTarget) (ScalarField finalTarget).
Proof.
  intros Hshape Es Et HnS HnT sourceToTarget.
  destruct (initTestField_Ok_inv _ _ Es) as (Hv & HrS & -> & ->).
  destruct (initTestField_Ok_inv _ _ Et) as (_ & HrT & -> & ->).
  pose proof (@testCyclicRemap_run interpolateGrad nCycles type meshSource
                meshTarget method nThreads forceRecalc writeAddr w
                Hshape Hv HrS HrT HnS HnT) as Run.
  cbv zeta in Run. fold sourceToTarget in Run.
  set (targetToSource :=
         MeshToMesh meshTarget meshSource nThreads forceRecalc writeAddr) in *.
  set (fS := analyticField meshSource type) in *.
  set (gS := analyticGradField meshSource type) in *.
  set (fT := analyticField meshTarget type) in *.
  set (gT := analyticGradField meshTarget type) in *.
  set (start := (reassert meshSource type fS,
                 reassert meshTarget type
                   (interpolateGrad sourceToTarget fT fS gS method))) in *.
  set (n := Z.to_nat (nCycles - 1)) in *.
  destruct (@cyclesCalls_end interpolateGrad type meshSource meshTarget
              sourceToTarget targetToSource gS gT method Hshape n start fT fS
              [InfoLine " Remapping for " (LabelValue nCycles);
               InfoLine " cycles..." NoValue]
              (analyticField_onMesh meshTarget type) eq_refl eq_refl)
    as (before & lastTarget & lastSource & Ecalls & Efinal & HlT & Hb).
  set (final := cyclesFields interpolateGrad type meshSource meshTarget
                  sourceToTarget targetToSource gS gT method n start) in *.
  exists before,
    (tl (cyclicEpilogue type meshSource meshTarget fS (fst final) (snd final))),
    lastTarget, lastSource, (snd final).
  eexists. split; [exact Run|]. cbn [trace files].
  split.
  { rewrite (initBoundaryFields_valid meshTarget _ Hv
               (onMesh_shape (Hshape sourceToTarget lastTarget lastSource gS
                                method meshTarget HlT))).
    rewrite Efinal. reflexivity. }
  split.
  { apply (f_equal (fun l => (trace w ++ l)%list)).
    change ([WriteField (ScalarField fS); WriteField (VectorField gS);
             InfoLine " Remapping for " (LabelValue nCycles);
             InfoLine " cycles..." NoValue;
             InterpolateCall sourceToTarget (ScalarField fT) (ScalarField fS)
               (Some (VectorField gS)) method]
            ++ cyclesCalls interpolateGrad type meshSource meshTarget
                 sourceToTarget targetToSource gS gT method n start
            ++ cyclicEpilogue type meshSource meshTarget fS (fst final)
                 (snd final))%list
      with ([WriteField (ScalarField fS); WriteField (VectorField gS)]
            ++ ([InfoLine " Remapping for " (LabelValue nCycles);
                 InfoLine " cycles..." NoValue]
                ++ [InterpolateCall sourceToTarget (ScalarField fT)
                      (ScalarField fS) (Some (VectorField gS)) method]
                ++ cyclesCalls interpolateGrad type meshSource meshTarget
                     sourceToTarget targetToSource gS gT method n start)
            ++ cyclicEpilogue type meshSource meshTarget fS (fst final)
                 (snd final))%list.
    rewrite Ecalls. rewrite <- !app_assoc. reflexivity. }
  split; [exact Hb|].
  split; [reflexivity|]. split; reflexivity.
Qed.

Lemma testCyclicRemap_writes_three_fields_witness :
  exists w',
    testCyclicRemap firstCellMapperGrad 3%Z SINUSOID_2D twoCells threeCells
      0%Z 1%Z false false emptyWorld = Ok (tt, w')
    /\ List.length (filter isWrite (trace w')) = 3%nat.
Proof.
  assert (Hv : validType SINUSOID_2D) by (unfold validType, SINUSOID_2D; lia).
  assert (HrS : regular twoCells SINUSOID_2D) by (intros E; discriminate E).
  assert (HrT : regular threeCells SINUSOID_2D) by (intros E; discriminate E).
  destruct (@testCyclicRemap_writes_three_fields firstCellMapperGrad 3%Z
              SINUSOID_2D twoCells threeCells 0%Z 1%Z false false emptyWorld
              (analyticField twoCells SINUSOID_2D)
              (analyticField threeCells SINUSOID_2D)
              (analyticGradField twoCells SINUSOID_2D)
              (analyticGradField threeCells SINUSOID_2D)
              firstCellMapperGrad_keeps_shape
              (initTestField_regular Hv HrS) (initTestField_regular Hv HrT))
    as (before & after & lT & lS & fT & w' & Run & _ & Etr & Hb & Ha & _).
  - discriminate.
  - discriminate.
  - exists w'. split; [exact Run|].
    rewrite Etr. rewrite !filter_app, Hb, Ha. reflexivity.
Defined.

(** X10.  The loop of the cyclic test starts at 1: for [nCycles <= 1], zero
    and negative counts included, the test still performs the initial
    forward remap, of the analytic source field into the analytic (not the
    zero) target field, and no backward remap; the target it reports on is
    the result of that one call with its boundary re-asserted, and the
    source it reports on is the source as built. *)
Theorem testCyclicRemap_always_maps_once
  (interpolateGrad : conservativeMeshToMesh -> volScalarField ->
                     volScalarField -> volVectorField -> label -> volScalarField)
  (nCycles : label) (type : testType) (meshSource meshTarget : fvMesh)
  (method nThreads : label) (forceRecalc writeAddr : bool) (w : world) :
  (forall m target source grad method mesh,
      onMesh mesh target ->
      onMesh mesh (interpolateGrad m target source grad method)) ->
  validType type ->
  regular meshSource type -> regular meshTarget type ->
  nCells meshSource <> 0%nat -> nCells meshTarget <> 0%nat ->
  (nCycles <= 1)%Z ->
  let sourceToTarget :=
    MeshToMesh meshSource meshTarget nThreads forceRecalc writeAddr in
  let fS0 := analyticField meshSource type in
  let gS := analyticGradField meshSource type in
  let fT0 := analyticField meshTarget type in
  let finalTarget :=
    reassert meshTarget type (interpolateGrad sourceToTarget fT0 fS0 gS method) in
  exists w',
    testCyclicRemap interpolateGrad nCycles type meshSource meshTarget method
      nThreads forceRecalc writeAddr w = Ok (tt, w')
    /\ trace w'
       = (trace w
          ++ [WriteField (ScalarField fS0);
              WriteField (VectorField gS);
              InfoLine " Remapping for " (LabelValue nCycles);
              InfoLine " cycles..." NoValue;
              InterpolateCall sourceToTarget (ScalarField fT0)
                (ScalarField fS0) (Some (VectorField gS)) method]
          ++ cyclicEpilogue type meshSource meshTarget fS0 fS0 finalTarget)%list.
Proof.
  intros Hshape Hv HrS HrT HnS HnT Hc sourceToTarget fS0 gS fT0 finalTarget.
  pose proof (@testCyclicRemap_run interpolateGrad nCycles type meshSource
                meshTarget method nThreads forceRecalc writeAddr w
                Hshape Hv HrS HrT HnS HnT) as Run.
  cbv zeta in Run.
  replace (Z.to_nat (nCycles - 1)) with 0%nat in Run by lia.
  cbn [cyclesFields cyclesCalls fst snd app] in Run.
  eexists. split; [exact Run|]. cbn [trace].
  unfold cyclicEpilogue, reassert, setBoundary, l2Error, linfError, cellError,
    integral. cbn [internalField]. reflexivity.
Qed.

Lemma testCyclicRemap_always_maps_once_witness :
  exists w',
    testCyclicRemap firstCellMapperGrad 0%Z LINEAR twoCells threeCells 0%Z 1%Z
      false false emptyWorld = Ok (tt, w')
    /\ List.length (filter isCall (trace w')) = 1%nat.
Proof.
  destruct (@testCyclicRemap_always_maps_once firstCellMapperGrad 0%Z LINEAR
              twoCells threeCells 0%Z 1%Z false false emptyWorld
              firstCellMapperGrad_keeps_shape)
    as (w' & Run & Etr).
  - unfold validType, LINEAR. lia.
  - intros E. discriminate E.
  - intros E. discriminate E.
  - discriminate.
  - discriminate.
  - lia.
  - exists w'. split; [exact Run|]. rewrite Etr. reflexivity.
Defined.

(** ** The gradient field is the gradient of the scalar field *)

Lemma dlim_affine (F g : R -> R) (c0 K x l L0 : R) :
  (forall t, F t = c0 + g t * K) ->
  derivable_pt_lim g x l ->
  l * K = L0 ->
  derivable_pt_lim F x L0.
Proof.
  intros EF Hg <-.
  apply (derivable_pt_lim_ext (fun t => c0 + g t * K)%R);
    [intros t; symmetry; apply EF|].
  replace (l * K) with (0 + (l * K + g x * 0)) by ring.
  apply (derivable_pt_lim_plus (fun _ => c0) (fun t => g t * K)%R).
  - apply derivable_pt_lim_const.
  - apply (derivable_pt_lim_mult g (fun _ => K)); [exact Hg|].
    apply derivable_pt_lim_const.
Qed.

Lemma dlim_sin_linear (a x : R) :
  derivable_pt_lim (fun t => sin (a * t)) x (cos (a * x) * a).
Proof.
  apply (derivable_pt_lim_comp (fun t => a * t)%R sin).
  - pose proof (derivable_pt_lim_scal id a x 1 (derivable_pt_lim_id x)) as D.
    rewrite Rmult_1_r in D. exact D.
  - apply derivable_pt_lim_sin.
Qed.

Lemma dlim_hill (c x : R) :
  0 < (x - 0) * (x - 0) + c ->
  derivable_pt_lim
    (fun t => cos (PI * sqrt ((t - 0) * (t - 0) + c) / (sqrt 2 / 2)))
    x
    (PI / (sqrt ((x - 0) * (x - 0) + c) * (sqrt 2 / 2))
     * (- sin (PI * sqrt ((x - 0) * (x - 0) + c) / (sqrt 2 / 2)) * x)).
Proof.
  intros Hu.
  assert (Hr : 0 < sqrt ((x - 0) * (x - 0) + c)) by now apply sqrt_lt_R0.
  assert (H2 : 0 < sqrt 2) by (apply sqrt_lt_R0; lra).
  assert (Du : derivable_pt_lim (fun t => (t - 0) * (t - 0) + c) x (2 * x)).
  { apply (derivable_pt_lim_ext (fun t => c + (t * t) * 1)%R);
      [intros t; ring|].
    apply (@dlim_affine _ (fun t => t * t)%R c 1 x (2 * x));
      [reflexivity| |ring].
    replace (2 * x) with (1 * x + x * 1) by ring.
    apply (derivable_pt_lim_mult id id); apply derivable_pt_lim_id. }
  assert (Ds : derivable_pt_lim (fun t => sqrt ((t - 0) * (t - 0) + c)) x
                 (/ (2 * sqrt ((x - 0) * (x - 0) + c)) * (2 * x))).
  { apply (derivable_pt_lim_comp (fun t => (t - 0) * (t - 0) + c)%R sqrt);
      [exact Du|]. now apply derivable_pt_lim_sqrt. }
  assert (Dh : derivable_pt_lim
                 (fun t => PI * sqrt ((t - 0) * (t - 0) + c) / (sqrt 2 / 2)) x
                 (/ (2 * sqrt ((x - 0) * (x - 0) + c)) * (2 * x)
                  * (PI / (sqrt 2 / 2)))).
  { apply (@dlim_affine _ (fun t => sqrt ((t - 0) * (t - 0) + c)) 0
             (PI / (sqrt 2 / 2)) x
             (/ (2 * sqrt ((x - 0) * (x - 0) + c)) * (2 * x)));
      [|exact Ds|reflexivity].
    intros t. field. lra. }
  replace (PI / (sqrt ((x - 0) * (x - 0) + c) * (sqrt 2 / 2))
           * (- sin (PI * sqrt ((x - 0) * (x - 0) + c) / (sqrt 2 / 2)) * x))
    with (- sin (PI * sqrt ((x - 0) * (x - 0) + c) / (sqrt 2 / 2))
          * (/ (2 * sqrt ((x - 0) * (x - 0) + c)) * (2 * x)
             * (PI / (sqrt 2 / 2))))
    by (field; lra).
  apply (derivable_pt_lim_comp
           (fun t => PI * sqrt ((t - 0) * (t - 0) + c) / (sqrt 2 / 2))%R cos);
    [exact Dh|]. apply derivable_pt_lim_cos.
Qed.

Lemma radius_positive (x y z : R) :
  vmag (vsub (Vector x y z) hC) <> 0 ->
  0 < (x - 0) * (x - 0) + (y - 0) * (y - 0) + (z - 0) * (z - 0).
Proof.
  unfold vmag, vmagSqr, vsub, hC; simpl. intros Hr.
  destruct (Rlt_dec 0 ((x - 0) * (x - 0) + (y - 0) * (y - 0) + (z - 0) * (z - 0)))
    as [Hp|Hn]; [exact Hp|].
  exfalso. apply Hr. apply sqrt_neg_0. lra.
Qed.

Lemma dlim_hill_axis (c0 c x r : R) (F : R -> R) (L0 : R) :
  0 < (x - 0) * (x - 0) + c ->
  r = sqrt ((x - 0) * (x - 0) + c) ->
  (forall t, F t = c0 + cos (PI * sqrt ((t - 0) * (t - 0) + c) / (sqrt 2 / 2))) ->
  L0 = PI / (r * (sqrt 2 / 2)) * (- sin (PI * r / (sqrt 2 / 2)) * x) ->
  derivable_pt_lim F x L0.
Proof.
  intros Hu -> EF ->.
  eapply (@dlim_affine F
           (fun t => cos (PI * sqrt ((t - 0) * (t - 0) + c) / (sqrt 2 / 2)))
           c0 1 x); [intros t; rewrite EF; ring|now apply dlim_hill|ring].
Qed.

Ltac same_radius :=
  match goal with
  | |- _ + cos (PI * sqrt ?A / _) = _ + cos (PI * sqrt ?B / _) =>
      replace A with B by ring; reflexivity
  end.

Lemma analytic_partials (type : testType) (x y z : R) :
  validType type ->
  (type = COSINE_HILL_2D -> vmag (vsub (Vector x y z) hC) <> 0) ->
  derivable_pt_lim (fun t => analyticValue type (Vector t y z)) x
    (vx (analyticGradient type (Vector x y z)))
  /\ derivable_pt_lim (fun t => analyticValue type (Vector x t z)) y
       (vy (analyticGradient type (Vector x y z)))
  /\ derivable_pt_lim (fun t => analyticValue type (Vector x y t)) z
       (vz (analyticGradient type (Vector x y z))).
Proof.
  intros Hv Hr. each_type Hv; unfold analyticValue, analyticGradient;
    cbn [Z.eqb CONSTANT LINEAR SINUSOID_2D SINUSOID_3D COSINE_HILL_2D
         Pos.eqb vx vy vz vscale].
  - repeat split; apply derivable_pt_lim_const.
  - repeat split.
    + apply (@dlim_affine _ id (3 * y + z) 2 x 1);
        [intros t; unfold id; ring|apply derivable_pt_lim_id|ring].
    + apply (@dlim_affine _ id (2 * x + z) 3 y 1);
        [intros t; unfold id; ring|apply derivable_pt_lim_id|ring].
    + apply (@dlim_affine _ id (2 * x + 3 * y) 1 z 1);
        [intros t; unfold id; ring|apply derivable_pt_lim_id|ring].
  - repeat split.
    + eapply (@dlim_affine _ (fun t => sin (2 * PI * t)) 1
               (sin (2 * PI * y)) x);
        [intros t; ring|apply dlim_sin_linear|ring].
    + eapply (@dlim_affine _ (fun t => sin (2 * PI * t)) 1
               (sin (2 * PI * x)) y);
        [intros t; ring|apply dlim_sin_linear|ring].
    + apply (@dlim_affine _ id (1 + sin (2 * PI * x) * sin (2 * PI * y)) 0 z 1);
        [intros t; unfold id; ring|apply derivable_pt_lim_id|ring].
  - repeat split.
    + eapply (@dlim_affine _ (fun t => sin (2 * PI * t)) 1
               (sin (2 * PI * y) * sin (2 * PI * z)) x);
        [intros t; ring|apply dlim_sin_linear|ring].
    + eapply (@dlim_affine _ (fun t => sin (2 * PI * t)) 1
               (sin (2 * PI * x) * sin (2 * PI * z)) y);
        [intros t; ring|apply dlim_sin_linear|ring].
    + eapply (@dlim_affine _ (fun t => sin (2 * PI * t)) 1
               (sin (2 * PI * x) * sin (2 * PI * y)) z);
        [intros t; ring|apply dlim_sin_linear|ring].
  - pose proof (@radius_positive x y z (Hr eq_refl)) as Hu.
    unfold vmag, vmagSqr, vsub, hC. cbn [vx vy vz].
    repeat split.
    + apply (@dlim_hill_axis 2 ((y - 0) * (y - 0) + (z - 0) * (z - 0)) x
               (sqrt ((x - 0) * (x - 0) + (y - 0) * (y - 0) + (z - 0) * (z - 0))));
        [lra|f_equal; ring| |reflexivity].
      intros t. same_radius.
    + apply (@dlim_hill_axis 2 ((x - 0) * (x - 0) + (z - 0) * (z - 0)) y
               (sqrt ((x - 0) * (x - 0) + (y - 0) * (y - 0) + (z - 0) * (z - 0))));
        [lra|f_equal; ring| |reflexivity].
      intros t. same_radius.
    + apply (@dlim_hill_axis 2 ((x - 0) * (x - 0) + (y - 0) * (y - 0)) z
               (sqrt ((x - 0) * (x - 0) + (y - 0) * (y - 0) + (z - 0) * (z - 0))));
        [lra|f_equal; ring| |reflexivity].
      intros t. same_radius.
Qed.

(** X11.  When the populated construction returns, the gradient it stored in
    a cell is the gradient, at the cell centre, of the function whose value
    it stored there, the function that the error analysis evaluates as the
    exact solution: each component is the partial derivative along its
    axis. *)
Theorem initTestField_gradient_is_derivative (mesh : fvMesh) (type : testType)
  (f : volScalarField) (g : volVectorField) (i : nat) (x y z : R) :
  initTestField mesh type true = Ok (f, g) ->
  nth_error (cellCentres mesh) i = Some (Vector x y z) ->
  exists gradient : vector,
    nth_error (internalField f) i = Some (analyticValue type (Vector x y z))
    /\ nth_error (internalField g) i = Some gradient
    /\ (forall p e, switchExact type p e = Ok (analyticValue type p))
    /\ derivable_pt_lim (fun t => analyticValue type (Vector t y z)) x
         (vx gradient)
    /\ derivable_pt_lim (fun t => analyticValue type (Vector x t z)) y
         (vy gradient)
    /\ derivable_pt_lim (fun t => analyticValue type (Vector x y t)) z
         (vz gradient).
Proof.
  intros E Hc.
  destruct (initTestField_Ok_inv _ _ E) as (Hv & Hr & -> & ->).
  exists (analyticGradient type (Vector x y z)).
  unfold analyticField, analyticGradField. cbn [internalField].
  rewrite !nth_error_map, Hc. cbn [option_map].
  split; [reflexivity|]. split; [reflexivity|].
  split; [intros p e; now apply switchExact_valid|].
  apply analytic_partials; [exact Hv|].
  intros Et. specialize (Hr Et). rewrite Forall_forall in Hr.
  apply Hr. eapply nth_error_In. exact Hc.
Qed.

Lemma initTestField_gradient_is_derivative_witness :
  exists gradient : vector,
    nth_error (internalField (analyticField threeCells SINUSOID_3D)) 2
    = Some (analyticValue SINUSOID_3D (Vector 1 0 0))
    /\ nth_error (internalField (analyticGradField threeCells SINUSOID_3D)) 2
       = Some gradient
    /\ (forall p e, switchExact SINUSOID_3D p e
                    = Ok (analyticValue SINUSOID_3D p))
    /\ derivable_pt_lim (fun t => analyticValue SINUSOID_3D (Vector t 0 0)) 1
         (vx gradient)
    /\ derivable_pt_lim (fun t => analyticValue SINUSOID_3D (Vector 1 t 0)) 0
         (vy gradient)
    /\ derivable_pt_lim (fun t => analyticValue SINUSOID_3D (Vector 1 0 t)) 0
         (vz gradient).
Proof.
  assert (Hv : validType SINUSOID_3D) by (unfold validType, SINUSOID_3D; lia).
  assert (Hr : regular threeCells SINUSOID_3D) by (intros E; discriminate E).
  apply (@initTestField_gradient_is_derivative threeCells SINUSOID_3D
           (analyticField threeCells SINUSOID_3D)
           (analyticGradField threeCells SINUSOID_3D) 2 1 0 0
           (initTestField_regular Hv Hr)).
  reflexivity.
Defined.

(** ** The integral of a vector field *)

Lemma fold_left_vadd_sumCells (l : list vector) (a : vector) :
  fold_left vadd l a
  = Vector (vx a + sumCells (List.length l) (fun i => vx (nth i l vzero)))
           (vy a + sumCells (List.length l) (fun i => vy (nth i l vzero)))
           (vz a + sumCells (List.length l) (fun i => vz (nth i l vzero))).
Proof.
  induction l as [|v l IH] using rev_ind.
  - destruct a as [ax ay az]. simpl. f_equal; lra.
  - rewrite fold_left_app, length_app, Nat.add_comm. simpl. rewrite IH.
    unfold vadd. cbn [vx vy vz].
    rewrite app_nth2, Nat.sub_diag by lia. cbn [nth].
    rewrite !(@sumCells_ext (List.length l) (fun i => _ (nth i (l ++ [v]) vzero))
               (fun i => _ (nth i l vzero)))
      by (intros i Hi; now rewrite app_nth1).
    f_equal; lra.
Qed.

Lemma nth_fieldTimes_vector (v : list R) (f : list vector) (i : nat) :
  List.length v = List.length f ->
  nth i (fieldTimes v f) vzero = vscale (nth i v 0) (nth i f vzero).
Proof.
  revert f i; induction v as [|a v IH]; intros [|b f] i E; simpl in *;
    try discriminate.
  - destruct i; unfold vscale, vzero; simpl; f_equal; lra.
  - destruct i; [reflexivity|]. apply IH. lia.
Qed.

Lemma length_fieldTimes_vector (v : list R) (f : list vector) :
  List.length v = List.length f ->
  List.length (fieldTimes v f) = List.length v.
Proof.
  revert f; induction v as [|a v IH]; intros [|b f] E; simpl in *;
    try discriminate; auto.
Qed.

(** X12.  For the vector instance of the driver, the integral of a field
    with one value per cell is taken component by component: each component
    is the sum over the cells of the cell volume times that component of the
    cell value; the boundary values do not enter. *)
Theorem vector_integral_is_componentwise (mesh : fvMesh) (field : volVectorField) :
  List.length (internalField field) = nCells mesh ->
  integral mesh field
  = Vector
      (sumCells (nCells mesh)
         (fun i => nth i (V mesh) 0 * vx (nth i (internalField field) vzero)))
      (sumCells (nCells mesh)
         (fun i => nth i (V mesh) 0 * vy (nth i (internalField field) vzero)))
      (sumCells (nCells mesh)
         (fun i => nth i (V mesh) 0 * vz (nth i (internalField field) vzero)))
  /\ forall boundary : list (list vector),
       integral mesh (setBoundary field boundary) = integral mesh field.
Proof.
  intros E. split; [|reflexivity].
  assert (EV : List.length (V mesh) = List.length (internalField field))
    by (unfold V; rewrite length_map; symmetry; exact E).
  unfold integral, gSum. cbn [plus zero vectorFieldType].
  rewrite fold_left_vadd_sumCells, length_fieldTimes_vector by exact EV.
  unfold V at 1 3 5. rewrite length_map. fold (nCells mesh).
  unfold vzero at 1 3 5. cbn [vx vy vz]. rewrite !Rplus_0_l.
  f_equal; apply sumCells_ext; intros i _;
    rewrite nth_fieldTimes_vector by exact EV; reflexivity.
Qed.

Lemma vector_integral_is_componentwise_witness :
  integral threeCells (analyticGradField threeCells LINEAR)
  = Vector
      (sumCells 3
         (fun i => nth i (V threeCells) 0
                   * vx (nth i (internalField (analyticGradField threeCells LINEAR))
                           vzero)))
      (sumCells 3
         (fun i => nth i (V threeCells) 0
                   * vy (nth i (internalField (analyticGradField threeCells LINEAR))
                           vzero)))
      (sumCells 3
         (fun i => nth i (V threeCells) 0
                   * vz (nth i (internalField (analyticGradField threeCells LINEAR))
                           vzero)))
  /\ forall boundary : list (list vector),
       integral threeCells (setBoundary (analyticGradField threeCells LINEAR) boundary)
       = integral threeCells (analyticGradField threeCells LINEAR).
Proof.
  apply (@vector_integral_is_componentwise threeCells
           (analyticGradField threeCells LINEAR)).
  reflexivity.
Defined.

(** ** The files of the driver *)

Lemma fileKey_eqb_refl (k : fileKey) : fileKey_eqb k k = true.
Proof. destruct k as [[k1 k2] k3]. simpl. now rewrite !String.eqb_refl. Qed.

Section DriverFiles.

Context {T : Type} `{FieldType T}.

Variable interpolateInto :
  conservativeMeshToMesh -> GeometricField T -> GeometricField T -> label ->
  GeometricField T.

(** The mapper interpolates in place: the target keeps its object. *)
Hypothesis interpolate_keeps_io :
  forall m target source method,
    io (interpolateInto m target source method) = io target.

(** A field written is read back as it was. *)
Hypothesis ofAny_toAny : forall f : GeometricField T, ofAny (toAny f) = Some f.

Lemma mapField_load_run (m : conservativeMeshToMesh) (method : label)
  (o : IOobject) (w : world) (a b : anyField) (stored loaded : GeometricField T) :
  files w (fileOf o) = Some a -> ofAny a = Some stored ->
  files w (fileOf (IOobject_ (ioName o) (timeName (tgtMesh m)) (tgtMesh m)
                     MUST_READ AUTO_WRITE)) = Some b ->
  ofAny b = Some loaded ->
  let tgtIO := IOobject_ (ioName o) (timeName (tgtMesh m)) (tgtMesh m)
                 MUST_READ AUTO_WRITE in
  let result := interpolateInto m (withIO tgtIO loaded) (withIO o stored) method in
  exists before after,
    mapField interpolateInto m method o w
    = Ok (tt, World (putFile (files w) tgtIO (toAny result))
                (trace w ++ before
                 ++ [InterpolateCall m (toAny (withIO tgtIO loaded))
                       (toAny (withIO o stored)) None method]
                 ++ after))
    /\ filter isCall before = [] /\ filter isCall after = [].
Proof.
  intros Hsrc Hof Htgt Hofb tgtIO result.
  unfold mapField, interpolate, write, info.
  unfold bindM, emit, readField, headerOk, store, ret.
  repeat (cbn [files trace]; rewrite ?Hsrc, ?Hof, ?Htgt, ?Hofb).
  fold tgtIO. fold (withIO tgtIO loaded). fold (withIO o stored). fold result.
  assert (Ekey : putFile (files w) (io result) (toAny result)
                 = putFile (files w) tgtIO (toAny result)).
  { unfold putFile. unfold result at 1. rewrite interpolate_keeps_io.
    reflexivity. }
  rewrite Ekey. rewrite <- !app_assoc. cbn [app].
  exists [InfoLine "    Interpolating " (WordValue (ioName o));
          InfoLine "Integral source: "
            (toValue (gSum (fieldTimes (V (srcMesh m))
                              (internalField (withIO o stored)))))].
  exists [WriteField (toAny result);
          InfoLine "Integral target: "
            (toValue (gSum (fieldTimes (V (tgtMesh m)) (internalField result))));
          InfoLine "mag(intError): "
            (ScalarValue
               (magT (minus
                        (gSum (fieldTimes (V (srcMesh m))
                                 (internalField (withIO o stored))))
                        (gSum (fieldTimes (V (tgtMesh m))
                                 (internalField result))))))].
  repeat split; reflexivity.
Qed.

Lemma mapField_fresh_run (m : conservativeMeshToMesh) (method : label)
  (o : IOobject) (w : world) (a : anyField) (stored : GeometricField T) :
  files w (fileOf o) = Some a -> ofAny a = Some stored ->
  files w (fileOf (IOobject_ (ioName o) (timeName (tgtMesh m)) (tgtMesh m)
                     MUST_READ AUTO_WRITE)) = None ->
  let tgtIO := IOobject_ (ioName o) (timeName (tgtMesh m)) (tgtMesh m)
                 MUST_READ AUTO_WRITE in
  let freshIO := IOobject_ (ioName o) (timeName (tgtMesh m)) (tgtMesh m)
                   NO_READ AUTO_WRITE in
  let given := newField freshIO (tgtMesh m) zero "calculated" in
  let result :=
    withIO freshIO (interpolateInto m given (withIO o stored) method) in
  exists before after,
    mapField interpolateInto m method o w
    = Ok (tt, World (putFile (files w) tgtIO (toAny result))
                (trace w ++ before
                 ++ [InterpolateCall m (toAny given) (toAny (withIO o stored))
                       None method]
                 ++ after))
    /\ filter isCall before = [] /\ filter isCall after = [].
Proof.
  intros Hsrc Hof Htgt tgtIO freshIO given result.
  unfold mapField, interpolateNew, interpolate, write, info.
  unfold bindM, emit, readField, headerOk, store, ret.
  repeat (cbn [files trace]; rewrite ?Hsrc, ?Hof, ?Htgt).
  cbn [ioName ioInstance ioDb writeOpt].
  fold freshIO. fold given. fold (withIO o stored).
  fold (withIO freshIO (interpolateInto m given (withIO o stored) method)).
  fold result.
  change (putFile (files w) (io result) (toAny result))
    with (putFile (files w) tgtIO (toAny result)).
  rewrite <- !app_assoc. cbn [app].
  exists [InfoLine "    Interpolating " (WordValue (ioName o));
          InfoLine "Integral source: "
            (toValue (gSum (fieldTimes (V (srcMesh m))
                              (internalField (withIO o stored)))))].
  exists [WriteField (toAny result);
          InfoLine "Integral target: "
            (toValue (gSum (fieldTimes (V (tgtMesh m)) (internalField result))));
          InfoLine "mag(intError): "
            (ScalarValue
               (magT (minus
                        (gSum (fieldTimes (V (srcMesh m))
                                 (internalField (withIO o stored))))
                        (gSum (fieldTimes (V (tgtMesh m))
                                 (internalField result))))))].
  repeat split; reflexivity.
Qed.

Lemma mapField_Ok_inv (m : conservativeMeshToMesh) (method : label)
  (o : IOobject) (w w1 : world) :
  mapField interpolateInto m method o w = Ok (tt, w1) ->
  exists a stored,
    files w (fileOf o) = Some a /\ ofAny a = Some stored
    /\ ((exists b loaded,
           files w (fileOf (IOobject_ (ioName o) (timeName (tgtMesh m))
                              (tgtMesh m) MUST_READ AUTO_WRITE)) = Some b
           /\ ofAny b = Some loaded)
        \/ files w (fileOf (IOobject_ (ioName o) (timeName (tgtMesh m))
                              (tgtMesh m) MUST_READ AUTO_WRITE)) = None).
Proof.
  intros E.
  destruct (files w (fileOf o)) as [a|] eqn:Hsrc.
  2:{ unfold mapField, info in E. unfold bindM, emit, readField in E.
      cbn [files trace] in E. rewrite Hsrc in E. discriminate E. }
  destruct (ofAny a) as [stored|] eqn:Hof.
  2:{ unfold mapField, info in E. unfold bindM, emit, readField in E.
      cbn [files trace] in E. rewrite Hsrc, Hof in E. discriminate E. }
  exists a, stored. split; [reflexivity|]. split; [exact Hof|].
  destruct (files w (fileOf (IOobject_ (ioName o) (timeName (tgtMesh m))
                               (tgtMesh m) MUST_READ AUTO_WRITE)))
    as [b|] eqn:Htgt; [|right; reflexivity].
  left. exists b.
  destruct (ofAny b) as [loaded|] eqn:Hofb; [exists loaded; auto|].
  exfalso. unfold mapField, interpolate, write, info in E.
  unfold bindM, emit, readField, headerOk, store, ret in E.
  repeat (cbn [files trace] in E; rewrite ?Hsrc, ?Hof, ?Htgt, ?Hofb in E).
  discriminate E.
Qed.

(** A second run of the driver on an object whose target file holds the
    field [kept]: the loading branch, with [kept] as target. *)
Lemma mapField_again (m : conservativeMeshToMesh) (method : label)
  (o : IOobject) (w1 : world) (a : anyField) (stored kept : GeometricField T) :
  files w1 (fileOf o) = Some a -> ofAny a = Some stored ->
  files w1 (fileOf (IOobject_ (ioName o) (timeName (tgtMesh m)) (tgtMesh m)
                      MUST_READ AUTO_WRITE)) = Some (toAny kept) ->
  let tgtIO := IOobject_ (ioName o) (timeName (tgtMesh m)) (tgtMesh m)
                 MUST_READ AUTO_WRITE in
  exists (w2 : world) (before2 after2 : list event),
    mapField interpolateInto m method o w1 = Ok (tt, w2)
    /\ trace w2
       = (trace w1 ++ before2
          ++ [InterpolateCall m (toAny (withIO tgtIO kept))
                (toAny (withIO o stored)) None method]
          ++ after2)%list
    /\ filter isCall before2 = [] /\ filter isCall after2 = []
    /\ files w2 (fileOf tgtIO)
       = Some (toAny (interpolateInto m (withIO tgtIO kept) (withIO o stored)
                        method)).
Proof.
  intros Hsrc Hof Htgt tgtIO.
  destruct (@mapField_load_run m method o w1 a (toAny kept) stored kept
              Hsrc Hof Htgt (ofAny_toAny kept))
    as (before2 & after2 & Run2 & Hb2 & Ha2).
  eexists. exists before2, after2. split; [exact Run2|]. cbn [trace files].
  split; [reflexivity|]. split; [exact Hb2|]. split; [exact Ha2|].
  unfold putFile. fold tgtIO. now rewrite fileKey_eqb_refl.
Qed.

(** X13.  When the driver completes on an object, it has called the mapper
    once, with the source field read from the file of the object; the only
    file it has changed is the target file of that object, and what that
    file now holds is the field which that call returned (its cells, its
    boundary and its patch type).  If the source file is another file,
    mapping the same object again completes too and takes the loading
    branch: it calls the mapper once, with the field returned by the first
    call as target, and stores what this second call returns.  (For a
    mapper that keeps the object of its target, and a field class that is
    read back as it was written.) *)
Theorem mapField_stores_target_and_reloads_it (m : conservativeMeshToMesh)
  (method : label) (o : IOobject) (w w1 : world) :
  mapField interpolateInto m method o w = Ok (tt, w1) ->
  let tgtIO := IOobject_ (ioName o) (timeName (tgtMesh m)) (tgtMesh m)
                 MUST_READ AUTO_WRITE in
  exists (a : anyField) (stored given kept : GeometricField T)
         (before after : list event),
    let src := withIO o stored in
    let mapped := interpolateInto m given src method in
    files w (fileOf o) = Some a /\ ofAny a = Some stored
    /\ trace w1
       = (trace w ++ before
          ++ [InterpolateCall m (toAny given) (toAny src) None method]
          ++ after)%list
    /\ filter isCall before = [] /\ filter isCall after = []
    /\ (forall k, fileKey_eqb k (fileOf tgtIO) = false -> files w1 k = files w k)
    /\ files w1 (fileOf tgtIO) = Some (toAny kept)
    /\ withIO tgtIO kept = withIO tgtIO mapped
    /\ (fileKey_eqb (fileOf o) (fileOf tgtIO) = false ->
        exists (w2 : world) (before2 after2 : list event),
          mapField interpolateInto m method o w1 = Ok (tt, w2)
          /\ trace w2
             = (trace w1 ++ before2
                ++ [InterpolateCall m (toAny (withIO tgtIO mapped)) (toAny src)
                      None method]
                ++ after2)%list
          /\ filter isCall before2 = [] /\ filter isCall after2 = []
          /\ files w2 (fileOf tgtIO)
             = Some (toAny (interpolateInto m (withIO tgtIO mapped) src method))).
Proof.
  intros E tgtIO.
  destruct (mapField_Ok_inv _ _ _ _ E)
    as (a & stored & Hsrc & Hof & [(b & loaded & Htgt & Hofb)|Htgt]).
  - destruct (@mapField_load_run m method o w a b stored loaded Hsrc Hof Htgt Hofb)
      as (before & after & Run & Hb & Ha).
    rewrite Run in E. injection E as Ew1. fold tgtIO in Ew1.
    set (mapped := interpolateInto m (withIO tgtIO loaded) (withIO o stored)
                     method) in *.
    assert (Hf1 : files w1 = putFile (files w) tgtIO (toAny mapped))
      by (rewrite <- Ew1; reflexivity).
    assert (Ht1 : trace w1
                  = (trace w ++ before
                     ++ [InterpolateCall m (toAny (withIO tgtIO loaded))
                           (toAny (withIO o stored)) None method]
                     ++ after)%list)
      by (rewrite <- Ew1; reflexivity).
    exists a, stored, (withIO tgtIO loaded), mapped, before, after.
    cbv zeta. fold mapped.
    split; [exact Hsrc|]. split; [exact Hof|]. split; [exact Ht1|].
    split; [exact Hb|]. split; [exact Ha|]. split; [|split; [|split]].
    + intros k Hk. rewrite Hf1. unfold putFile. now rewrite Hk.
    + rewrite Hf1. unfold putFile. now rewrite fileKey_eqb_refl.
    + reflexivity.
    + intros Hdiff.
      apply (@mapField_again m method o w1 a stored mapped).
      * rewrite Hf1. unfold putFile. fold tgtIO. now rewrite Hdiff.
      * exact Hof.
      * rewrite Hf1. unfold putFile. fold tgtIO. now rewrite fileKey_eqb_refl.
  - destruct (@mapField_fresh_run m method o w a stored Hsrc Hof Htgt)
      as (before & after & Run & Hb & Ha).
    rewrite Run in E. injection E as Ew1. fold tgtIO in Ew1.
    set (freshIO := IOobject_ (ioName o) (timeName (tgtMesh m)) (tgtMesh m)
                      NO_READ AUTO_WRITE) in *.
    set (given := newField freshIO (tgtMesh m) zero "calculated") in *.
    set (mapped := interpolateInto m given (withIO o stored) method) in *.
    assert (Hf1 : files w1
                  = putFile (files w) tgtIO (toAny (withIO freshIO mapped)))
      by (rewrite <- Ew1; reflexivity).
    assert (Ht1 : trace w1
                  = (trace w ++ before
                     ++ [InterpolateCall m (toAny given)
                           (toAny (withIO o stored)) None method]
                     ++ after)%list)
      by (rewrite <- Ew1; reflexivity).
    exists a, stored, given, (withIO freshIO mapped), before, after.
    cbv zeta. fold mapped.
    split; [exact Hsrc|]. split; [exact Hof|]. split; [exact Ht1|].
    split; [exact Hb|]. split; [exact Ha|]. split; [|split; [|split]].
    + intros k Hk. rewrite Hf1. unfold putFile. now rewrite Hk.
    + rewrite Hf1. unfold putFile. now rewrite fileKey_eqb_refl.
    + reflexivity.
    + intros Hdiff.
      change (withIO tgtIO mapped) with (withIO tgtIO (withIO freshIO mapped)).
      apply (@mapField_again m method o w1 a stored (withIO freshIO mapped)).
      * rewrite Hf1. unfold putFile. fold tgtIO. now rewrite Hdiff.
      * exact Hof.
      * rewrite Hf1. unfold putFile. fold tgtIO. now rewrite fileKey_eqb_refl.
Qed.

End DriverFiles.

Lemma mapField_stores_target_and_reloads_it_witness :
  exists (w1 : world) (kept : volScalarField),
    mapField firstCellMapper (MeshToMesh twoCells threeCells 1 false false) 0%Z
      (IOobject_ "alpha" "0" twoCells MUST_READ NO_WRITE) sourceOnly
    = Ok (tt, w1)
    /\ files w1 ("target", "0", "alpha") = Some (ScalarField kept)
    /\ files w1 ("source", "0", "alpha") = files sourceOnly ("source", "0", "alpha").
Proof.
  destruct (@mapField_fresh_run scalar scalarFieldType firstCellMapper
              (MeshToMesh twoCells threeCells 1 false false) 0%Z
              (IOobject_ "alpha" "0" twoCells MUST_READ NO_WRITE) sourceOnly
              (ScalarField (alphaOn twoCells [3; 5] [[7; 7]]))
              (alphaOn twoCells [3; 5] [[7; 7]]) eq_refl eq_refl eq_refl)
    as (before0 & after0 & Run & _).
  destruct (@mapField_stores_target_and_reloads_it scalar scalarFieldType
              firstCellMapper (fun _ _ _ _ => eq_refl) (fun _ => eq_refl)
              (MeshToMesh twoCells threeCells 1 false false) 0%Z
              (IOobject_ "alpha" "0" twoCells MUST_READ NO_WRITE) sourceOnly _ Run)
    as (a & stored & given & kept & before & after & _ & _ & _ & _ & _
        & Hframe & Hfile & _).
  eexists. exists kept. split; [exact Run|].
  split; [exact Hfile|]. apply Hframe. reflexivity.
Defined.

(** ** The production mapping and the entry point *)

Lemma bind_info {B} (text : string) (v : value) (k : unit -> M B) (w : world) :
  bindM (info text v) k w
  = k tt (World (files w) (trace w ++ [InfoLine text v])).
Proof. reflexivity. Qed.

Lemma bind_ok {A B} (c : M A) (k : A -> M B) (w w' : world) (a : A) :
  c w = Ok (a, w') -> bindM c k w = k a w'.
Proof. intros E. unfold bindM. now rewrite E. Qed.

Lemma bind_err {A B} (c : M A) (k : A -> M B) (w : world) (e : fault) :
  c w = Err e -> bindM c k w = Err e.
Proof. intros E. unfold bindM. now rewrite E. Qed.

Section ApplicationProperties.

Variable interpolateScalar :
  conservativeMeshToMesh -> volScalarField -> volScalarField -> label ->
  volScalarField.
Variable interpolateVector :
  conservativeMeshToMesh -> volVectorField -> volVectorField -> label ->
  volVectorField.
Variable interpolateGrad :
  conservativeMeshToMesh -> volScalarField -> volScalarField ->
  volVectorField -> label -> volScalarField.
Variable objectsOf :
  (fileKey -> option anyField) -> fvMesh -> string -> list IOentry.
Variables CONSERVATIVE INVERSE_DISTANCE CONSERVATIVE_FIRST_ORDER : label.
Variable nGeometricD : fvMesh -> label.

(** X14.  When the time directory of the source holds no object of class
    volScalarField or volVectorField (it is empty, or holds fields of other
    classes only), the production mapping completes after its heading: it
    reads, maps and writes no field, and the stored fields are as before.
    (What the constructor of the mapper does is library code and no part
    of this statement.) *)
Theorem mapConservativeMesh_skips_other_classes (meshSource meshTarget : fvMesh)
  (method nThreads : label) (forceRecalc writeAddr : bool) (w : world) :
  (forall e, In e (objectsOf (files w) meshSource (timeName meshSource)) ->
     headerClassName e <> "volScalarField"
     /\ headerClassName e <> "volVectorField") ->
  mapConservativeMesh interpolateScalar interpolateVector objectsOf
    meshSource meshTarget method nThreads forceRecalc writeAddr w
  = Ok (tt, World (files w)
              (trace w
               ++ [InfoLine "Conservatively creating and mapping fields for time "
                     (WordValue (timeName meshSource))])).
Proof.
  intros Hskip. unfold mapConservativeMesh. rewrite bind_info.
  unfold bindM at 1. cbn [files].
  assert (Enone : forall className,
            className = "volScalarField" \/ className = "volVectorField" ->
            lookupClass (objectsOf (files w) meshSource (timeName meshSource))
              className = []).
  { intros className Hc. unfold lookupClass.
    induction (objectsOf (files w) meshSource (timeName meshSource))
      as [|e l IH]; [reflexivity|]. simpl.
    destruct (String.eqb_spec (headerClassName e) className) as [Ee|Ee].
    - exfalso. destruct (Hskip e (or_introl eq_refl)) as [H1 H2].
      destruct Hc as [->| ->]; contradiction.
    - apply IH. intros e' He'. apply Hskip. right. exact He'. }
  unfold MapConservativeVolFields.
  cbn [typeName scalarFieldType vectorFieldType].
  rewrite (Enone "volScalarField" (or_introl eq_refl)).
  rewrite (Enone "volVectorField" (or_intror eq_refl)).
  reflexivity.
Qed.

(** X15.  For a method that is none of the three values of the enumeration,
    [main] does not return: it ends with a fatal error that names the
    application and reads "unknown interpolation scheme" followed by the
    value of the method, in test mode as in production mode, for every pair
    of meshes, mapper and world. *)
Theorem main_rejects_unknown_method (method nThreads : label)
  (forceRecalc writeAddr testOnly : bool) (meshSource meshTarget : fvMesh)
  (w : world) :
  method <> CONSERVATIVE -> method <> INVERSE_DISTANCE ->
  method <> CONSERVATIVE_FIRST_ORDER ->
  main interpolateScalar interpolateVector interpolateGrad objectsOf
    CONSERVATIVE INVERSE_DISTANCE CONSERVATIVE_FIRST_ORDER nGeometricD
    method nThreads forceRecalc writeAddr testOnly meshSource meshTarget w
  = Err (FatalError "mapConservativeFields"
           ("unknown interpolation scheme " ++ printLabel method)).
Proof.
  intros H1 H2 H3. unfold main. rewrite !bind_info.
  apply Z.eqb_neq in H1, H2, H3. rewrite H1, H2, H3.
  apply bind_err. reflexivity.
Qed.

End ApplicationProperties.

Lemma mapConservativeMesh_skips_other_classes_witness :
  mapConservativeMesh firstCellMapper keepTargetMapper tensorOnly
    twoCells threeCells 0%Z 1%Z false false emptyWorld
  = Ok (tt, World (files emptyWorld)
              (trace emptyWorld
               ++ [InfoLine "Conservatively creating and mapping fields for time "
                     (WordValue (timeName twoCells))])).
Proof.
  apply (@mapConservativeMesh_skips_other_classes firstCellMapper
           keepTargetMapper tensorOnly twoCells threeCells 0%Z 1%Z false false
           emptyWorld).
  intros e [<-|[]]. split; discriminate.
Defined.

Lemma main_rejects_unknown_method_witness :
  main firstCellMapper keepTargetMapper firstCellMapperGrad tensorOnly
    0%Z 1%Z 2%Z (fun _ => 3%Z) 5%Z 1%Z false false false twoCells threeCells
    emptyWorld
  = Err (FatalError "mapConservativeFields" "unknown interpolation scheme 5").
Proof.
  apply (@main_rejects_unknown_method firstCellMapper keepTargetMapper
           firstCellMapperGrad tensorOnly 0%Z 1%Z 2%Z (fun _ => 3%Z)
           5%Z 1%Z false false false twoCells threeCells emptyWorld);
    discriminate.
Defined.

(** ** Range and integral of the test fields *)

Lemma product_of_sines_bounds (a b : R) : -1 <= sin a * sin b <= 1.
Proof.
  pose proof (SIN_bound a) as [Ha1 Ha2].
  pose proof (SIN_bound b) as [Hb1 Hb2]. split; nra.
Qed.

Lemma analyticValue_range (type : testType) (x : vector) :
  validType type -> type <> LINEAR -> 0 <= analyticValue type x <= 3.
Proof.
  intros Hv Hl. each_type Hv; try congruence; unfold analyticValue;
    cbn [Z.eqb CONSTANT LINEAR SINUSOID_2D SINUSOID_3D COSINE_HILL_2D Pos.eqb].
  - unfold constScalVal. decimals. lra.
  - pose proof (product_of_sines_bounds (2 * PI * vx x) (2 * PI * vy x)). lra.
  - pose proof (product_of_sines_bounds (2 * PI * vx x) (2 * PI * vy x)) as [H1 H2].
    pose proof (SIN_bound (2 * PI * vz x)) as [H3 H4].
    assert (-1 <= sin (2 * PI * vx x) * sin (2 * PI * vy x)
                  * sin (2 * PI * vz x) <= 1) by (split; nra).
    lra.
  - pose proof (COS_bound (PI * vmag (vsub x hC) / (sqrt 2 / 2))). lra.
Qed.

(** X18.  When the populated construction returns for a kind other than
    LINEAR, every value of the scalar field, in the cells and on the
    boundary faces, lies between 0 and 3: the constant, sinusoidal and cosine
    hill test fields are never negative. *)
Theorem initTestField_values_in_range (mesh : fvMesh) (type : testType)
  (f : volScalarField) (g : volVectorField) :
  initTestField mesh type true = Ok (f, g) ->
  type <> LINEAR ->
  Forall (fun v => 0 <= v <= 3) (internalField f)
  /\ Forall (Forall (fun v => 0 <= v <= 3)) (boundaryField f).
Proof.
  intros E Hl. destruct (initTestField_Ok_inv _ _ E) as (Hv & _ & -> & _).
  unfold analyticField. cbn [internalField boundaryField]. split.
  - apply Forall_forall. intros v Hin. apply in_map_iff in Hin.
    destruct Hin as [x [<- _]]. now apply analyticValue_range.
  - apply Forall_forall. intros p Hp. apply in_map_iff in Hp.
    destruct Hp as [q [<- _]].
    apply Forall_forall. intros v Hin. apply in_map_iff in Hin.
    destruct Hin as [x [<- _]]. now apply analyticValue_range.
Qed.

Lemma initTestField_values_in_range_witness :
  Forall (fun v => 0 <= v <= 3)
    (internalField (analyticField twoCells SINUSOID_3D))
  /\ Forall (Forall (fun v => 0 <= v <= 3))
       (boundaryField (analyticField twoCells SINUSOID_3D)).
Proof.
  assert (Hv : validType SINUSOID_3D) by (unfold validType, SINUSOID_3D; lia).
  assert (Hr : regular twoCells SINUSOID_3D) by (intros E; discriminate E).
  apply (@initTestField_values_in_range twoCells SINUSOID_3D
           (analyticField twoCells SINUSOID_3D)
           (analyticGradField twoCells SINUSOID_3D)
           (initTestField_regular Hv Hr)).
  discriminate.
Defined.

Lemma sumCells_scal (n : nat) (c : R) (g : nat -> R) :
  sumCells n (fun i => g i * c) = c * sumCells n g.
Proof.
  induction n as [|n IH]; simpl; [ring|]. rewrite IH. ring.
Qed.

(** X19.  The integral of the constant test field, as the tests compute it,
    is the constant 2 times the sum of the cell volumes of the mesh. *)
Theorem constant_field_integral_is_twice_volume (mesh : fvMesh)
  (f : volScalarField) (g : volVectorField) :
  initTestField mesh CONSTANT true = Ok (f, g) ->
  gSum (fieldTimes (V mesh) (internalField f))
  = 2 * sumCells (nCells mesh) (fun i => nth i (V mesh) 0).
Proof.
  intros E. destruct (initTestField_Ok_inv _ _ E) as (_ & _ & -> & _).
  unfold analyticField. cbn [internalField].
  assert (EV : List.length (V mesh)
               = List.length (map (analyticValue CONSTANT) (cellCentres mesh)))
    by (unfold V; now rewrite !length_map, length_cellCentres).
  unfold gSum. cbn [plus zero scalarFieldType].
  rewrite fold_left_Rplus_sumCells, length_fieldTimes by exact EV.
  unfold V at 1. rewrite length_map. fold (nCells mesh).
  rewrite Rplus_0_l, <- sumCells_scal. apply sumCells_ext. intros i Hi.
  rewrite nth_fieldTimes by exact EV. f_equal.
  rewrite (nth_indep _ 0 (analyticValue CONSTANT vzero))
    by (rewrite length_map, length_cellCentres; exact Hi).
  rewrite map_nth. unfold analyticValue, constScalVal. simpl. lra.
Qed.

Lemma constant_field_integral_is_twice_volume_witness :
  gSum (fieldTimes (V threeCells) (internalField (analyticField threeCells CONSTANT)))
  = 2 * sumCells (nCells threeCells) (fun i => nth i (V threeCells) 0).
Proof.
  assert (Hv : validType CONSTANT) by (unfold validType, CONSTANT; lia).
  assert (Hr : regular threeCells CONSTANT) by (intros E; discriminate E).
  apply (@constant_field_integral_is_twice_volume threeCells
           (analyticField threeCells CONSTANT)
           (analyticGradField threeCells CONSTANT)
           (initTestField_regular Hv Hr)).
Defined.

Section TestMode.

Variable interpolateScalar :
  conservativeMeshToMesh -> volScalarField -> volScalarField -> label ->
  volScalarField.
Variable interpolateVector :
  conservativeMeshToMesh -> volVectorField -> volVectorField -> label ->
  volVectorField.
Variable interpolateGrad :
  conservativeMeshToMesh -> volScalarField -> volScalarField ->
  volVectorField -> label -> volScalarField.
Variable objectsOf :
  (fileKey -> option anyField) -> fvMesh -> string -> list IOentry.
Variables CONSERVATIVE INVERSE_DISTANCE CONSERVATIVE_FIRST_ORDER : label.
Variable nGeometricD : fvMesh -> label.

(** X20.  In test mode, with one of the three methods, on a source mesh
    whose number of geometric directions is not 2, [main] runs the mapping
    test on the linear field only: it returns 0 after one call on the
    mapper, into the zero target field, and it stores no file and writes no
    field; the cyclic test and the production mapping are not run. *)
Theorem main_test_mode_maps_once_off_2D (method nThreads : label)
  (forceRecalc writeAddr : bool) (meshSource meshTarget : fvMesh) (w : world) :
  (forall m target source grad method mesh,
      onMesh mesh target ->
      onMesh mesh (interpolateGrad m target source grad method)) ->
  method = CONSERVATIVE \/ method = INVERSE_DISTANCE
  \/ method = CONSERVATIVE_FIRST_ORDER ->
  nGeometricD meshSource <> 2%Z ->
  nCells meshSource <> 0%nat -> nCells meshTarget <> 0%nat ->
  exists (line : string) (report : list event),
    main interpolateScalar interpolateVector interpolateGrad objectsOf
      CONSERVATIVE INVERSE_DISTANCE CONSERVATIVE_FIRST_ORDER nGeometricD
      method nThreads forceRecalc writeAddr true meshSource meshTarget w
    = Ok (0%Z,
          World (files w)
            (trace w
             ++ [InfoLine "Source mesh size: "
                   (LabelValue (Z.of_nat (nCells meshSource)));
                 InfoLine "Target mesh size: "
                   (LabelValue (Z.of_nat (nCells meshTarget)));
                 InfoLine line NoValue;
                 InterpolateCall
                   (MeshToMesh meshSource meshTarget nThreads forceRecalc
                      writeAddr)
                   (ScalarField
                      (newField (IOobject_ "alpha" (timeName meshTarget)
                                   meshTarget NO_READ NO_WRITE)
                         meshTarget 0 "fixedValue"))
                   (ScalarField (analyticField meshSource LINEAR))
                   (Some (VectorField (analyticGradField meshSource LINEAR)))
                   method]
             ++ report ++ [InfoLine "End" NoValue]))
    /\ filter isCall report = [] /\ filter isWrite report = [].
Proof.
  intros Hshape Hm Hd HnS HnT.
  assert (Hv : validType LINEAR) by (unfold validType, LINEAR; lia).
  assert (Hr : regular meshSource LINEAR) by (intros E; discriminate E).
  pose proof (fun w0 =>
                @testMappingError_run interpolateGrad LINEAR meshSource
                  meshTarget method nThreads forceRecalc writeAddr w0
                  Hshape Hv Hr HnS HnT) as Run.
  cbv zeta in Run.
  match type of Run with
  | forall w0, _ = Ok (_, World _ (_ ++ [?call] ++ ?norms)%list) =>
      set (report := norms) in Run
  end.
  assert (Hrest : forall line w0,
            trace w0
            = (trace w
               ++ [InfoLine "Source mesh size: "
                     (LabelValue (Z.of_nat (nCells meshSource)));
                   InfoLine "Target mesh size: "
                     (LabelValue (Z.of_nat (nCells meshTarget)));
                   InfoLine line NoValue])%list ->
            files w0 = files w ->
            exists line' report',
              bindM
                (bindM (testMappingError interpolateGrad LINEAR meshSource
                          meshTarget method nThreads forceRecalc writeAddr)
                   (fun _ =>
                      if (nGeometricD meshSource =? 2)%Z
                      then testCyclicRemap interpolateGrad 250%Z COSINE_HILL_2D
                             meshSource meshTarget method nThreads forceRecalc
                             writeAddr
                      else ret tt))
                (fun _ => bindM (info "End" NoValue) (fun _ => ret 0%Z)) w0
              = Ok (0%Z,
                    World (files w)
                      (trace w
                       ++ [InfoLine "Source mesh size: "
                             (LabelValue (Z.of_nat (nCells meshSource)));
                           InfoLine "Target mesh size: "
                             (LabelValue (Z.of_nat (nCells meshTarget)));
                           InfoLine line' NoValue;
                           InterpolateCall
                             (MeshToMesh meshSource meshTarget nThreads
                                forceRecalc writeAddr)
                             (ScalarField
                                (newField (IOobject_ "alpha" (timeName meshTarget)
                                             meshTarget NO_READ NO_WRITE)
                                   meshTarget 0 "fixedValue"))
                             (ScalarField (analyticField meshSource LINEAR))
                             (Some (VectorField
                                      (analyticGradField meshSource LINEAR)))
                             method]
                       ++ report' ++ [InfoLine "End" NoValue]))
              /\ filter isCall report' = [] /\ filter isWrite report' = []).
  { intros line w0 Etr Efl. exists line, report.
    split; [|split; reflexivity].
    erewrite bind_ok.
    2:{ erewrite bind_ok; [|apply Run].
        apply Z.eqb_neq in Hd. rewrite Hd. reflexivity. }
    rewrite bind_info. unfold ret. cbn [files trace].
    rewrite Etr, Efl. rewrite <- !app_assoc. reflexivity. }
  unfold main. rewrite !bind_info.
  destruct (method =? CONSERVATIVE)%Z eqn:E1;
    [rewrite bind_info; eapply Hrest; cbn [trace files];
     [rewrite <- !app_assoc; reflexivity|reflexivity]|].
  destruct (method =? INVERSE_DISTANCE)%Z eqn:E2;
    [rewrite bind_info; eapply Hrest; cbn [trace files];
     [rewrite <- !app_assoc; reflexivity|reflexivity]|].
  destruct (method =? CONSERVATIVE_FIRST_ORDER)%Z eqn:E3;
    [rewrite bind_info; eapply Hrest; cbn [trace files];
     [rewrite <- !app_assoc; reflexivity|reflexivity]|].
  exfalso. apply Z.eqb_neq in E1, E2, E3.
  destruct Hm as [Hm|[Hm|Hm]]; contradiction.
Qed.

End TestMode.

Lemma main_test_mode_maps_once_off_2D_witness :
  exists w',
    main firstCellMapper keepTargetMapper firstCellMapperGrad tensorOnly
      0%Z 1%Z 2%Z (fun _ => 3%Z) 1%Z 1%Z false false true twoCells threeCells
      emptyWorld = Ok (0%Z, w')
    /\ files w' = files emptyWorld.
Proof.
  destruct (@main_test_mode_maps_once_off_2D firstCellMapper keepTargetMapper
              firstCellMapperGrad tensorOnly 0%Z 1%Z 2%Z (fun _ => 3%Z)
              1%Z 1%Z false false twoCells threeCells emptyWorld
              firstCellMapperGrad_keeps_shape)
    as (line & report & Run & _).
  - right. left. reflexivity.
  - discriminate.
  - discriminate.
  - discriminate.
  - eexists. split; [exact Run|reflexivity].
Defined.
